(** * The test-vector generator (package [builders], type [Generator])

    A shallow embedding of the batch generator of test vectors: the
    execution of a vector definition against every protocol version
    ([generateVariants]), the merge of variants that serialize to the same
    bytes, the naming of the vector files ([vectorFilename],
    [removePrevious]), the comparison of a new vector with the committed one
    ([vectorsEqual]) and the persistence loop of [Generator.Group] with its
    three overwrite modes.

    Conventions of the embedding.
    - A Go [[]byte] holding JSON text and a Go [string] are both [string].
    - A pointer to a [schema.Metadata] is a location of a heap of metadata
      records; a nil or dangling pointer is a location outside the heap and
      dereferencing it panics.  A function of the generator that can only
      return or panic returns [None] for the panic.
    - The functions of the vector definitions and [Finish] belong to the
      builders, whose assertions call [os.Exit(1)] when they fail: they
      return [None] when they end the process this way, and the generation
      of a vector ends in [Ok], [Panic] or [Exit].  A run of [Group] that
      panics ends in [Panicked], one that is ended by [os.Exit] in
      [Exited], with the files and the log as they are at that point; no
      deferred call of the goroutine of the group runs then.
    - A file path is a pair of a directory and a file name: the scratch
      directory of a group ([TmpDir], the result of [ioutil.TempDir]) or the
      output directory ([OutDir], [Generator.OutputPath]).
    - Go leaves the order of [range] over a map unspecified: the order is a
      parameter ([rangeMap]) constrained only to enumerate the map.
    - The goroutines of [Group] are run one after the other, in the order of
      the list; each one handles its own vector definition. *)

From Stdlib Require Import ZArith Ascii String List.
From stdpp Require Import base option list strings gmap fin_maps.

Open Scope string_scope.
Open Scope list_scope.

(** ** Data of package [schema] and [builders] *)

(** [schema.GenerationData]: the source and version of one dependency. *)
Record GenerationData := { Source : string; Version : string }.

(** Modelled from the spec: [schema.Metadata] is declared outside the files
    at hand.  The generator reads [ID] and writes [Gen]; every other field
    (version, description, comment) is kept in [MetaRest]. *)
Record Metadata := { ID : string; Gen : list GenerationData; MetaRest : string }.

(** Modelled from the spec: [schema.Variant], the variant tag of a vector:
    the identifier of a protocol version, with the epoch and network version
    it stands for. *)
Record Variant := { VariantID : string; Epoch : Z; NetworkVersion : N }.

(** Modelled from the spec: [schema.Preconditions]; the generator touches
    [Variants] only, the state tree and the rest are kept in [PreRest]. *)
Record Preconditions := { Variants : list Variant; PreRest : string }.

(** Modelled from the spec: [schema.TestVector].  [Meta] is the [_meta]
    property ([None] is the nil pointer), [Pre] the preconditions, and
    [Body] everything else (class, selector, hints, messages, tipsets,
    postconditions).  The [Meta] pointer of a vector under generation
    aliases the [Metadata] of its definition, which nothing writes after
    [generateVariants] has stamped it: the vector holds the stamped value. *)
Record TestVector := { Meta : option Metadata; Pre : Preconditions; Body : string }.

(** [ProtocolVersion] of package [builders]. *)
Record ProtocolVersion := { PVID : string; FirstEpoch : Z; Network : N }.

(** [v.Pre.Variants = vs] *)
Definition setVariants (v : TestVector) (vs : list Variant) : TestVector :=
  {| Meta := Meta v;
     Pre := {| Variants := vs; PreRest := PreRest (Pre v) |};
     Body := Body v |}.

(** [v.Meta = m] *)
Definition setMeta (v : TestVector) (m : option Metadata) : TestVector :=
  {| Meta := m; Pre := Pre v; Body := Body v |}.

(** [m.Gen = g] *)
Definition setGen (m : Metadata) (g : list GenerationData) : Metadata :=
  {| ID := ID m; Gen := g; MetaRest := MetaRest m |}.

(** [OverwriteMode] *)
Inductive OverwriteMode := OverwriteNone | OverwriteUpdate | OverwriteForce.

Definition brokenVectorPrefix : string := "x--".

(** ** How a call ends

    A call returns a value, panics, or does not return because a failed
    assertion of the builders has called [os.Exit(1)]. *)
Inductive Result (A : Type) := Ok (a : A) | Panic | Exit.
Arguments Ok {A} a.
Arguments Panic {A}.
Arguments Exit {A}.

#[global] Instance Result_ret : MRet Result := λ A, Ok.

#[global] Instance Result_bind : MBind Result :=
  λ A B f r, match r with Ok a => f a | Panic => Panic | Exit => Exit end.

(** A nil pointer panics when it is dereferenced; a builder that does not
    return has ended the process. *)
Definition orPanic {A} (o : option A) : Result A :=
  match o with Some a => Ok a | None => Panic end.

Definition orExit {A} (o : option A) : Result A :=
  match o with Some a => Ok a | None => Exit end.

(** ** Files *)

Inductive Dir := TmpDir | OutDir.

#[global] Instance Dir_eq_dec : EqDecision Dir.
Proof. solve_decision. Defined.

#[global] Instance Dir_countable : Countable Dir.
Proof.
  refine (inj_countable' (λ d, match d with TmpDir => true | OutDir => false end)
                         (λ b : bool, if b then TmpDir else OutDir) _).
  by intros [].
Defined.

(** The system calls the generator makes. *)
Inductive Op := OpOpen | OpStat | OpRead | OpRename | OpRemove | OpTempDir | OpRemoveAll.

(** ** What the generator takes from outside

    The JSON codec of [encoding/json] on [schema.TestVector], the BLAKE2b
    hash, the builders of package [builders], the table of protocol
    versions and the build information of the binary are parameters of the
    development, and so is the behaviour of the operating system. *)
Class Externals := {
  (** [schema.TestVector.MustMarshalJSON] *)
  MustMarshalJSON : TestVector → string;
  (** [json.Marshal], which may return an error *)
  json_Marshal : TestVector → option string;
  (** [json.Unmarshal] into a fresh [schema.TestVector] *)
  json_Unmarshal : string → option TestVector;
  (** [json.NewEncoder(out).Encode] with tab indentation *)
  json_Encode : TestVector → option string;
  (** [blake2b.Sum256] *)
  Sum256 : string → string;
  (** [schema.HintIncorrect] *)
  HintIncorrect : string;
  (** [KnownProtocolVersions] *)
  KnownProtocolVersions : list ProtocolVersion;
  (** [GenscriptCommit], set at link time *)
  GenscriptCommit : string;
  (** [debug.ReadBuildInfo().Deps], as pairs of a path and a version *)
  buildDeps : list (string * string);
  (** the builders and their [Finish], which returns the vector unless an
      assertion fails and ends the process ([None]) *)
  MessageVectorBuilder : Type;
  TipsetVectorBuilder : Type;
  MessageVector :
    Metadata → string → N → list string → ProtocolVersion → MessageVectorBuilder;
  TipsetVector :
    Metadata → string → N → list string → ProtocolVersion → TipsetVectorBuilder;
  FinishMessage : MessageVectorBuilder → option TestVector;
  FinishTipset : TipsetVectorBuilder → option TestVector;
  (** the order in which [range] visits a map *)
  rangeMap : gmap string TestVector → list (string * TestVector);
  rangeMap_perm : ∀ m, rangeMap m ≡ₚ map_to_list m
}.

(** The operating system: the calls that fail with an error other than
    "not exist" (a permission, a directory in the way, a full disk). *)
Class System := {
  fails : Op → Dir * string → bool
}.

Section Generator.
Context `{Ext : Externals} `{Sys : System}.

(** [genData]: the generation data stamped into vectors; [init] appends
    [getBuildInfo()] to the entry of the generator script. *)
Definition getBuildInfo : list GenerationData :=
  let deps := ["github.com/chenjianmei111/lotus"; "github.com/chenjianmei111/specs-actors"] in
  flat_map (λ v : string * string,
    flat_map (λ dep : string,
      if String.prefix dep (fst v)
      then [{| Source := fst v; Version := snd v |}] else []) deps) buildDeps.

Definition genData : list GenerationData :=
  {| Source := "genscript"; Version := GenscriptCommit |} :: getBuildInfo.

(** [VectorDef].  A generation function works on the builder it is given
    and returns, unless one of its assertions fails and ends the process
    ([None]). *)
Record VectorDef := {
  Metadata_ : positive;
  Selector : string;
  SupportedVersions : list ProtocolVersion;
  Hints : list string;
  Mode_ : N;
  MessageFunc : option (MessageVectorBuilder → option MessageVectorBuilder);
  TipsetFunc : option (TipsetVectorBuilder → option TipsetVectorBuilder)
}.

(** [Generator]; [IncludeFilter] is the compiled regular expression, as its
    [MatchString]. *)
Record Generator := {
  OutputPath : string;
  Mode : OverwriteMode;
  IncludeFilter : option (string → bool)
}.

(** [f != nil] *)
Definition isSet {A} (f : option A) : bool :=
  match f with Some _ => true | None => false end.

(** ** [generateVariants] *)

(** The body of the loop over the versions: build, run the function of the
    definition, [Finish].  No function at all panics; a failed assertion in
    the function or in [Finish] ends the process. *)
Definition runVersion (b : VectorDef) (meta : Metadata) (version : ProtocolVersion)
  : Result TestVector :=
  match MessageFunc b, TipsetFunc b with
  | Some f, _ =>
      orExit (f (MessageVector meta (Selector b) (Mode_ b) (Hints b) version)
                ≫= FinishMessage)
  | None, Some f =>
      orExit (f (TipsetVector meta (Selector b) (Mode_ b) (Hints b) version)
                ≫= FinishTipset)
  | None, None => Panic
  end.

(** The hash under which a vector is filed: its serialization with the
    variants cleared. *)
Definition bodyBytes (v : TestVector) : string := MustMarshalJSON (setVariants v []).
Definition contentHash (v : TestVector) : string := Sum256 (bodyBytes v).

(** The body of the loop over [result] that fills [uniq]. *)
Definition dedupStep (uniq : gmap string TestVector) (v : TestVector)
  : gmap string TestVector :=
  let variants := Variants (Pre v) in
  let v0 := setVariants v [] in
  let hash := Sum256 (MustMarshalJSON v0) in
  match uniq !! hash with
  | Some merged => <[hash := setVariants merged (Variants (Pre merged) ++ variants)]> uniq
  | None => <[hash := setVariants v0 variants]> uniq
  end.

Definition dedup (result : list TestVector) : gmap string TestVector :=
  foldl dedupStep ∅ result.

(** The versions a definition is run against. *)
Definition versionsOf (b : VectorDef) : list ProtocolVersion :=
  if Nat.eqb (length (SupportedVersions b)) 0
  then KnownProtocolVersions else SupportedVersions b.

(** The first loop of [generateVariants]: the list [result], one vector per
    version, built from the stamped metadata.  The loop stops at the first
    version whose generation does not return. *)
Definition producedVariants (h : gmap positive Metadata) (b : VectorDef)
  : Result (list TestVector) :=
  meta ← orPanic (h !! Metadata_ b);
  mapM (runVersion b (setGen meta genData)) (versionsOf b).

Definition generateVariants (h : gmap positive Metadata) (b : VectorDef)
  : Result (gmap positive Metadata * list TestVector) :=
  meta ← orPanic (h !! Metadata_ b);
  let h' := <[Metadata_ b := setGen meta genData]> h in
  result ← producedVariants h b;
  let uniq := dedup result in
  Ok (h', (rangeMap uniq).*2).

(** ** File names *)

(** [strings.Replace(s, old, new, 1)] for a non-empty [old]: the first
    occurrence of [old] is replaced. *)
Fixpoint replaceFirst (old new s : string) : string :=
  if String.prefix old s
  then new +:+ String.substring (String.length old) (String.length s - String.length old) s
  else match s with
       | EmptyString => EmptyString
       | String c s' => String c (replaceFirst old new s')
       end.

(** The loop over the hints of [vectorFilename]: the name is prefixed once,
    at the first hint found in the map [broken]. *)
Fixpoint prefixBroken (broken : gset string) (hints : list string) (filename : string)
  : string :=
  match hints with
  | [] => filename
  | hint :: hints' =>
      if decide (hint ∈ broken) then brokenVectorPrefix +:+ filename
      else prefixBroken broken hints' filename
  end.

(** [vectorFilename]; it panics on a nil [Metadata] and on an empty list of
    variants ([vector.Pre.Variants[0]]). *)
Definition vectorFilename (h : gmap positive Metadata) (group : string)
    (item : VectorDef) (vector : TestVector) : option string :=
  meta ← h !! Metadata_ item;
  first ← head (Variants (Pre vector));
  let filename := group +:+ "--" +:+ ID meta +:+ "--" +:+ VariantID first +:+ ".json" in
  let broken : gset string := {[ HintIncorrect ]} in
  Some (prefixBroken broken (Hints item) filename).

(** [vectorPath] *)
Definition vectorPath (h : gmap positive Metadata) (dir : Dir) (group : string)
    (item : VectorDef) (vector : TestVector) : option (Dir * string) :=
  filename ← vectorFilename h group item vector;
  Some (dir, filename).

(** The path [removePrevious] removes. *)
Definition previousPath (dir : Dir) (filename : string) : Dir * string :=
  if String.prefix brokenVectorPrefix filename
  then (dir, replaceFirst brokenVectorPrefix "" filename)
  else (dir, brokenVectorPrefix +:+ filename).

(** [os.Remove]: [inl] is the file system after the removal, [inr] the
    error "not exist" ([true]) or another error ([false]). *)
Definition os_Remove (fs : gmap (Dir * string) string) (p : Dir * string)
  : gmap (Dir * string) string + bool :=
  if fails OpRemove p then inr false
  else match fs !! p with
       | Some _ => inl (delete p fs)
       | None => inr true
       end.

(** [removePrevious]: the file system afterwards and whether an error is
    returned.  [None] is the panic of [vectorFilename]. *)
Definition removePrevious (h : gmap positive Metadata) (fs : gmap (Dir * string) string)
    (dir : Dir) (group : string) (item : VectorDef) (vector : TestVector)
  : option (gmap (Dir * string) string * bool) :=
  filename ← vectorFilename h group item vector;
  let filepath := previousPath dir filename in
  match os_Remove fs filepath with
  | inl fs' => Some (fs', false)
  | inr true => Some (fs, false)
  | inr false => Some (fs, true)
  end.

(** ** Equality of vectors *)

(** [parseVectorFile]; [None] is an error. *)
Definition parseVectorFile (fs : gmap (Dir * string) string) (p : Dir * string)
  : option TestVector :=
  if fails OpRead p then None
  else raw ← fs !! p; json_Unmarshal raw.

(** [vectorBytesNoMeta] *)
Definition vectorBytesNoMeta (fs : gmap (Dir * string) string) (p : Dir * string)
  : option string :=
  v ← parseVectorFile fs p;
  json_Marshal (setMeta v None).

(** [vectorsEqual]; [None] is an error. *)
Definition vectorsEqual (fs : gmap (Dir * string) string) (apath bpath : Dir * string)
  : option bool :=
  abytes ← vectorBytesNoMeta fs apath;
  bbytes ← vectorBytesNoMeta fs bpath;
  Some (bool_decide (abytes = bbytes)).

(** ** Persistence: the loop over the variants in [Group] *)

(** The lines the generator logs while it validates and persists.  The
    progress lines of [generateVariants] carry no decision and are left
    out. *)
Inductive LogLine :=
  | LogSkipFilter (id : string)
  | LogNoVectors (group : string)
  | LogTempDirFailed
  | LogRemoveTempFailed
  | LogOpenFailed (p : Dir * string)
  | LogEncodeFailed (p : Dir * string)
  | LogEqualityFailed
  | LogNoChanges (p : Dir * string)
  | LogWarnChanged (p : Dir * string)
  | LogOverwriting (p : Dir * string)
  | LogStatFailed (p : Dir * string)
  | LogRenameFailed
  | LogRemovePreviousFailed
  | LogWrote (p : Dir * string).

(** The [switch] on [os.Stat(existing)]: whether the loop body goes on to
    the rename ([true]) or takes [continue] ([false]), and what it logs. *)
Definition checkExisting (g : Generator) (fs : gmap (Dir * string) string)
    (tmp existing : Dir * string) : bool * list LogLine :=
  if fails OpStat existing then (false, [LogStatFailed existing])
  else match fs !! existing with
       | None => (true, [])
       | Some _ =>
           match Mode g with
           | OverwriteForce => (true, [])
           | mode =>
               match vectorsEqual fs tmp existing with
               | None => (false, [LogEqualityFailed])
               | Some true => (false, [LogNoChanges existing])
               | Some false =>
                   match mode with
                   | OverwriteNone => (false, [LogWarnChanged existing])
                   | OverwriteUpdate => (true, [LogOverwriting existing])
                   | OverwriteForce => (true, [])
                   end
               end
           end
       end.

(** [os.Rename(tmp, existing)]; [None] is an error. *)
Definition os_Rename (fs : gmap (Dir * string) string) (tmp existing : Dir * string)
  : option (gmap (Dir * string) string) :=
  if fails OpRename existing then None
  else content ← fs !! tmp; Some (<[existing := content]> (delete tmp fs)).

(** The end of the loop body: the move of the vector from the scratch
    directory, the removal of the file of the opposite broken state, and
    the line "wrote test vector". *)
Definition moveAndClean (h : gmap positive Metadata) (fs : gmap (Dir * string) string)
    (group : string) (item : VectorDef) (v : TestVector) (tmp existing : Dir * string)
  : option (gmap (Dir * string) string * list LogLine) :=
  let '(fs1, log1) :=
    match os_Rename fs tmp existing with
    | Some fs' => (fs', [])
    | None => (fs, [LogRenameFailed])
    end in
  '(fs2, err) ← removePrevious h fs1 OutDir group item v;
  Some (fs2, log1 ++ (if err : bool then [LogRemovePreviousFailed] else [])
                  ++ [LogWrote existing]).

(** One turn of the loop [for _, v := range variants] of [Group], for a
    generator with an output directory. *)
Definition persistVector (g : Generator) (h : gmap positive Metadata) (group : string)
    (item : VectorDef) (fs : gmap (Dir * string) string) (v : TestVector)
  : option (gmap (Dir * string) string * list LogLine) :=
  tmp ← vectorPath h TmpDir group item v;
  existing ← vectorPath h OutDir group item v;
  if fails OpOpen tmp then Some (fs, [LogOpenFailed tmp])
  else
    let fs0 := <[tmp := ""]> fs in
    match json_Encode v with
    | None => Some (fs0, [LogEncodeFailed tmp])
    | Some enc =>
        let fs1 := <[tmp := enc]> fs0 in
        match checkExisting g fs1 tmp existing with
        | (false, log) => Some (fs1, log)
        | (true, log) =>
            '(fs2, log') ← moveAndClean h fs1 group item v tmp existing;
            Some (fs2, log ++ log')
        end
    end.

(** The whole loop; a panic leaves the files as they are at that point. *)
Fixpoint persistVariants (g : Generator) (h : gmap positive Metadata) (group : string)
    (item : VectorDef) (fs : gmap (Dir * string) string) (log : list LogLine)
    (variants : list TestVector)
  : gmap (Dir * string) string * list LogLine * bool :=
  match variants with
  | [] => (fs, log, false)
  | v :: variants' =>
      match persistVector g h group item fs v with
      | None => (fs, log, true)
      | Some (fs', log') => persistVariants g h group item fs' (log ++ log') variants'
      end
  end.

(** ** [Group] *)

(** What a run leaves behind: the heap of metadata, the files, the log and
    the standard output. *)
Record State := {
  st_heap : gmap positive Metadata;
  st_fs : gmap (Dir * string) string;
  st_log : list LogLine;
  st_stdout : list string
}.

(** A call returns, or panics and takes the process down, or is cut short
    by the [os.Exit(1)] of a failed assertion; the files and the log written
    up to the panic or the exit remain. *)
Inductive Outcome :=
  | Returned (st : State)
  | Panicked (fs : gmap (Dir * string) string) (log : list LogLine)
  | Exited (fs : gmap (Dir * string) string) (log : list LogLine).

(** The first loop of [Group]: validation and filter.  The result is the
    log and the list [generate], or [None] for a panic. *)
Fixpoint validate (g : Generator) (h : gmap positive Metadata) (group : string)
    (vectors generate : list VectorDef) (log : list LogLine)
  : list LogLine * option (list VectorDef) :=
  match vectors with
  | [] => (log, Some generate)
  | v :: vectors' =>
      if isSet (MessageFunc v) && isSet (TipsetFunc v) then (log, None)
      else if negb (isSet (MessageFunc v)) && negb (isSet (TipsetFunc v)) then (log, None)
      else match h !! Metadata_ v with
           | None => (log, None)
           | Some meta =>
               let id := ID meta in
               match IncludeFilter g with
               | Some matchString =>
                   if negb (matchString id) && negb (matchString group)
                   then validate g h group vectors' generate (log ++ [LogSkipFilter id])
                   else validate g h group vectors' (generate ++ [v]) log
               | None => validate g h group vectors' (generate ++ [v]) log
               end
           end
  end.

(** The scratch directory is empty when [ioutil.TempDir] returns it and
    gone after [os.RemoveAll]: only the files of the output directory stay. *)
Definition dropTmp (fs : gmap (Dir * string) string) : gmap (Dir * string) string :=
  filter (λ kv, kv.1.1 = OutDir) fs.

(** The goroutine of one vector definition. *)
Definition runItem (g : Generator) (group : string) (st : State) (item : VectorDef)
  : Outcome :=
  match generateVariants (st_heap st) item with
  | Panic => Panicked (st_fs st) (st_log st)
  | Exit => Exited (st_fs st) (st_log st)
  | Ok (h', variants) =>
      if String.eqb (OutputPath g) ""
      then Returned {| st_heap := h'; st_fs := st_fs st; st_log := st_log st;
                       st_stdout := st_stdout st ++ (MustMarshalJSON <$> variants) |}
      else match persistVariants g h' group item (st_fs st) (st_log st) variants with
           | (fs, log, true) => Panicked fs log
           | (fs, log, false) =>
               Returned {| st_heap := h'; st_fs := fs; st_log := log;
                           st_stdout := st_stdout st |}
           end
  end.

(** The goroutines of the definitions of a group, one after the other. *)
Fixpoint runItems (g : Generator) (group : string) (st : State) (generate : list VectorDef)
  : Outcome :=
  match generate with
  | [] => Returned st
  | item :: generate' =>
      match runItem g group st item with
      | Returned st' => runItems g group st' generate'
      | Panicked fs log => Panicked fs log
      | Exited fs log => Exited fs log
      end
  end.

(** The deferred [os.RemoveAll(dir)] of the goroutine of the group. *)
Definition removeTmp (group : string) (fs : gmap (Dir * string) string) (log : list LogLine)
  : gmap (Dir * string) string * list LogLine :=
  if fails OpRemoveAll (TmpDir, group) then (fs, log ++ [LogRemoveTempFailed])
  else (dropTmp fs, log).

Definition addLog (st : State) (log : list LogLine) : State :=
  {| st_heap := st_heap st; st_fs := st_fs st; st_log := st_log st ++ log;
     st_stdout := st_stdout st |}.

Definition withFiles (st : State) (fs : gmap (Dir * string) string) (log : list LogLine)
  : State :=
  {| st_heap := st_heap st; st_fs := fs; st_log := log; st_stdout := st_stdout st |}.

(** [Generator.Group], run to the end of its goroutine.  The deferred
    removal of the scratch directory runs when the goroutine of the group
    returns.  A panic in the goroutine of a definition, or [os.Exit], takes
    the process down at once: the goroutine of the group is then waiting in
    [wg.Wait] and its deferred call never runs. *)
Definition Group (g : Generator) (st : State) (group : string) (vectors : list VectorDef)
  : Outcome :=
  match validate g (st_heap st) group vectors [] [] with
  | (log, None) => Panicked (st_fs st) (st_log st ++ log)
  | (log, Some generate) =>
      let st := addLog st log in
      if Nat.eqb (length generate) 0 then Returned (addLog st [LogNoVectors group])
      else if String.eqb (OutputPath g) "" then runItems g group st generate
      else if fails OpTempDir (TmpDir, group) then Returned (addLog st [LogTempDirFailed])
      else match runItems g group (withFiles st (dropTmp (st_fs st)) (st_log st)) generate with
           | Returned st' =>
               let '(fs, log') := removeTmp group (st_fs st') (st_log st') in
               Returned (withFiles st' fs log')
           | Panicked fs log' => Panicked fs log'
           | Exited fs log' => Exited fs log'
           end
  end.

End Generator.

(** * A small instance of the externals

    An instance to run the generator on concrete inputs: a one-line codec
    in place of JSON ([meta#body], the variants after a second [#] in
    [MustMarshalJSON]), the identity in place of the hash, builders that
    tag the vector with the version they are given, three protocol
    versions and a map visited in the order of its keys. *)
Module Sample.

Fixpoint splitHash (s : string) : option (string * string) :=
  match s with
  | EmptyString => None
  | String c s' =>
      if Ascii.eqb c "#"%char then Some (EmptyString, s')
      else '(a, b) ← splitHash s'; Some (String c a, b)
  end.

Definition metaID (v : TestVector) : string :=
  match Meta v with Some m => ID m | None => "" end.

Definition marshal (v : TestVector) : string := metaID v +:+ "#" +:+ Body v.

Definition unmarshal (s : string) : option TestVector :=
  '(m, body) ← splitHash s;
  Some {| Meta := if String.eqb m "" then None
                  else Some {| ID := m; Gen := []; MetaRest := "" |};
          Pre := {| Variants := []; PreRest := "" |};
          Body := body |}.

Definition variantOf (pv : ProtocolVersion) : Variant :=
  {| VariantID := PVID pv; Epoch := FirstEpoch pv; NetworkVersion := Network pv |}.

Definition build (meta : Metadata) (selector : string) (mode : N) (hints : list string)
    (pv : ProtocolVersion) : TestVector :=
  {| Meta := Some meta;
     Pre := {| Variants := [variantOf pv]; PreRest := "" |};
     Body := selector |}.

Definition versions : list ProtocolVersion :=
  [ {| PVID := "genesis"; FirstEpoch := 0; Network := 0 |};
    {| PVID := "breeze"; FirstEpoch := 41280; Network := 1 |};
    {| PVID := "smoke"; FirstEpoch := 51000; Network := 2 |} ].

#[export] Instance externals : Externals := {|
  MustMarshalJSON v :=
    marshal v +:+ "#" +:+ String.concat "," (VariantID <$> Variants (Pre v));
  json_Marshal v := Some (marshal v);
  json_Unmarshal := unmarshal;
  json_Encode v := Some (marshal v);
  Sum256 s := s;
  HintIncorrect := "incorrect";
  KnownProtocolVersions := versions;
  GenscriptCommit := "dirty";
  buildDeps := [("github.com/chenjianmei111/lotus", "v1.1.2")];
  MessageVectorBuilder := TestVector;
  TipsetVectorBuilder := TestVector;
  MessageVector := build;
  TipsetVector := build;
  FinishMessage v := Some v;
  FinishTipset v := Some v;
  rangeMap m := map_to_list m;
  rangeMap_perm m := reflexivity (map_to_list m)
|}.

(** The same instance with a serialization that, as [encoding/json] does
    for a field tagged [omitempty], does not write a field that is empty:
    the body ["[]"], an empty list, is left out like the body [""]. *)
Definition marshalOmitting (v : TestVector) : string :=
  metaID v +:+ "#" +:+ (if String.eqb (Body v) "[]" then "" else Body v).

Definition omitting : Externals := {|
  MustMarshalJSON v :=
    marshalOmitting v +:+ "#" +:+ String.concat "," (VariantID <$> Variants (Pre v));
  json_Marshal v := Some (marshalOmitting v);
  json_Unmarshal := unmarshal;
  json_Encode v := Some (marshalOmitting v);
  Sum256 s := s;
  HintIncorrect := "incorrect";
  KnownProtocolVersions := versions;
  GenscriptCommit := "dirty";
  buildDeps := [("github.com/chenjianmei111/lotus", "v1.1.2")];
  MessageVectorBuilder := TestVector;
  TipsetVectorBuilder := TestVector;
  MessageVector := build;
  TipsetVector := build;
  FinishMessage v := Some v;
  FinishTipset v := Some v;
  rangeMap m := map_to_list m;
  rangeMap_perm m := reflexivity (map_to_list m)
|}.

(** A system whose calls succeed, and one that refuses to remove files. *)
#[export] Instance calm : System := {| fails _ _ := false |}.

Definition removalFails : System :=
  {| fails op _ := match op with OpRemove => true | _ => false end |}.

(** A definition whose function leaves the builder as it is, and one that
    writes the version into the body. *)
Definition constantDef (hints : list string) : VectorDef :=
  {| Metadata_ := 1%positive; Selector := "send"; SupportedVersions := [];
     Hints := hints; Mode_ := 0%N;
     MessageFunc := Some (λ v, Some v); TipsetFunc := None |}.

Definition versionedDef : VectorDef :=
  {| Metadata_ := 1%positive; Selector := "send"; SupportedVersions := [];
     Hints := []; Mode_ := 0%N;
     MessageFunc := Some (λ v : TestVector,
       Some {| Meta := Meta v; Pre := Pre v;
               Body := match Variants (Pre v) with
                       | t :: _ => if String.eqb (VariantID t) "genesis" then "old" else "new"
                       | [] => "none"
                       end |});
     TipsetFunc := None |}.

(** A definition whose function relabels the vector, the same way for
    every version, and the vector it yields for a version. *)
Definition relabelDef : VectorDef :=
  {| Metadata_ := 1%positive; Selector := "send"; SupportedVersions := [];
     Hints := []; Mode_ := 0%N;
     MessageFunc := Some (λ v : TestVector,
       Some {| Meta := Meta v; Pre := Pre v; Body := "transfer" |});
     TipsetFunc := None |}.

Definition relabelled (meta : Metadata) (pv : ProtocolVersion) : TestVector :=
  {| Meta := Some meta;
     Pre := {| Variants := [variantOf pv]; PreRest := "" |};
     Body := "transfer" |}.

(** A definition whose assertion fails for every version but the first. *)
Definition assertingDef : VectorDef :=
  {| Metadata_ := 1%positive; Selector := "send"; SupportedVersions := [];
     Hints := []; Mode_ := 0%N;
     MessageFunc := Some (λ v : TestVector,
       match Variants (Pre v) with
       | t :: _ => if String.eqb (VariantID t) "genesis" then Some v else None
       | [] => None
       end);
     TipsetFunc := None |}.

(** A definition with both functions. *)
Definition doubleDef : VectorDef :=
  {| Metadata_ := 1%positive; Selector := "send"; SupportedVersions := [];
     Hints := []; Mode_ := 0%N;
     MessageFunc := Some (λ v, Some v); TipsetFunc := Some (λ v, Some v) |}.

Definition metadata0 : Metadata := {| ID := "ok"; Gen := []; MetaRest := "" |}.
Definition heap0 : gmap positive Metadata := {[ 1%positive := metadata0 ]}.
Definition heap1 : gmap positive Metadata :=
  {[ 1%positive := setGen metadata0 genData ]}.

(** The vector [constantDef] yields: one body, the three tags. *)
Definition merged : TestVector :=
  {| Meta := Some (setGen metadata0 genData);
     Pre := {| Variants := variantOf <$> versions; PreRest := "" |};
     Body := "send" |}.

Definition generatorWith (mode : OverwriteMode) : Generator :=
  {| OutputPath := "out"; Mode := mode; IncludeFilter := None |}.

(** Output directories: one that holds the vector of [constantDef] as
    written by an older generator, one that holds a different vector under
    the same name, and one that holds the vector under its broken name. *)
Definition committed : gmap (Dir * string) string :=
  {[ (OutDir, "grp--ok--genesis.json") := "older#send" ]}.
Definition changed : gmap (Dir * string) string :=
  {[ (OutDir, "grp--ok--genesis.json") := "older#receive" ]}.
Definition flipped : gmap (Dir * string) string :=
  {[ (OutDir, "x--grp--ok--genesis.json") := "older#send" ]}.

Definition stateOf (fs : gmap (Dir * string) string) : State :=
  {| st_heap := heap0; st_fs := fs; st_log := []; st_stdout := [] |}.

(** The parts of a result, to look at a run without writing its files
    out. *)
Definition filesAfter (r : option (gmap (Dir * string) string * list LogLine))
  : gmap (Dir * string) string :=
  match r with Some (fs, _) => fs | None => ∅ end.

Definition logAfter (r : option (gmap (Dir * string) string * list LogLine))
  : list LogLine :=
  match r with Some (_, log) => log | None => [] end.

Definition hasReturned (o : Outcome) : bool :=
  match o with Returned _ => true | _ => false end.

Definition stateAfter (o : Outcome) : State :=
  match o with Returned st => st | Panicked fs log | Exited fs log => stateOf fs end.

End Sample.

(** * Properties *)

Section Results.
Context {A B : Type} (f : A → Result B).

Lemma mapM_Ok l k : mapM f l = Ok k ↔ Forall2 (λ x y, f x = Ok y) l k.
Proof.
  revert k. induction l as [|x l IH]; intros k; simpl.
  - split; [intros [= <-]; constructor | by intros ->%Forall2_nil_inv_l].
  - split.
    + destruct (f x) as [y| |] eqn:Hx; simpl; try done.
      destruct (mapM f l) as [k'| |] eqn:Hl; simpl; try done.
      intros [= <-]. constructor; [done | by apply IH].
    + intros (y & k' & Hy & Hk & ->)%Forall2_cons_inv_l.
      rewrite Hy. simpl. apply IH in Hk. by rewrite Hk.
Qed.

Lemma length_mapM_Ok l k : mapM f l = Ok k → length l = length k.
Proof. intros Hk%mapM_Ok. by eapply Forall2_length. Qed.

Lemma mapM_no_Panic l : Forall (λ x, f x ≠ Panic) l → mapM f l ≠ Panic.
Proof.
  induction 1 as [|x l Hx _ IH]; simpl; [done|].
  destruct (f x) as [y| |]; simpl; try done.
  by destruct (mapM f l).
Qed.

Lemma mapM_Exit l :
  mapM f l = Exit ↔
  ∃ l1 x l2, l = l1 ++ x :: l2 ∧ f x = Exit ∧ Forall (λ y, ∃ z, f y = Ok z) l1.
Proof.
  induction l as [|x l IH]; simpl.
  - split; [done|]. intros (l1 & ? & ? & E & _). by destruct l1.
  - destruct (f x) as [y| |] eqn:Hx; simpl.
    + destruct (mapM f l) as [k| |] eqn:Hl; simpl.
      * split; [done|]. intros (l1 & x' & l2 & E & Hx' & Hl1).
        destruct l1 as [|a l1]; simplify_eq/=; [congruence|].
        apply Forall_cons in Hl1 as [_ Hl1].
        assert (@Ok (list B) k = Exit); [|done]. apply IH. by exists l1, x', l2.
      * split; [done|]. intros (l1 & x' & l2 & E & Hx' & Hl1).
        destruct l1 as [|a l1]; simplify_eq/=; [congruence|].
        apply Forall_cons in Hl1 as [_ Hl1].
        assert (@Panic (list B) = Exit); [|done]. apply IH. by exists l1, x', l2.
      * split; [|done]. intros _.
        destruct (proj1 IH eq_refl) as (l1 & x' & l2 & -> & Hx' & Hl1).
        exists (x :: l1), x', l2. split_and!; [done|done|]. constructor; eauto.
    + split; [done|]. intros (l1 & x' & l2 & E & Hx' & Hl1).
      destruct l1 as [|a l1]; simplify_eq/=; [congruence|].
      apply Forall_cons in Hl1 as [[z Hz] _]. congruence.
    + split; [|done]. intros _. exists [], x, l. split_and!; [done|done|constructor].
Qed.

End Results.

Section Dedup.
Context `{Ext : Externals}.

(** The vectors of [l] filed under the hash [k], in the order of [l]. *)
Definition hashClass (k : string) (l : list TestVector) : list TestVector :=
  filter (λ v, contentHash v = k) l.

(** What [uniq] holds under [k] once the vectors of [l] have been visited:
    the first vector of the class, carrying the variants of the whole
    class. *)
Definition representative (k : string) (l : list TestVector) : option TestVector :=
  match hashClass k l with
  | [] => None
  | v :: _ => Some (setVariants v (concat ((λ u, Variants (Pre u)) <$> hashClass k l)))
  end.

Lemma setVariants_twice v vs vs' : setVariants (setVariants v vs) vs' = setVariants v vs'.
Proof. reflexivity. Qed.

Lemma setVariants_same v : setVariants v (Variants (Pre v)) = v.
Proof. by destruct v as [m [vs r] b]. Qed.

Lemma Variants_setVariants v vs : Variants (Pre (setVariants v vs)) = vs.
Proof. reflexivity. Qed.

Lemma bodyBytes_setVariants v vs : bodyBytes (setVariants v vs) = bodyBytes v.
Proof. reflexivity. Qed.

Lemma contentHash_setVariants v vs : contentHash (setVariants v vs) = contentHash v.
Proof. reflexivity. Qed.

Lemma hashClass_snoc k l v :
  hashClass k (l ++ [v]) = hashClass k l ++ (if decide (contentHash v = k) then [v] else []).
Proof.
  unfold hashClass. by rewrite filter_app.
Qed.

Lemma dedupStep_representative uniq l v :
  (∀ k, uniq !! k = representative k l) →
  ∀ k, dedupStep uniq v !! k = representative k (l ++ [v]).
Proof.
  intros Hinv k. unfold dedupStep. fold (bodyBytes v). fold (contentHash v).
  unfold representative at 1. rewrite hashClass_snoc.
  destruct (decide (contentHash v = k)) as [<-|Hne].
  - rewrite Hinv. unfold representative.
    destruct (hashClass (contentHash v) l) as [|v1 rest] eqn:Hc; simpl.
    + rewrite lookup_insert_eq. by rewrite app_nil_r.
    + rewrite lookup_insert_eq. f_equal.
      rewrite setVariants_twice. f_equal. simpl.
      rewrite fmap_app, concat_app. simpl. by rewrite app_nil_r, <- app_assoc.
  - rewrite app_nil_r.
    assert (Hk : ∀ w, <[contentHash v := w]> uniq !! k = representative k l).
    { intros w. by rewrite lookup_insert_ne. }
    destruct (uniq !! contentHash v); apply Hk.
Qed.

Lemma foldl_dedupStep_representative l pre uniq :
  (∀ k, uniq !! k = representative k pre) →
  ∀ k, foldl dedupStep uniq l !! k = representative k (pre ++ l).
Proof.
  revert pre uniq. induction l as [|v l IH]; intros pre uniq Hinv k; simpl.
  - by rewrite app_nil_r.
  - rewrite (IH (pre ++ [v])); [by rewrite <- app_assoc|].
    by apply dedupStep_representative.
Qed.

(** The map [uniq] after the loop, entry by entry. *)
Lemma dedup_lookup result k : dedup result !! k = representative k result.
Proof. by apply (foldl_dedupStep_representative result []). Qed.

Lemma representative_Some k l w :
  representative k l = Some w →
  ∃ v rest, hashClass k l = v :: rest ∧ v ∈ l ∧ contentHash v = k ∧
            w = setVariants v (concat ((λ u, Variants (Pre u)) <$> (v :: rest))).
Proof.
  unfold representative. destruct (hashClass k l) as [|v rest] eqn:Hc; [done|].
  intros [= <-]. exists v, rest. split; [done|].
  assert (Hin : v ∈ hashClass k l) by (rewrite Hc; left).
  unfold hashClass in Hin. apply list_elem_of_filter in Hin as [? ?]. done.
Qed.

Lemma representative_hash k l w : representative k l = Some w → contentHash w = k.
Proof.
  intros (v & rest & _ & _ & Hk & ->)%representative_Some.
  by rewrite contentHash_setVariants.
Qed.

Lemma representative_of_member l v :
  v ∈ l → is_Some (representative (contentHash v) l).
Proof.
  intros Hin. unfold representative.
  assert (Hc : v ∈ hashClass (contentHash v) l).
  { unfold hashClass. apply list_elem_of_filter. done. }
  destruct (hashClass (contentHash v) l); [by apply elem_of_nil in Hc | eauto].
Qed.

(** The vectors [generateVariants] returns are the values of [uniq]. *)
Lemma elem_of_ranged result w :
  w ∈ (rangeMap (dedup result)).*2 ↔ ∃ k, representative k result = Some w.
Proof.
  rewrite (rangeMap_perm (dedup result)).
  rewrite list_elem_of_fmap. split.
  - intros [[k w'] [-> Hin]]. exists k.
    apply elem_of_map_to_list in Hin. by rewrite <- dedup_lookup.
  - intros [k Hk]. exists (k, w). split; [done|].
    apply elem_of_map_to_list. by rewrite dedup_lookup.
Qed.

(** No two returned vectors have the same serialization without variants. *)
Lemma ranged_NoDup_bodyBytes result :
  NoDup (bodyBytes <$> (rangeMap (dedup result)).*2).
Proof.
  rewrite (rangeMap_perm (dedup result)).
  rewrite <- list_fmap_compose.
  apply NoDup_fmap_2_strong; [|apply NoDup_map_to_list].
  intros [k1 w1] [k2 w2] H1 H2 Hb. simpl in Hb.
  apply elem_of_map_to_list in H1, H2.
  rewrite dedup_lookup in H1, H2.
  pose proof (representative_hash _ _ _ H1) as E1.
  pose proof (representative_hash _ _ _ H2) as E2.
  unfold contentHash in E1, E2. rewrite Hb in E1.
  assert (k1 = k2) by congruence. subst k2.
  congruence.
Qed.

Lemma filter_none {A} (P : A → Prop) `{∀ x, Decision (P x)} (l : list A) :
  (∀ y, y ∈ l → ¬ P y) → filter P l = [].
Proof.
  induction l as [|a l IH]; intros Hl; [done|].
  rewrite filter_cons, decide_False by (apply Hl; left).
  apply IH. intros y Hy. apply Hl. by right.
Qed.

Lemma filter_singleton_NoDup_fmap {A B} `{EqDecision B} (f : A → B) (l : list A) x :
  NoDup (f <$> l) → x ∈ l → filter (λ y, f y = f x) l = [x].
Proof.
  induction l as [|a l IH]; intros Hnd Hin; [by apply elem_of_nil in Hin|].
  rewrite fmap_cons in Hnd. apply NoDup_cons in Hnd as [Hna Hnd].
  rewrite filter_cons. apply elem_of_cons in Hin as [->|Hin].
  - rewrite decide_True by done. f_equal.
    apply filter_none. intros y Hy Hfy.
    apply Hna. rewrite <- Hfy. apply list_elem_of_fmap. eauto.
  - rewrite decide_False; [by apply IH|].
    intros Hfa. apply Hna. rewrite Hfa. apply list_elem_of_fmap. eauto.
Qed.

End Dedup.

Section Variants.
Context `{Ext : Externals}.

(** The hash tells apart the serializations of the vectors of [l]. *)
Definition collisionFree (l : list TestVector) : Prop :=
  ∀ v1 v2, v1 ∈ l → v2 ∈ l →
    contentHash v1 = contentHash v2 → bodyBytes v1 = bodyBytes v2.

(** The vectors of [l] that serialize, without variants, to the bytes of
    [v], in the order of [l]. *)
Definition byteClass (v : TestVector) (l : list TestVector) : list TestVector :=
  filter (λ u, bodyBytes u = bodyBytes v) l.

Definition variantsOfAll (l : list TestVector) : list Variant :=
  concat ((λ u, Variants (Pre u)) <$> l).

Lemma elem_of_concat {A} (ls : list (list A)) (x : A) :
  x ∈ concat ls ↔ ∃ l, x ∈ l ∧ l ∈ ls.
Proof.
  rewrite list_elem_of_In, in_concat. split.
  - intros (l & Hl & Hx). exists l. by rewrite !list_elem_of_In.
  - intros (l & Hx & Hl). exists l. by rewrite <- !list_elem_of_In.
Qed.

Lemma filter_agree {A} (P Q : A → Prop) `{∀ x, Decision (P x)} `{∀ x, Decision (Q x)}
    (l : list A) :
  (∀ x, x ∈ l → P x ↔ Q x) → filter P l = filter Q l.
Proof.
  induction l as [|a l IH]; intros Hl; [done|].
  rewrite !filter_cons.
  assert (Ha : P a ↔ Q a) by (apply Hl; left).
  rewrite IH by (intros x Hx; apply Hl; by right).
  destruct (decide (P a)), (decide (Q a)); tauto.
Qed.

Lemma hashClass_byteClass l v :
  collisionFree l → v ∈ l → hashClass (contentHash v) l = byteClass v l.
Proof.
  intros Hcf Hv. apply filter_agree. intros u Hu. split.
  - by apply Hcf.
  - unfold contentHash. by intros ->.
Qed.

Lemma generateVariants_Ok h b h' ret result :
  generateVariants h b = Ok (h', ret) →
  producedVariants h b = Ok result →
  ret = (rangeMap (dedup result)).*2 ∧
  ∃ meta, h !! Metadata_ b = Some meta ∧ h' = <[Metadata_ b := setGen meta genData]> h.
Proof.
  unfold generateVariants. intros Hg Hp. rewrite Hp in Hg.
  destruct (h !! Metadata_ b) as [meta|] eqn:Hm; simpl in Hg; [|done].
  injection Hg as <- <-. eauto.
Qed.

Lemma generateVariants_produced h b h' ret :
  generateVariants h b = Ok (h', ret) → ∃ result, producedVariants h b = Ok result.
Proof.
  unfold generateVariants.
  destruct (h !! Metadata_ b); simpl; [|done].
  destruct (producedVariants h b); simpl; [eauto|done..].
Qed.

(** The returned vector that stands for [v]: the first vector of the class
    of [v], with the variants of the class. *)
Lemma ranged_representative result v :
  collisionFree result → v ∈ result →
  ∃ v1 rest, byteClass v result = v1 :: rest ∧
    let w := setVariants v1 (variantsOfAll (byteClass v result)) in
    filter (λ w', bodyBytes w' = bodyBytes v) (rangeMap (dedup result)).*2 = [w].
Proof.
  intros Hcf Hv.
  destruct (representative_of_member result v Hv) as [w Hw].
  pose proof Hw as (v1 & rest & Hc & Hv1 & Hk & ->)%representative_Some.
  rewrite hashClass_byteClass in Hc by done.
  exists v1, rest. split; [done|]. simpl.
  unfold variantsOfAll. rewrite Hc.
  assert (Hb : bodyBytes v = bodyBytes v1) by (symmetry; by apply Hcf).
  rewrite Hb.
  rewrite <- (bodyBytes_setVariants v1 (concat ((λ u, Variants (Pre u)) <$> v1 :: rest))).
  apply filter_singleton_NoDup_fmap; [apply ranged_NoDup_bodyBytes|].
  apply elem_of_ranged. eauto.
Qed.

Lemma ranged_bodies result :
  collisionFree result →
  bodyBytes <$> (rangeMap (dedup result)).*2 ≡ₚ remove_dups (bodyBytes <$> result).
Proof.
  intros Hcf.
  apply NoDup_Permutation; [apply ranged_NoDup_bodyBytes | apply NoDup_remove_dups |].
  intros x. rewrite elem_of_remove_dups, !list_elem_of_fmap. split.
  - intros (w & -> & (k & Hk)%elem_of_ranged).
    apply representative_Some in Hk as (v & rest & _ & Hv & _ & ->).
    exists v. by rewrite bodyBytes_setVariants.
  - intros (v & -> & Hv).
    destruct (representative_of_member result v Hv) as [w Hw].
    exists w. split; [|apply elem_of_ranged; eauto].
    apply representative_Some in Hw as (v1 & rest & _ & Hv1 & Hk & ->).
    rewrite bodyBytes_setVariants. symmetry. by apply Hcf.
Qed.

(** C1.  Whatever order the map is visited in, the vectors returned by
    [generateVariants] merge the produced vectors that serialize to the same
    bytes once their variants are cleared, provided the hash tells the
    serializations at hand apart: for every produced vector [v] exactly one
    returned vector has the serialization of [v]; it is the first produced
    vector of that serialization and carries the variants of all of them,
    in the order they were produced; and the returned vectors are as many
    as the distinct serializations, so that vectors of distinct bytes stay
    apart. *)
Theorem generateVariants_merges_equal_bodies h b h' ret result :
  generateVariants h b = Ok (h', ret) →
  producedVariants h b = Ok result →
  collisionFree result →
  (∀ v, v ∈ result →
     ∃ v1 rest w,
       byteClass v result = v1 :: rest ∧
       w = setVariants v1 (variantsOfAll (byteClass v result)) ∧
       filter (λ w', bodyBytes w' = bodyBytes v) ret = [w] ∧
       ∀ t, t ∈ Variants (Pre w) ↔ ∃ u, u ∈ result ∧ bodyBytes u = bodyBytes v ∧
                                        t ∈ Variants (Pre u)) ∧
  bodyBytes <$> ret ≡ₚ remove_dups (bodyBytes <$> result) ∧
  (∀ v1 v2 w1 w2, v1 ∈ result → v2 ∈ result → bodyBytes v1 ≠ bodyBytes v2 →
     filter (λ w', bodyBytes w' = bodyBytes v1) ret = [w1] →
     filter (λ w', bodyBytes w' = bodyBytes v2) ret = [w2] → w1 ≠ w2).
Proof.
  intros Hg Hp Hcf.
  destruct (generateVariants_Ok _ _ _ _ _ Hg Hp) as [-> _].
  split; [|split].
  - intros v Hv.
    destruct (ranged_representative result v Hcf Hv) as (v1 & rest & Hc & Hf).
    exists v1, rest, (setVariants v1 (variantsOfAll (byteClass v result))).
    repeat split; try done.
    + rewrite Variants_setVariants. unfold variantsOfAll.
      intros (vs & Ht & (u & -> & Hu)%list_elem_of_fmap)%elem_of_concat.
      apply list_elem_of_filter in Hu as [? ?]. eauto.
    + intros (u & Hu & Hb & Ht). rewrite Variants_setVariants. unfold variantsOfAll.
      apply elem_of_concat. exists (Variants (Pre u)). split; [done|].
      apply list_elem_of_fmap. exists u. split; [done|].
      apply list_elem_of_filter. done.
  - by apply ranged_bodies.
  - intros v1 v2 w1 w2 _ _ Hne H1 H2 ->.
    assert (Hin1 : w2 ∈ [w2]) by left.
    pose proof Hin1 as Hin2.
    rewrite <- H1 in Hin1. rewrite <- H2 in Hin2.
    apply list_elem_of_filter in Hin1 as [? _], Hin2 as [? _]. congruence.
Qed.

(** C10.  If every produced vector carries a variant, so does every vector
    [generateVariants] returns, and [vectorFilename] finds its
    [Variants[0]]: it does not panic. *)
Theorem generateVariants_variants_nonempty h b h' ret result group :
  generateVariants h b = Ok (h', ret) →
  producedVariants h b = Ok result →
  (∀ v, v ∈ result → Variants (Pre v) ≠ []) →
  ∀ w, w ∈ ret →
    Variants (Pre w) ≠ [] ∧ is_Some (head (Variants (Pre w))) ∧
    is_Some (vectorFilename h' group b w).
Proof.
  intros Hg Hp Hne w Hw.
  destruct (generateVariants_Ok _ _ _ _ _ Hg Hp) as [-> (meta & Hm & ->)].
  apply elem_of_ranged in Hw as [k Hk].
  apply representative_Some in Hk as (v & rest & _ & Hv & _ & ->).
  unfold vectorFilename. rewrite lookup_insert_eq, Variants_setVariants.
  rewrite fmap_cons. simpl.
  specialize (Hne v Hv).
  destruct (Variants (Pre v)) as [|t ts]; [done|]. simpl. eauto.
Qed.

Lemma filter_all {A} (P : A → Prop) `{∀ x, Decision (P x)} (l : list A) :
  (∀ y, y ∈ l → P y) → filter P l = l.
Proof.
  induction l as [|a l IH]; intros Hl; [done|].
  rewrite filter_cons, decide_True by (apply Hl; left).
  f_equal. apply IH. intros y Hy. apply Hl. by right.
Qed.

Lemma runVersion_no_Panic b meta pv :
  isSet (MessageFunc b) || isSet (TipsetFunc b) = true → runVersion b meta pv ≠ Panic.
Proof.
  unfold runVersion. destruct (MessageFunc b) as [f|], (TipsetFunc b) as [f'|]; simpl; try done;
    intros _; by destruct (_ ≫= _).
Qed.

Lemma versionsOf_default b : SupportedVersions b = [] → versionsOf b = KnownProtocolVersions.
Proof. unfold versionsOf. by intros ->. Qed.

(** What the loop of [generateVariants] does for one version, as a
    relation: the function of the definition is called on a fresh builder
    for that version and returns, and [Finish] gives [v]. *)
Definition generatedBy (b : VectorDef) (meta : Metadata) (pv : ProtocolVersion)
    (v : TestVector) : Prop :=
  match MessageFunc b, TipsetFunc b with
  | Some f, _ =>
      ∃ bld, f (MessageVector meta (Selector b) (Mode_ b) (Hints b) pv) = Some bld ∧
             FinishMessage bld = Some v
  | None, Some f =>
      ∃ bld, f (TipsetVector meta (Selector b) (Mode_ b) (Hints b) pv) = Some bld ∧
             FinishTipset bld = Some v
  | None, None => False
  end.

Lemma runVersion_Ok b meta pv v : runVersion b meta pv = Ok v ↔ generatedBy b meta pv v.
Proof.
  unfold runVersion, generatedBy.
  destruct (MessageFunc b) as [f|], (TipsetFunc b) as [f'|]; try (by split);
    match goal with
    | |- context [?g ?x ≫= ?fin] =>
        destruct (g x) as [bld|] eqn:Hf; simpl;
          [destruct (fin bld) as [v'|] eqn:Hfin; simpl|]
    end;
    (split; [intros [= <-]; eauto | intros (bld' & ? & ?); simplify_eq; done]).
Qed.

(** C7.  A definition without supported versions is run once against every
    known protocol version, in their order: the function of the definition
    is called on a builder for each of them, and the vectors finished are
    the list [result] of [generateVariants].  If those vectors serialize to
    the same bytes, variants apart, and each carries the tag of the version
    it was built for, [generateVariants] returns exactly one vector, which
    carries a tag for every known protocol version. *)
Theorem generateVariants_all_known_versions h b meta result :
  SupportedVersions b = [] →
  h !! Metadata_ b = Some meta →
  KnownProtocolVersions ≠ [] →
  Forall2 (generatedBy b (setGen meta genData)) KnownProtocolVersions result →
  (∀ v1 v2, v1 ∈ result → v2 ∈ result → bodyBytes v1 = bodyBytes v2) →
  Forall2 (λ pv v, ∃ t, t ∈ Variants (Pre v) ∧ VariantID t = PVID pv)
          KnownProtocolVersions result →
  ∃ h' w,
    producedVariants h b = Ok result ∧
    generateVariants h b = Ok (h', [w]) ∧
    ∀ pv, pv ∈ KnownProtocolVersions →
      ∃ t, t ∈ Variants (Pre w) ∧ VariantID t = PVID pv.
Proof.
  intros Hsv Hm Hknown Hall Hbodies Htag.
  assert (Hp : producedVariants h b = Ok result).
  { unfold producedVariants. rewrite Hm. simpl. rewrite versionsOf_default by done.
    apply mapM_Ok. eapply Forall2_impl; [exact Hall|]. intros pv v. by apply runVersion_Ok. }
  assert (Hcf : collisionFree result) by (intros v1 v2 ? ? _; by apply Hbodies).
  destruct result as [|v0 result'] eqn:Hresult.
  { apply Forall2_nil_inv_r in Hall. done. }
  rewrite <- Hresult in *.
  assert (Hv0 : v0 ∈ result) by (rewrite Hresult; left).
  destruct (ranged_representative result v0 Hcf Hv0) as (v1 & rest & Hc & Hf).
  simpl in Hf.
  rewrite filter_all in Hf.
  2:{ intros w (k & Hk)%elem_of_ranged.
      apply representative_Some in Hk as (v & ? & _ & Hv & _ & ->).
      rewrite bodyBytes_setVariants. by apply Hbodies. }
  exists (<[Metadata_ b := setGen meta genData]> h),
    (setVariants v1 (variantsOfAll (byteClass v0 result))).
  split; [done|]. split.
  - unfold generateVariants. rewrite Hm, Hp. simpl. by rewrite Hf.
  - intros pv Hpv. apply list_elem_of_lookup in Hpv as [i Hi].
    destruct (Forall2_lookup_l _ _ _ _ _ Htag Hi) as (v & Hv & t & Ht & Hid).
    exists t. split; [|done].
    rewrite Variants_setVariants. unfold variantsOfAll.
    apply elem_of_concat. exists (Variants (Pre v)). split; [done|].
    apply list_elem_of_fmap. exists v. split; [done|].
    apply list_elem_of_filter. split; [|eauto using list_elem_of_lookup_2].
    apply Hbodies; eauto using list_elem_of_lookup_2.
Qed.

End Variants.

Section Naming.
Context `{Ext : Externals}.

(** The loop with [break] prefixes the name when, and only when, one of the
    hints is in the map. *)
Lemma prefixBroken_spec (broken : gset string) hints filename :
  prefixBroken broken hints filename =
  if bool_decide (Exists (λ hint, hint ∈ broken) hints)
  then brokenVectorPrefix +:+ filename else filename.
Proof.
  induction hints as [|hint hints IH].
  - rewrite bool_decide_eq_false_2; [done|]. by intros ?%Exists_nil.
  - cbn [prefixBroken]. destruct (decide (hint ∈ broken)) as [Hin|Hout].
    + rewrite bool_decide_eq_true_2; [done|]. by left.
    + rewrite IH. apply (f_equal (λ c : bool, if c then _ else _)).
      apply bool_decide_ext. rewrite Exists_cons. tauto.
Qed.

Lemma Exists_singleton_hint (hints : list string) (x : string) :
  Exists (λ hint, hint ∈ ({[ x ]} : gset string)) hints ↔ x ∈ hints.
Proof.
  rewrite Exists_exists. split.
  - intros (hint & Hin & ->%elem_of_singleton). done.
  - intros Hin. exists x. split; [done|]. by apply elem_of_singleton.
Qed.

Lemma vectorFilename_prefixBroken h group item vector meta first rest :
  h !! Metadata_ item = Some meta →
  Variants (Pre vector) = first :: rest →
  vectorFilename h group item vector =
    Some (prefixBroken {[ HintIncorrect ]} (Hints item)
            (group +:+ "--" +:+ ID meta +:+ "--" +:+ VariantID first +:+ ".json")).
Proof. intros Hm Hv. unfold vectorFilename. by rewrite Hm, Hv. Qed.

(** C6.  The file name of a vector is [<group>--<caseID>--<tag>.json], where
    the tag is the first of the variant list of the vector, and the name is
    prefixed with the broken marker exactly when the hints of the definition
    contain [schema.HintIncorrect]. *)
Theorem vectorFilename_convention h group item vector meta first rest :
  h !! Metadata_ item = Some meta →
  Variants (Pre vector) = first :: rest →
  vectorFilename h group item vector =
    Some ((if bool_decide (HintIncorrect ∈ Hints item) then brokenVectorPrefix else "")
          +:+ (group +:+ "--" +:+ ID meta +:+ "--" +:+ VariantID first +:+ ".json")).
Proof.
  intros Hm Hv. rewrite (vectorFilename_prefixBroken _ _ _ _ _ _ _ Hm Hv). f_equal.
  rewrite prefixBroken_spec.
  rewrite (bool_decide_ext _ (HintIncorrect ∈ Hints item)) by apply Exists_singleton_hint.
  by destruct (bool_decide _).
Qed.

End Naming.

Section Equality.
Context `{Ext : Externals} `{Sys : System}.

(** The serialization of the content of a file once [_meta] is cleared;
    [None] when the content does not parse or does not serialize. *)
Definition strippedBytes (raw : string) : option string :=
  v ← json_Unmarshal raw; json_Marshal (setMeta v None).

Lemma vectorBytesNoMeta_read fs p :
  vectorBytesNoMeta fs p =
  if fails OpRead p then None else fs !! p ≫= strippedBytes.
Proof.
  unfold vectorBytesNoMeta, parseVectorFile, strippedBytes.
  destruct (fails OpRead p); [done|]. by destruct (fs !! p).
Qed.

Lemma vectorsEqual_true fs apath bpath :
  vectorsEqual fs apath bpath = Some true ↔
  ∃ bytes, vectorBytesNoMeta fs apath = Some bytes ∧ vectorBytesNoMeta fs bpath = Some bytes.
Proof.
  unfold vectorsEqual.
  destruct (vectorBytesNoMeta fs apath) as [a|], (vectorBytesNoMeta fs bpath) as [b|];
    simpl; try (split; [done | by intros (? & ? & ?)]).
  split.
  - intros [= ->%bool_decide_eq_true]. eauto.
  - intros (? & [= ->] & [= ->]). by rewrite bool_decide_eq_true_2.
Qed.

Lemma vectorsEqual_false fs apath bpath :
  vectorsEqual fs apath bpath = Some false ↔
  ∃ abytes bbytes, vectorBytesNoMeta fs apath = Some abytes ∧
                   vectorBytesNoMeta fs bpath = Some bbytes ∧ abytes ≠ bbytes.
Proof.
  unfold vectorsEqual.
  destruct (vectorBytesNoMeta fs apath) as [a|], (vectorBytesNoMeta fs bpath) as [b|];
    simpl; try (split; [done | by intros (? & ? & ? & ? & ?)]).
  split.
  - intros [= Hne%bool_decide_eq_false]. eauto.
  - intros (? & ? & [= <-] & [= <-] & Hne). by rewrite bool_decide_eq_false_2.
Qed.

(** C4, as the code has it.  For two files that parse into [va] and [vb],
    [vectorsEqual] answers true exactly when the serializations of the two
    vectors with [Meta] cleared are the same bytes, and false exactly when
    both serializations exist and differ; so two vectors that differ in
    [Meta] only compare equal.  Whether two vectors that differ elsewhere
    compare unequal is up to [json.Marshal]: they do when it writes them
    differently. *)
Theorem vectorsEqual_ignores_meta fs apath bpath va vb :
  parseVectorFile fs apath = Some va →
  parseVectorFile fs bpath = Some vb →
  (vectorsEqual fs apath bpath = Some true ↔
   ∃ bytes, json_Marshal (setMeta va None) = Some bytes ∧
            json_Marshal (setMeta vb None) = Some bytes) ∧
  (vectorsEqual fs apath bpath = Some false ↔
   ∃ abytes bbytes, json_Marshal (setMeta va None) = Some abytes ∧
                    json_Marshal (setMeta vb None) = Some bbytes ∧ abytes ≠ bbytes) ∧
  (Pre va = Pre vb → Body va = Body vb →
   is_Some (json_Marshal (setMeta va None)) →
   vectorsEqual fs apath bpath = Some true).
Proof.
  intros Ha Hb.
  assert (Hna : vectorBytesNoMeta fs apath = json_Marshal (setMeta va None))
    by (unfold vectorBytesNoMeta; by rewrite Ha).
  assert (Hnb : vectorBytesNoMeta fs bpath = json_Marshal (setMeta vb None))
    by (unfold vectorBytesNoMeta; by rewrite Hb).
  rewrite vectorsEqual_true, vectorsEqual_false, Hna, Hnb.
  split_and!; [done|done|].
  intros Hpre Hbody [bytes Hbytes]. exists bytes. split; [done|].
  rewrite <- Hbytes. f_equal. unfold setMeta. by rewrite Hpre, Hbody.
Qed.

End Equality.

Section Turn.
Context `{Ext : Externals} `{Sys : System}.

(** The two file systems hold the same files in the output directory. *)
Definition outAgree (fs fs' : gmap (Dir * string) string) : Prop :=
  ∀ name, fs' !! (OutDir, name) = fs !! (OutDir, name).

Lemma outAgree_refl fs : outAgree fs fs.
Proof. by intros name. Qed.

Lemma outAgree_trans fs1 fs2 fs3 : outAgree fs1 fs2 → outAgree fs2 fs3 → outAgree fs1 fs3.
Proof. intros H12 H23 name. by rewrite H23, H12. Qed.

Lemma outAgree_insert_tmp fs name content : outAgree fs (<[(TmpDir, name) := content]> fs).
Proof. intros name'. by rewrite lookup_insert_ne. Qed.

Lemma outAgree_dropTmp fs : outAgree fs (dropTmp fs).
Proof.
  intros name. unfold dropTmp. apply option_eq. intros content.
  rewrite map_lookup_filter_Some. simpl. tauto.
Qed.

(** What [vectorsEqual] sees of the scratch file and the committed file
    right after the scratch file has been written. *)
Lemma vectorsEqual_after_write fs filename enc old :
  fs !! (OutDir, filename) = Some old →
  vectorsEqual (<[(TmpDir, filename) := enc]> (<[(TmpDir, filename) := ""]> fs))
               (TmpDir, filename) (OutDir, filename) =
  if fails OpRead (TmpDir, filename) then None
  else a ← strippedBytes enc;
       if fails OpRead (OutDir, filename) then None
       else b ← strippedBytes old; Some (bool_decide (a = b)).
Proof.
  intros Hold. unfold vectorsEqual. rewrite !vectorBytesNoMeta_read.
  rewrite lookup_insert_eq, !lookup_insert_ne, Hold by done. simpl.
  destruct (fails OpRead (TmpDir, filename)); [done|].
  destruct (strippedBytes enc); simpl; [|done].
  by destruct (fails OpRead (OutDir, filename)).
Qed.

(** A turn of the loop that takes [continue] after the scratch file is
    written leaves the output directory alone. *)
Lemma persistVector_unfold g h group item fs v filename :
  vectorFilename h group item v = Some filename →
  persistVector g h group item fs v =
  let tmp := (TmpDir, filename) in
  let existing := (OutDir, filename) in
  if fails OpOpen tmp then Some (fs, [LogOpenFailed tmp])
  else
    match json_Encode v with
    | None => Some (<[tmp := ""]> fs, [LogEncodeFailed tmp])
    | Some enc =>
        let fs1 := <[tmp := enc]> (<[tmp := ""]> fs) in
        match checkExisting g fs1 tmp existing with
        | (false, log) => Some (fs1, log)
        | (true, log) =>
            '(fs2, log') ← moveAndClean h fs1 group item v tmp existing;
            Some (fs2, log ++ log')
        end
    end.
Proof. intros Hf. unfold persistVector, vectorPath. rewrite Hf. reflexivity. Qed.

Lemma substring_whole s : String.substring 0 (String.length s) s = s.
Proof. induction s as [|c s IH]; simpl; [done | by rewrite IH]. Qed.

Lemma prefix_marker_app s : String.prefix brokenVectorPrefix (brokenVectorPrefix +:+ s) = true.
Proof. apply String.prefix_correct. by destruct s. Qed.

Lemma prefix_marker_inv f :
  String.prefix brokenVectorPrefix f = true → ∃ s, f = brokenVectorPrefix +:+ s.
Proof.
  intros Hp%String.prefix_correct.
  destruct f as [|a [|b [|c s]]]; try discriminate.
  exists s. simpl in Hp. injection Hp as -> -> ->. done.
Qed.

Lemma replaceFirst_marker s : replaceFirst brokenVectorPrefix "" (brokenVectorPrefix +:+ s) = s.
Proof.
  pose proof (prefix_marker_app s) as Hp.
  change (brokenVectorPrefix +:+ s) with (String "x" (String "-" (String "-" s))) in *.
  cbn [replaceFirst]. rewrite Hp. simpl. rewrite Nat.sub_0_r. apply substring_whole.
Qed.

Lemma length_marker_app s :
  String.length (brokenVectorPrefix +:+ s) = S (S (S (String.length s))).
Proof. reflexivity. Qed.

(** The path [removePrevious] removes is never the path just written. *)
Lemma previousPath_ne dir filename : previousPath dir filename ≠ (dir, filename).
Proof.
  unfold previousPath.
  destruct (String.prefix brokenVectorPrefix filename) eqn:Hp.
  - apply prefix_marker_inv in Hp as [s ->]. rewrite replaceFirst_marker.
    intros [= E]. apply (f_equal String.length) in E.
    rewrite length_marker_app in E. lia.
  - intros [= E]. apply (f_equal String.length) in E.
    rewrite length_marker_app in E. lia.
Qed.

Lemma previousPath_out filename : (previousPath OutDir filename).1 = OutDir.
Proof. unfold previousPath. by destruct (String.prefix _ _). Qed.

Lemma previousPath_not_tmp filename name : previousPath OutDir filename ≠ (TmpDir, name).
Proof. intros E. pose proof (previousPath_out filename) as H. by rewrite E in H. Qed.

(** The end of a turn that reaches the move, whatever the two system calls
    do: the line "wrote" closes the log; only the scratch file, the final
    path and the path of the other state can change; the rename decides the
    final path, the removal the other one. *)
Lemma moveAndClean_result h fs group item v filename enc :
  vectorFilename h group item v = Some filename →
  fs !! (TmpDir, filename) = Some enc →
  ∃ fs' log,
    moveAndClean h fs group item v (TmpDir, filename) (OutDir, filename) = Some (fs', log) ∧
    last log = Some (LogWrote (OutDir, filename)) ∧
    (∀ p, p ≠ (TmpDir, filename) → p ≠ (OutDir, filename) →
          p ≠ previousPath OutDir filename → fs' !! p = fs !! p) ∧
    (if fails OpRename (OutDir, filename)
     then fs' !! (OutDir, filename) = fs !! (OutDir, filename) ∧
          fs' !! (TmpDir, filename) = Some enc ∧ LogRenameFailed ∈ log
     else fs' !! (OutDir, filename) = Some enc ∧
          fs' !! (TmpDir, filename) = None ∧ LogRenameFailed ∉ log) ∧
    (if fails OpRemove (previousPath OutDir filename)
     then fs' !! previousPath OutDir filename = fs !! previousPath OutDir filename ∧
          LogRemovePreviousFailed ∈ log
     else fs' !! previousPath OutDir filename = None ∧ LogRemovePreviousFailed ∉ log).
Proof.
  intros Hf Htmp.
  pose proof (previousPath_ne OutDir filename) as Hne.
  assert (Hne' : previousPath OutDir filename ≠ (TmpDir, filename)).
  { unfold previousPath. by destruct (String.prefix _ _). }
  unfold moveAndClean, os_Rename, removePrevious, os_Remove.
  rewrite Hf, Htmp. cbn [mbind option_bind].
  set (twin := previousPath OutDir filename) in *.
  destruct (fails OpRename (OutDir, filename)); cbn [mbind option_bind];
    destruct (fails OpRemove twin); cbn [mbind option_bind];
    try match goal with
        | |- context [match ?m !! twin with _ => _ end] =>
            destruct (m !! twin) eqn:Htwin; cbn [mbind option_bind] in *
        end;
    (eexists _, _; split; [reflexivity|]; split; [reflexivity|]; split;
     [intros p ? ? ?; by simplify_map_eq|]);
    cbn [app]; split; split_and?; simplify_map_eq; try done;
    try (by repeat constructor);
    try (intros Hin; repeat (apply elem_of_cons in Hin as [Hin|Hin]; [done|]);
         by apply elem_of_nil in Hin).
Qed.

(** The files once the new vector is in the scratch directory. *)
Definition scratchWritten (fs : gmap (Dir * string) string) (filename enc : string)
  : gmap (Dir * string) string :=
  <[(TmpDir, filename) := enc]> (<[(TmpDir, filename) := ""]> fs).

Lemma scratchWritten_out fs filename enc name :
  scratchWritten fs filename enc !! (OutDir, name) = fs !! (OutDir, name).
Proof. unfold scratchWritten. by rewrite !lookup_insert_ne. Qed.

Lemma scratchWritten_other fs filename enc p :
  p ≠ (TmpDir, filename) → scratchWritten fs filename enc !! p = fs !! p.
Proof. intros Hp. unfold scratchWritten. by rewrite !lookup_insert_ne. Qed.

Lemma scratchWritten_tmp fs filename enc :
  scratchWritten fs filename enc !! (TmpDir, filename) = Some enc.
Proof. apply lookup_insert_eq. Qed.

(** The conditions under which the [switch] lets a turn go on to the move. *)
Definition goesOn (g : Generator) (fs : gmap (Dir * string) string) (filename enc : string)
  : Prop :=
  fails OpStat (OutDir, filename) = false ∧
  (fs !! (OutDir, filename) = None ∨
   Mode g = OverwriteForce ∨
   (Mode g = OverwriteUpdate ∧
    vectorsEqual (scratchWritten fs filename enc) (TmpDir, filename) (OutDir, filename)
      = Some false)).

Lemma checkExisting_goesOn g fs filename enc :
  (checkExisting g (scratchWritten fs filename enc) (TmpDir, filename) (OutDir, filename)).1
    = true ↔ goesOn g fs filename enc.
Proof.
  unfold checkExisting, goesOn. rewrite scratchWritten_out.
  destruct (fails OpStat (OutDir, filename)); [by split; [|intros [? _]]|].
  destruct (fs !! (OutDir, filename)) as [old|]; [|by split; [auto|]].
  destruct (Mode g);
    destruct (vectorsEqual _ _ _) as [[]|]; simpl; split; try done; auto;
    intros [_ [?|[?|[? ?]]]]; done.
Qed.

Lemma checkExisting_skip_log g fs filename enc log p :
  checkExisting g (scratchWritten fs filename enc) (TmpDir, filename) (OutDir, filename)
    = (false, log) → LogWrote p ∉ log.
Proof.
  unfold checkExisting. intros Hc.
  repeat match type of Hc with
         | context [match ?x with _ => _ end] => destruct x
         end; simplify_eq; by intros ?%list_elem_of_singleton.
Qed.

(** The only vector the end of a turn reports as written is the one at
    hand, and the [switch] reports none. *)
Lemma moveAndClean_log h fs group item v tmp existing fs' log p :
  moveAndClean h fs group item v tmp existing = Some (fs', log) →
  LogWrote p ∈ log → p = existing.
Proof.
  unfold moveAndClean.
  destruct (os_Rename _ _ _); destruct (removePrevious _ _ _ _ _ _) as [[fs2 []]|];
    simpl; intros [= <- <-] Hin;
    repeat (apply elem_of_cons in Hin as [Hin|Hin]; [by simplify_eq|]);
    by apply elem_of_nil in Hin.
Qed.

Lemma checkExisting_log g fs tmp existing go log p :
  checkExisting g fs tmp existing = (go, log) → LogWrote p ∉ log.
Proof.
  unfold checkExisting. intros Hc.
  repeat match type of Hc with
         | context [match ?x with _ => _ end] => destruct x
         end; simplify_eq;
    first [by intros ?%elem_of_nil | by intros ?%list_elem_of_singleton].
Qed.

(** Whether the turn of the loop for the vector [v], under the name
    [filename], goes on to the move: its scratch file can be opened and
    encoded, and the [switch] does not take [continue]. *)
Definition writes (g : Generator) (fs : gmap (Dir * string) string) (filename : string)
    (v : TestVector) : bool :=
  negb (fails OpOpen (TmpDir, filename)) &&
  match json_Encode v with
  | Some enc =>
      (checkExisting g (scratchWritten fs filename enc)
                     (TmpDir, filename) (OutDir, filename)).1
  | None => false
  end.

Lemma writes_goesOn g fs filename v :
  writes g fs filename v = true ↔
  fails OpOpen (TmpDir, filename) = false ∧
  ∃ enc, json_Encode v = Some enc ∧ goesOn g fs filename enc.
Proof.
  unfold writes. destruct (fails OpOpen (TmpDir, filename)); simpl.
  { split; [done | by intros [? _]]. }
  destruct (json_Encode v) as [enc|].
  - rewrite checkExisting_goesOn. split; [eauto|]. by intros [_ (enc' & [= <-] & ?)].
  - split; [done|]. by intros [_ (? & ? & _)].
Qed.



(** Under [OverwriteNone] a turn goes on to the move only when the final
    path is free. *)
Lemma writes_none g fs filename v :
  Mode g = OverwriteNone → writes g fs filename v = true → fs !! (OutDir, filename) = None.
Proof.
  intros Hmode (_ & enc & _ & _ & [?|[?|[? _]]])%writes_goesOn; [done|congruence..].
Qed.

(** A turn that takes [continue]: only the scratch file can have changed,
    and no vector is reported as written. *)
Lemma persistVector_skips g h group item fs v filename :
  vectorFilename h group item v = Some filename →
  writes g fs filename v = false →
  ∃ fs' log,
    persistVector g h group item fs v = Some (fs', log) ∧
    (∀ p, p ≠ (TmpDir, filename) → fs' !! p = fs !! p) ∧
    ∀ p, LogWrote p ∉ log.
Proof.
  intros Hf Hw. rewrite (persistVector_unfold _ _ _ _ _ _ _ Hf). cbn zeta.
  unfold writes in Hw.
  destruct (fails OpOpen (TmpDir, filename)); simpl in Hw.
  { eexists _, _. split_and!; [done|done|]. intros p. by intros ?%list_elem_of_singleton. }
  destruct (json_Encode v) as [enc|].
  2:{ eexists _, _. split_and!; [done| |].
      - intros p ?. by rewrite lookup_insert_ne.
      - intros p. by intros ?%list_elem_of_singleton. }
  fold (scratchWritten fs filename enc).
  destruct (checkExisting _ _ _ _) as [[] log0] eqn:Hc; [done|].
  eexists _, _. split_and!; [done| |].
  - intros p ?. by apply scratchWritten_other.
  - intros p. by eapply checkExisting_skip_log.
Qed.

(** A turn that goes on to the move: it ends on the line "wrote"; apart
    from the scratch file it can change the final path, which the rename
    decides, and the path of the other state, which the removal decides. *)
Lemma persistVector_moves g h group item fs v filename :
  vectorFilename h group item v = Some filename →
  writes g fs filename v = true →
  ∃ enc fs' log,
    json_Encode v = Some enc ∧
    persistVector g h group item fs v = Some (fs', log) ∧
    (last log = Some (LogWrote (OutDir, filename)) ∧
     ∀ p, LogWrote p ∈ log → p = (OutDir, filename)) ∧
    (∀ p, p ≠ (TmpDir, filename) → p ≠ (OutDir, filename) →
          p ≠ previousPath OutDir filename → fs' !! p = fs !! p) ∧
    (if fails OpRename (OutDir, filename)
     then fs' !! (OutDir, filename) = fs !! (OutDir, filename) ∧ LogRenameFailed ∈ log
     else fs' !! (OutDir, filename) = Some enc ∧ fs' !! (TmpDir, filename) = None) ∧
    (if fails OpRemove (previousPath OutDir filename)
     then fs' !! previousPath OutDir filename = fs !! previousPath OutDir filename ∧
          LogRemovePreviousFailed ∈ log
     else fs' !! previousPath OutDir filename = None).
Proof.
  intros Hf (Hopen & enc & Henc & Hgo)%writes_goesOn.
  rewrite (persistVector_unfold _ _ _ _ _ _ _ Hf). cbn zeta.
  rewrite Hopen, Henc. fold (scratchWritten fs filename enc).
  apply checkExisting_goesOn in Hgo.
  destruct (checkExisting _ _ _ _) as [[] log0] eqn:Hc; [|done].
  destruct (moveAndClean_result h (scratchWritten fs filename enc) group item v filename enc
              Hf (scratchWritten_tmp _ _ _)) as (fs2 & log1 & Hm & Hlast & Hfr & Hmv & Hrm).
  rewrite Hm. simpl. exists enc, fs2, (log0 ++ log1). split_and!; [done|done| | | | |].
  - apply last_Some in Hlast as [l' ->]. by rewrite app_assoc, last_snoc.
  - intros p [Hin|Hin]%elem_of_app.
    + by apply (checkExisting_log _ _ _ _ _ _ _ Hc) in Hin.
    + by apply (moveAndClean_log _ _ _ _ _ _ _ _ _ _ Hm).
  - intros p ? ? ?. rewrite Hfr by done. by apply scratchWritten_other.
  - destruct (fails OpRename (OutDir, filename)).
    + destruct Hmv as (Hold & _ & Hin). split; [by rewrite Hold, scratchWritten_out|].
      apply elem_of_app. by right.
    + by destruct Hmv as (? & ? & _).
  - rewrite scratchWritten_other in Hrm by apply previousPath_not_tmp.
    destruct (fails OpRemove (previousPath OutDir filename)).
    + destruct Hrm as [? Hin]. split; [done|]. apply elem_of_app. by right.
    + by destruct Hrm as [? _].
Qed.

Lemma persistVector_named g h group item fs v :
  is_Some (persistVector g h group item fs v) ↔ is_Some (vectorFilename h group item v).
Proof.
  split.
  - intros [r Hr]. unfold persistVector, vectorPath in Hr.
    destruct (vectorFilename h group item v); [eauto|done].
  - intros [filename Hf]. destruct (writes g fs filename v) eqn:Hw.
    + destruct (persistVector_moves _ _ _ _ _ _ _ Hf Hw) as (? & ? & ? & _ & -> & _). eauto.
    + destruct (persistVector_skips _ _ _ _ _ _ _ Hf Hw) as (? & ? & -> & _). eauto.
Qed.

(** What a turn reports as written is the vector at hand, and it does so
    exactly when it went on to the move. *)
Lemma persistVector_wrote_iff g h group item fs v filename fs' log :
  vectorFilename h group item v = Some filename →
  persistVector g h group item fs v = Some (fs', log) →
  LogWrote (OutDir, filename) ∈ log ↔ writes g fs filename v = true.
Proof.
  intros Hf Hp. destruct (writes g fs filename v) eqn:Hw.
  - destruct (persistVector_moves _ _ _ _ _ _ _ Hf Hw) as (? & ? & ? & _ & Hp' & [Hlast _] & _).
    rewrite Hp in Hp'. injection Hp' as <- <-. split; [done|]. intros _.
    apply last_Some in Hlast as [l' ->]. apply elem_of_app. right. left.
  - destruct (persistVector_skips _ _ _ _ _ _ _ Hf Hw) as (? & ? & Hp' & _ & Hq).
    rewrite Hp in Hp'. injection Hp' as <- <-. split; [|done]. by intros ?%Hq.
Qed.

(** A turn leaves alone the files of the output directory that are neither
    its final path nor the path of the other state. *)
Lemma persistVector_other g h group item fs v filename fs' log name :
  vectorFilename h group item v = Some filename →
  persistVector g h group item fs v = Some (fs', log) →
  name ≠ filename → previousPath OutDir filename ≠ (OutDir, name) →
  fs' !! (OutDir, name) = fs !! (OutDir, name).
Proof.
  intros Hf Hp Hne Htwin. destruct (writes g fs filename v) eqn:Hw.
  - destruct (persistVector_moves _ _ _ _ _ _ _ Hf Hw) as (? & ? & ? & _ & Hp' & _ & Hfr & _).
    rewrite Hp in Hp'. injection Hp' as <- <-. apply Hfr; [done|congruence|done].
  - destruct (persistVector_skips _ _ _ _ _ _ _ Hf Hw) as (? & ? & Hp' & Hfr & _).
    rewrite Hp in Hp'. injection Hp' as <- <-. by apply Hfr.
Qed.








(** Under [OverwriteNone] a turn leaves a file of the output directory as
    it is, unless it is the file of the other state of a vector the turn
    reports as written. *)
Lemma persistVector_none_keeps g h group item fs v filename fs' log name old :
  Mode g = OverwriteNone →
  vectorFilename h group item v = Some filename →
  persistVector g h group item fs v = Some (fs', log) →
  fs !! (OutDir, name) = Some old →
  fs' !! (OutDir, name) = Some old ∨
  (previousPath OutDir filename = (OutDir, name) ∧ LogWrote (OutDir, filename) ∈ log).
Proof.
  intros Hmode Hf Hp Hold.
  destruct (decide (previousPath OutDir filename = (OutDir, name))) as [Htwin|Htwin].
  - destruct (writes g fs filename v) eqn:Hw.
    + right. split; [done|]. by apply (persistVector_wrote_iff _ _ _ _ _ _ _ _ _ Hf Hp).
    + left. destruct (persistVector_skips _ _ _ _ _ _ _ Hf Hw) as (? & ? & Hp' & Hfr & _).
      rewrite Hp in Hp'. injection Hp' as <- <-. by rewrite Hfr.
  - left. destruct (decide (name = filename)) as [->|Hne].
    + destruct (writes g fs filename v) eqn:Hw.
      * apply (writes_none _ _ _ _ Hmode) in Hw. congruence.
      * destruct (persistVector_skips _ _ _ _ _ _ _ Hf Hw) as (? & ? & Hp' & Hfr & _).
        rewrite Hp in Hp'. injection Hp' as <- <-. by rewrite Hfr.
    + by rewrite (persistVector_other _ _ _ _ _ _ _ _ _ _ Hf Hp Hne Htwin).
Qed.

End Turn.

Section Validation.
Context `{Ext : Externals} `{Sys : System}.

(** A definition with both functions, or with none. *)
Definition misconfigured (v : VectorDef) : Prop :=
  (isSet (MessageFunc v) = true ∧ isSet (TipsetFunc v) = true) ∨
  (isSet (MessageFunc v) = false ∧ isSet (TipsetFunc v) = false).

Lemma validate_log g h group vectors generate log :
  ∃ ids, (validate g h group vectors generate log).1 = log ++ (LogSkipFilter <$> ids).
Proof.
  revert generate log. induction vectors as [|v vectors IH]; intros generate log; simpl.
  - exists []. by rewrite app_nil_r.
  - destruct (isSet (MessageFunc v) && isSet (TipsetFunc v));
      [exists []; by rewrite app_nil_r|].
    destruct (negb (isSet (MessageFunc v)) && negb (isSet (TipsetFunc v)));
      [exists []; by rewrite app_nil_r|].
    destruct (h !! Metadata_ v) as [meta|]; [|exists []; by rewrite app_nil_r].
    destruct (IncludeFilter g) as [matchString|]; [|apply IH].
    destruct (negb (matchString (ID meta)) && negb (matchString group)); [|apply IH].
    destruct (IH generate (log ++ [LogSkipFilter (ID meta)])) as [ids Hids].
    exists (ID meta :: ids). by rewrite Hids, <- app_assoc.
Qed.


Lemma validate_misconfigured g h group vectors generate log v :
  v ∈ vectors → misconfigured v →
  (validate g h group vectors generate log).2 = None.
Proof.
  intros Hin Hbad. revert generate log.
  induction vectors as [|v' vectors IH]; intros generate log;
    [by apply elem_of_nil in Hin|].
  cbn [validate].
  destruct (isSet (MessageFunc v') && isSet (TipsetFunc v')) eqn:Hboth; [done|].
  destruct (negb (isSet (MessageFunc v')) && negb (isSet (TipsetFunc v'))) eqn:Hnone; [done|].
  apply elem_of_cons in Hin as [->|Hin].
  { exfalso. destruct Hbad as [[H1 H2]|[H1 H2]]; rewrite H1, H2 in *; done. }
  specialize (IH Hin).
  destruct (h !! Metadata_ v') as [meta|]; [|done].
  destruct (IncludeFilter g) as [matchString|]; [|by apply IH].
  destruct (negb (matchString (ID meta)) && negb (matchString group)); by apply IH.
Qed.

(** C8.  If a definition of the group has both generation functions or
    none, [Group] panics in its validation loop: the files are those it
    was called with, nothing but lines about filtered definitions has been
    logged, no goroutine has been started and no vector written. *)
Theorem Group_aborts_on_misconfigured_definition g st group vectors v :
  v ∈ vectors →
  misconfigured v →
  (validate g (st_heap st) group vectors [] []).2 = None ∧
  ∃ ids, Group g st group vectors =
         Panicked (st_fs st) (st_log st ++ (LogSkipFilter <$> ids)).
Proof.
  intros Hin Hbad.
  pose proof (validate_misconfigured g (st_heap st) group vectors [] [] v Hin Hbad) as Hv.
  split; [done|].
  destruct (validate_log g (st_heap st) group vectors [] []) as [ids Hids].
  exists ids. unfold Group.
  destruct (validate g (st_heap st) group vectors [] []) as [log o].
  simpl in Hv, Hids. by subst.
Qed.

End Validation.

Section Immutability.
Context `{Ext : Externals} `{Sys : System}.

(** The heap [h'] is [h] up to the generation data: the same locations,
    and at each of them the same metadata except that [Gen] may have been
    set to [genData]. *)
Definition stampedOnly (h h' : gmap positive Metadata) : Prop :=
  ∀ l, match h !! l, h' !! l with
       | Some m, Some m' =>
           ID m' = ID m ∧ MetaRest m' = MetaRest m ∧ (Gen m' = Gen m ∨ Gen m' = genData)
       | None, None => True
       | _, _ => False
       end.

Lemma stampedOnly_refl h : stampedOnly h h.
Proof. intros l. destruct (h !! l); auto. Qed.

Lemma stampedOnly_trans h1 h2 h3 : stampedOnly h1 h2 → stampedOnly h2 h3 → stampedOnly h1 h3.
Proof.
  intros H12 H23 l. specialize (H12 l). specialize (H23 l).
  destruct (h1 !! l), (h2 !! l), (h3 !! l); try done.
  destruct H12 as (Hid & Hrest & Hgen), H23 as (Hid' & Hrest' & Hgen').
  split_and!; [congruence|congruence|].
  destruct Hgen' as [Hgen'|Hgen']; [|by right].
  destruct Hgen as [Hgen|Hgen]; [left|right]; congruence.
Qed.

Lemma generateVariants_heap h b h' ret :
  generateVariants h b = Ok (h', ret) →
  ∃ meta, h !! Metadata_ b = Some meta ∧ h' = <[Metadata_ b := setGen meta genData]> h.
Proof.
  intros Hg. destruct (generateVariants_produced _ _ _ _ Hg) as [result Hp].
  by destruct (generateVariants_Ok _ _ _ _ _ Hg Hp) as [_ ?].
Qed.

Lemma generateVariants_stampedOnly h b h' ret :
  generateVariants h b = Ok (h', ret) → stampedOnly h h'.
Proof.
  intros (meta & Hm & ->)%generateVariants_heap l.
  destruct (decide (l = Metadata_ b)) as [->|Hne].
  - rewrite Hm, lookup_insert_eq. simpl. auto.
  - rewrite lookup_insert_ne by done. destruct (h !! l); auto.
Qed.

Lemma runItems_stampedOnly g group st generate st' :
  runItems g group st generate = Returned st' → stampedOnly (st_heap st) (st_heap st').
Proof.
  revert st. induction generate as [|item generate IH]; intros st; simpl.
  - intros [= <-]. apply stampedOnly_refl.
  - unfold runItem.
    destruct (generateVariants (st_heap st) item) as [[h' variants]| |] eqn:Hg; [|done..].
    pose proof (generateVariants_stampedOnly _ _ _ _ Hg) as Hst.
    destruct (String.eqb (OutputPath g) "").
    + intros H%IH. by eapply stampedOnly_trans.
    + destruct (persistVariants _ _ _ _ _ _ _) as [[fs log] []]; [done|].
      intros H%IH. by eapply stampedOnly_trans.
Qed.

Lemma Group_stampedOnly g st group vectors st' :
  Group g st group vectors = Returned st' → stampedOnly (st_heap st) (st_heap st').
Proof.
  intros HG. unfold Group in HG.
  destruct (validate g (st_heap st) group vectors [] []) as [log [generate|]]; [|done].
  cbn zeta in HG.
  destruct (Nat.eqb (length generate) 0).
  { injection HG as <-. apply stampedOnly_refl. }
  destruct (String.eqb (OutputPath g) "").
  { by apply runItems_stampedOnly in HG. }
  destruct (fails OpTempDir (TmpDir, group)).
  { injection HG as <-. apply stampedOnly_refl. }
  destruct (runItems _ _ _ _) as [st1| |] eqn:Hrun; [|done..].
  apply runItems_stampedOnly in Hrun.
  destruct (removeTmp _ _ _). injection HG as <-. done.
Qed.

(** C9, as the code has it.  [generateVariants] writes one field through
    the [Metadata] pointer of the definition: it sets [Gen] to the
    generation data.  Nothing else of the metadata changes, no other
    metadata is written, and a whole run of [Group] leaves every metadata
    of the heap as it was except for [Gen]. *)
Theorem generation_writes_only_Gen g st group vectors st' h b h' ret :
  generateVariants h b = Ok (h', ret) →
  Group g st group vectors = Returned st' →
  (∃ meta, h !! Metadata_ b = Some meta ∧
           h' !! Metadata_ b = Some (setGen meta genData) ∧
           ID (setGen meta genData) = ID meta ∧
           MetaRest (setGen meta genData) = MetaRest meta ∧
           ∀ l, l ≠ Metadata_ b → h' !! l = h !! l) ∧
  stampedOnly (st_heap st) (st_heap st').
Proof.
  intros Hg HG. split.
  - apply generateVariants_heap in Hg as (meta & Hm & ->).
    exists meta. split_and!; [done|apply lookup_insert_eq|done|done|].
    intros l Hl. by rewrite lookup_insert_ne.
  - by eapply Group_stampedOnly.
Qed.

(** What the generator reads through a [Metadata] pointer, its [ID] and,
    once stamped, its [Gen], is the same in a heap that differs by stamps
    only: validation, generation, names and persistence go the same way. *)
Lemma stampedOnly_stamp h h' l m m' :
  stampedOnly h h' → h !! l = Some m → h' !! l = Some m' →
  ID m' = ID m ∧ setGen m' genData = setGen m genData.
Proof.
  intros Hst Hm Hm'. specialize (Hst l). rewrite Hm, Hm' in Hst.
  destruct Hst as (Hid & Hrest & _). split; [done|].
  unfold setGen. by rewrite Hid, Hrest.
Qed.

Lemma stampedOnly_lookup h h' l :
  stampedOnly h h' →
  match h !! l with
  | Some m => ∃ m', h' !! l = Some m' ∧ ID m' = ID m ∧ setGen m' genData = setGen m genData
  | None => h' !! l = None
  end.
Proof.
  intros Hst. pose proof (Hst l) as Hl.
  destruct (h !! l) as [m|] eqn:Hm, (h' !! l) as [m'|] eqn:Hm'; try done.
  exists m'. split; [done|]. by eapply stampedOnly_stamp.
Qed.


Lemma vectorFilename_stampedOnly h h' group item v :
  stampedOnly h h' → vectorFilename h' group item v = vectorFilename h group item v.
Proof.
  intros Hst. unfold vectorFilename.
  pose proof (stampedOnly_lookup h h' (Metadata_ item) Hst) as Hl.
  destruct (h !! Metadata_ item) as [m|]; [|by rewrite Hl].
  destruct Hl as (m' & -> & Hid & _). simpl. by rewrite Hid.
Qed.

Lemma persistVector_stampedOnly g h h' group item fs v :
  stampedOnly h h' →
  persistVector g h' group item fs v = persistVector g h group item fs v.
Proof.
  intros Hst. unfold persistVector, vectorPath.
  rewrite (vectorFilename_stampedOnly h h') by done.
  destruct (vectorFilename h group item v) as [filename|]; [|done]. simpl.
  destruct (fails OpOpen (TmpDir, filename)); [done|].
  destruct (json_Encode v) as [enc|]; [|done].
  destruct (checkExisting _ _ _ _) as [[] log0]; [|done].
  unfold moveAndClean. destruct (os_Rename _ _ _); unfold removePrevious;
    by rewrite (vectorFilename_stampedOnly h h').
Qed.

Lemma generateVariants_stamped h h1 b :
  stampedOnly h h1 →
  match generateVariants h b with
  | Ok (_, ret) => ∃ h1', generateVariants h1 b = Ok (h1', ret)
  | Panic => generateVariants h1 b = Panic
  | Exit => generateVariants h1 b = Exit
  end.
Proof.
  intros Hst. unfold generateVariants, producedVariants.
  pose proof (stampedOnly_lookup h h1 (Metadata_ b) Hst) as Hl.
  destruct (h !! Metadata_ b) as [m|]; [|by rewrite Hl].
  destruct Hl as (m' & -> & _ & Hgen). simpl. rewrite Hgen.
  destruct (mapM _ _); simpl; eauto.
Qed.

End Immutability.


Section Persistence.
Context `{Ext : Externals} `{Sys : System}.


(** The new vector differs from the file at its final path. *)
Definition outOfDate (h : gmap positive Metadata) (group : string) (item : VectorDef)
    (fs : gmap (Dir * string) string) (v : TestVector) : Prop :=
  ∃ filename enc old bytes bytes',
    vectorFilename h group item v = Some filename ∧
    json_Encode v = Some enc ∧
    fs !! (OutDir, filename) = Some old ∧
    strippedBytes enc = Some bytes ∧ strippedBytes old = Some bytes' ∧ bytes ≠ bytes'.


(** Under [OverwriteNone], the turn of a vector whose final path holds a
    file of different content: the output directory stays as it is and the
    warning is the only line when the system calls succeed. *)
Lemma persistVector_none_warns g h group item fs v :
  Mode g = OverwriteNone →
  outOfDate h group item fs v →
  ∃ fs' log filename,
    vectorFilename h group item v = Some filename ∧
    persistVector g h group item fs v = Some (fs', log) ∧
    outAgree fs fs' ∧
    fs' !! (OutDir, filename) = fs !! (OutDir, filename) ∧
    (∀ p, LogWrote p ∉ log) ∧
    (fails OpOpen (TmpDir, filename) = false →
     fails OpStat (OutDir, filename) = false →
     fails OpRead (TmpDir, filename) = false →
     fails OpRead (OutDir, filename) = false →
     log = [LogWarnChanged (OutDir, filename)]).
Proof.
  intros Hmode (filename & enc & old & a & b & Hf & Henc & Hold & Ha & Hb & Hne).
  rewrite (persistVector_unfold _ _ _ _ _ _ _ Hf). cbn zeta.
  assert (Hag : outAgree fs (<[(TmpDir, filename) := enc]> (<[(TmpDir, filename) := ""]> fs)))
    by (eapply outAgree_trans; apply outAgree_insert_tmp).
  destruct (fails OpOpen (TmpDir, filename)) eqn:Hopen.
  { eexists _, _, filename.
    split_and!; [done|done|apply outAgree_refl|done| |intros; congruence].
    intros p. by rewrite list_elem_of_singleton. }
  rewrite Henc. unfold checkExisting.
  destruct (fails OpStat (OutDir, filename)) eqn:Hstat.
  { eexists _, _, filename. split_and!; [done|done|done|apply Hag| |intros; congruence].
    intros p. by rewrite list_elem_of_singleton. }
  rewrite !lookup_insert_ne, Hold by done.
  rewrite (vectorsEqual_after_write _ _ _ _ Hold), Ha, Hb, Hmode. simpl.
  destruct (fails OpRead (TmpDir, filename)) eqn:Hr1;
    [|destruct (fails OpRead (OutDir, filename)) eqn:Hr2;
      [|rewrite bool_decide_eq_false_2 by done]];
    (eexists _, _, filename; split_and!; [done|done|done| | |]);
    try (intros p; by rewrite list_elem_of_singleton); try (intros; congruence).
  all: by rewrite Hag, Hold.
Qed.

(** ** A run as a sequence of turns *)

(** Where a run ends: the files and the log it leaves. *)
Definition filesOf (o : Outcome) : gmap (Dir * string) string :=
  match o with Returned st => st_fs st | Panicked fs _ | Exited fs _ => fs end.

Definition logOf (o : Outcome) : list LogLine :=
  match o with Returned st => st_log st | Panicked _ log | Exited _ log => log end.

(** The vectors [generateVariants] returns for a definition. *)
Definition generated (h : gmap positive Metadata) (item : VectorDef) : list TestVector :=
  match generateVariants h item with Ok (_, variants) => variants | _ => [] end.

(** The turns of the persistence loops of a run over the definitions
    [generate], in the order they are taken, and their file names. *)
Definition turns (h : gmap positive Metadata) (generate : list VectorDef)
  : list (VectorDef * TestVector) :=
  item ← generate; (item,.) <$> generated h item.

Definition turnName (h : gmap positive Metadata) (group : string)
    (t : VectorDef * TestVector) : option string :=
  vectorFilename h group t.1 t.2.




(** The turns taken one after the other, as the loops of [runItems] take
    them; the last component tells a panic. *)
Fixpoint persistAll (g : Generator) (h : gmap positive Metadata) (group : string)
    (fs : gmap (Dir * string) string) (log : list LogLine)
    (ts : list (VectorDef * TestVector))
  : gmap (Dir * string) string * list LogLine * bool :=
  match ts with
  | [] => (fs, log, false)
  | t :: ts' =>
      match persistVector g h group t.1 fs t.2 with
      | None => (fs, log, true)
      | Some (fs', log') => persistAll g h group fs' (log ++ log') ts'
      end
  end.

Lemma persistVariants_persistAll g h group item fs log variants :
  persistVariants g h group item fs log variants =
  persistAll g h group fs log ((item,.) <$> variants).
Proof.
  revert fs log. induction variants as [|v variants IH]; intros fs log; simpl; [done|].
  destruct (persistVector g h group item fs v) as [[fs' log']|]; [apply IH | done].
Qed.

Lemma persistAll_app g h group fs log ts1 ts2 :
  persistAll g h group fs log (ts1 ++ ts2) =
  match persistAll g h group fs log ts1 with
  | (fs', log', true) => (fs', log', true)
  | (fs', log', false) => persistAll g h group fs' log' ts2
  end.
Proof.
  revert fs log. induction ts1 as [|t ts1 IH]; intros fs log; simpl; [done|].
  destruct (persistVector g h group t.1 fs t.2) as [[fs' log']|]; [apply IH | done].
Qed.

Lemma persistAll_stampedOnly g h h' group fs log ts :
  stampedOnly h h' → persistAll g h' group fs log ts = persistAll g h group fs log ts.
Proof.
  intros Hst. revert fs log. induction ts as [|t ts IH]; intros fs log; simpl; [done|].
  rewrite (persistVector_stampedOnly g h h') by done.
  destruct (persistVector g h group t.1 fs t.2) as [[fs' log']|]; [apply IH | done].
Qed.

Lemma persistAll_cons g h group fs log t ts fs' log' :
  persistAll g h group fs log (t :: ts) = (fs', log', false) →
  ∃ f fs1 log1,
    turnName h group t = Some f ∧
    persistVector g h group t.1 fs t.2 = Some (fs1, log1) ∧
    persistAll g h group fs1 (log ++ log1) ts = (fs', log', false).
Proof.
  simpl. destruct (persistVector g h group t.1 fs t.2) as [[fs1 log1]|] eqn:Hp; [|done].
  intros Hrest.
  destruct (proj1 (persistVector_named g h group t.1 fs t.2)) as [f Hf]; [by rewrite Hp|].
  exists f, fs1, log1. done.
Qed.

Lemma persistAll_log g h group fs log ts fs' log' p :
  persistAll g h group fs log ts = (fs', log', p) → ∃ extra, log' = log ++ extra.
Proof.
  revert fs log. induction ts as [|t ts IH]; intros fs log; simpl.
  - intros [= <- <- <-]. exists []. by rewrite app_nil_r.
  - destruct (persistVector g h group t.1 fs t.2) as [[fs1 log1]|].
    + intros (extra & ->)%IH. exists (log1 ++ extra). by rewrite app_assoc.
    + intros [= <- <- <-]. exists []. by rewrite app_nil_r.
Qed.





(** The definitions of a run that returns all generate their vectors. *)
Lemma runItems_Ok g group h0 st generate st' :
  runItems g group st generate = Returned st' →
  stampedOnly h0 (st_heap st) →
  Forall (λ item, ∃ h' ret, generateVariants h0 item = Ok (h', ret)) generate.
Proof.
  intros Hrun Hst. revert st Hst Hrun.
  induction generate as [|item generate IH]; intros st Hst; [constructor|].
  simpl. unfold runItem.
  pose proof (generateVariants_stamped h0 (st_heap st) item Hst) as H0.
  destruct (generateVariants h0 item) as [[h' ret]| |] eqn:Hg;
    [destruct H0 as [h1 Hg1]|rewrite H0; done..].
  rewrite Hg1.
  assert (Hst1 : stampedOnly h0 h1).
  { eapply stampedOnly_trans; [done|]. by eapply generateVariants_stampedOnly. }
  destruct (String.eqb (OutputPath g) "").
  { intros Hrun. constructor; [eauto|]. refine (IH _ _ Hrun); exact Hst1. }
  destruct (persistVariants _ _ _ _ _ _ _) as [[fs log] []]; [done|].
  intros Hrun. constructor; [eauto|]. refine (IH _ _ Hrun); exact Hst1.
Qed.

(** With an output directory, a run whose definitions all generate their
    vectors is the sequence of its turns. *)
Lemma runItems_persistAll g group h0 st generate :
  String.eqb (OutputPath g) "" = false →
  stampedOnly h0 (st_heap st) →
  Forall (λ item, ∃ h' ret, generateVariants h0 item = Ok (h', ret)) generate →
  ∃ h', stampedOnly h0 h' ∧
    runItems g group st generate =
    match persistAll g h0 group (st_fs st) (st_log st) (turns h0 generate) with
    | (fs', log', false) =>
        Returned {| st_heap := h'; st_fs := fs'; st_log := log'; st_stdout := st_stdout st |}
    | (fs', log', true) => Panicked fs' log'
    end.
Proof.
  intros Hout Hst Hall. revert st Hst.
  induction Hall as [|item generate (h' & ret & Hg) _ IH]; intros st Hst.
  - exists (st_heap st). split; [done|]. by destruct st.
  - simpl. unfold runItem.
    pose proof (generateVariants_stamped h0 (st_heap st) item Hst) as H0.
    rewrite Hg in H0. destruct H0 as [h1 Hg1]. rewrite Hg1, Hout.
    assert (Hst1 : stampedOnly h0 h1).
    { eapply stampedOnly_trans; [done|]. by eapply generateVariants_stampedOnly. }
    change (turns h0 (item :: generate))
      with (((item,.) <$> generated h0 item) ++ turns h0 generate).
    unfold generated at 1. rewrite Hg.
    rewrite persistAll_app, persistVariants_persistAll, (persistAll_stampedOnly g h0 h1) by done.
    destruct (persistAll g h0 group (st_fs st) (st_log st) ((item,.) <$> ret))
      as [[fs1 log1] []].
    + exists h0. split; [apply stampedOnly_refl | done].
    + apply (IH {| st_heap := h1; st_fs := fs1; st_log := log1;
                   st_stdout := st_stdout st |}). done.
Qed.


Lemma removeTmp_spec group fs log :
  ∃ extra, (removeTmp group fs log).2 = log ++ extra ∧
           outAgree fs (removeTmp group fs log).1 ∧
           ∀ l, l ∈ extra → l = LogRemoveTempFailed.
Proof.
  unfold removeTmp. destruct (fails OpRemoveAll (TmpDir, group)); simpl.
  - exists [LogRemoveTempFailed]. split_and!; [done|apply outAgree_refl|].
    by intros l ->%list_elem_of_singleton.
  - exists []. rewrite app_nil_r. split_and!; [done|apply outAgree_dropTmp|].
    by intros l ?%elem_of_nil.
Qed.

(** An invariant of the turns is an invariant of a run, however it ends. *)
Lemma runItems_invariant (I : gmap (Dir * string) string → list LogLine → Prop)
    g group st generate :
  (∀ h item fs log v fs' log',
     I fs log → persistVector g h group item fs v = Some (fs', log') → I fs' (log ++ log')) →
  I (st_fs st) (st_log st) →
  I (filesOf (runItems g group st generate)) (logOf (runItems g group st generate)).
Proof.
  intros Hturn. revert st.
  induction generate as [|item generate IH]; intros st Hst; [done|].
  simpl. unfold runItem.
  destruct (generateVariants (st_heap st) item) as [[h' variants]| |]; [|done..].
  destruct (String.eqb (OutputPath g) ""); [by apply IH|].
  assert (Hloop : ∀ fs log, I fs log →
            I (persistVariants g h' group item fs log variants).1.1
              (persistVariants g h' group item fs log variants).1.2).
  { induction variants as [|v variants IHv]; intros fs log Hfs; simpl; [done|].
    destruct (persistVector g h' group item fs v) as [[fs1 log1]|] eqn:Hp; [|done].
    apply IHv. by eapply Hturn. }
  specialize (Hloop _ _ Hst).
  destruct (persistVariants _ _ _ _ _ _ _) as [[fs log] []]; [done|]. by apply IH.
Qed.

(** ** The policy [OverwriteNone] over a run *)

(** The files [fs0] of the output directory are kept in [fs], up to the
    removal of the other state of the vectors the lines [extra] report as
    written. *)
Definition keptOrTwin (fs0 fs : gmap (Dir * string) string) (extra : list LogLine) : Prop :=
  ∀ name old, fs0 !! (OutDir, name) = Some old →
    fs !! (OutDir, name) = Some old ∨
    ∃ filename, LogWrote (OutDir, filename) ∈ extra ∧
                previousPath OutDir filename = (OutDir, name).

Lemma keptOrTwin_more fs0 fs fs' extra more :
  keptOrTwin fs0 fs extra → outAgree fs fs' → keptOrTwin fs0 fs' (extra ++ more).
Proof.
  intros Hk Hag name old Hold. destruct (Hk name old Hold) as [?|(f & ? & ?)].
  - left. by rewrite Hag.
  - right. exists f. split; [|done]. apply elem_of_app. by left.
Qed.

Lemma keptOrTwin_turn g h group item fs0 fs extra v fs' log :
  Mode g = OverwriteNone →
  keptOrTwin fs0 fs extra →
  persistVector g h group item fs v = Some (fs', log) →
  keptOrTwin fs0 fs' (extra ++ log).
Proof.
  intros Hmode Hk Hp name old Hold.
  destruct (proj1 (persistVector_named g h group item fs v)) as [f Hf]; [by rewrite Hp|].
  destruct (Hk name old Hold) as [Hsame|(f' & ? & ?)].
  - destruct (persistVector_none_keeps _ _ _ _ _ _ _ _ _ _ _ Hmode Hf Hp Hsame)
      as [?|[? ?]]; [by left|].
    right. exists f. split; [|done]. apply elem_of_app. by right.
  - right. exists f'. split; [|done]. apply elem_of_app. by left.
Qed.

Lemma runItems_none g group fs0 log0 st extra generate :
  Mode g = OverwriteNone →
  st_log st = log0 ++ extra →
  keptOrTwin fs0 (st_fs st) extra →
  ∃ extra', logOf (runItems g group st generate) = log0 ++ extra' ∧
            keptOrTwin fs0 (filesOf (runItems g group st generate)) extra'.
Proof.
  intros Hmode Hlog Hk.
  apply (runItems_invariant
           (λ fs log, ∃ extra', log = log0 ++ extra' ∧ keptOrTwin fs0 fs extra')); [|eauto].
  intros h item fs log v fs' log' (extra' & -> & Hk') Hp.
  exists (extra' ++ log'). split; [by rewrite app_assoc|]. by eapply keptOrTwin_turn.
Qed.

(** The warning for a vector of the run whose final path holds a file of
    different content, unless that file goes as the other state of a
    vector reported as written. *)
Lemma persistAll_warns g h group fs log ts fs' extra item v filename :
  Mode g = OverwriteNone →
  persistAll g h group fs log ts = (fs', log ++ extra, false) →
  (item, v) ∈ ts →
  outOfDate h group item fs v →
  vectorFilename h group item v = Some filename →
  fails OpOpen (TmpDir, filename) = false →
  fails OpStat (OutDir, filename) = false →
  fails OpRead (TmpDir, filename) = false →
  fails OpRead (OutDir, filename) = false →
  (∀ f, LogWrote (OutDir, f) ∈ extra → previousPath OutDir f ≠ (OutDir, filename)) →
  LogWarnChanged (OutDir, filename) ∈ extra.
Proof.
  intros Hmode Hp Hin Hout Hf Hopen Hstat Hr1 Hr2. revert fs log extra Hp Hout.
  induction ts as [|t ts IH]; intros fs log extra Hp Hout Htwin;
    [by apply elem_of_nil in Hin|].
  apply persistAll_cons in Hp as (f & fs1 & log1 & Hft & Hp1 & Hrest).
  destruct (persistAll_log _ _ _ _ _ _ _ _ _ Hrest) as [extra1 Hlog].
  rewrite <- app_assoc in Hlog. apply app_inv_head in Hlog. subst extra.
  rewrite app_assoc in Hrest.
  apply elem_of_cons in Hin as [<-|Hin].
  - destruct (persistVector_none_warns g h group item fs v Hmode Hout)
      as (fs2 & log2 & f2 & Hf2 & Hp2 & _ & _ & _ & Hwarn).
    simpl in Hp1. rewrite Hp1 in Hp2. injection Hp2 as <- <-.
    assert (f2 = filename) as -> by congruence.
    rewrite Hwarn by done. left.
  - apply elem_of_app. right. apply (IH Hin fs1 (log ++ log1) extra1 Hrest).
    + destruct Hout as (f0 & enc & old & a & b & Hf0 & Henc & Hold & Ha & Hb & Hne).
      assert (f0 = filename) as -> by congruence.
      exists filename, enc, old, a, b. split_and!; try done.
      destruct (persistVector_none_keeps _ _ _ _ _ _ _ _ _ _ _ Hmode Hft Hp1 Hold)
        as [?|[Htw Hw]]; [done|].
      destruct (Htwin f); [|done]. apply elem_of_app. by left.
    + intros f' Hf'. apply Htwin. apply elem_of_app. by right.
Qed.

Lemma outOfDate_outAgree h group item fs fs' v :
  outAgree fs fs' → outOfDate h group item fs v → outOfDate h group item fs' v.
Proof.
  intros Hag (filename & enc & old & a & b & ? & ? & Hold & ? & ? & ?).
  exists filename, enc, old, a, b. by rewrite Hag.
Qed.

Lemma elem_of_turns h generate item h' variants v :
  item ∈ generate → generateVariants h item = Ok (h', variants) → v ∈ variants →
  (item, v) ∈ turns h generate.
Proof.
  intros Hin Hg Hv. unfold turns. apply list_elem_of_bind. exists item. split; [|done].
  apply list_elem_of_fmap. exists v. split; [done|]. unfold generated. by rewrite Hg.
Qed.

(** C3, as the code has it.  Under [OverwriteNone], the turn of a vector
    whose final path holds a file of different content (metadata apart)
    leaves every file of the output directory as it was and reports no
    vector as written; when the system calls succeed its only line is the
    warning.  Over a whole run of [Group], however it ends, a file of the
    output directory keeps its bytes, unless it is the file of the other
    state of a vector the run reports as written: that one is removed, and
    can be written anew.  And when [Group] returns, the warning has been
    logged for every vector of the run whose final path held such a file,
    unless the file went that way. *)
Theorem Group_none_keeps_existing g st group vectors h item fs v :
  Mode g = OverwriteNone →
  (outOfDate h group item fs v →
   ∃ fs' log filename,
     vectorFilename h group item v = Some filename ∧
     persistVector g h group item fs v = Some (fs', log) ∧
     outAgree fs fs' ∧
     (∀ p, LogWrote p ∉ log) ∧
     (fails OpOpen (TmpDir, filename) = false →
      fails OpStat (OutDir, filename) = false →
      fails OpRead (TmpDir, filename) = false →
      fails OpRead (OutDir, filename) = false →
      log = [LogWarnChanged (OutDir, filename)])) ∧
  (∃ extra,
     logOf (Group g st group vectors) = st_log st ++ extra ∧
     ∀ name old, st_fs st !! (OutDir, name) = Some old →
       filesOf (Group g st group vectors) !! (OutDir, name) = Some old ∨
       ∃ filename, LogWrote (OutDir, filename) ∈ extra ∧
                   previousPath OutDir filename = (OutDir, name)) ∧
  (∀ st' log generate item' h' variants v' filename,
     Group g st group vectors = Returned st' →
     validate g (st_heap st) group vectors [] [] = (log, Some generate) →
     OutputPath g ≠ "" →
     fails OpTempDir (TmpDir, group) = false →
     item' ∈ generate →
     generateVariants (st_heap st) item' = Ok (h', variants) →
     v' ∈ variants →
     outOfDate (st_heap st) group item' (st_fs st) v' →
     vectorFilename (st_heap st) group item' v' = Some filename →
     fails OpOpen (TmpDir, filename) = false →
     fails OpStat (OutDir, filename) = false →
     fails OpRead (TmpDir, filename) = false →
     fails OpRead (OutDir, filename) = false →
     ∃ extra,
       st_log st' = st_log st ++ extra ∧
       ((∀ f, LogWrote (OutDir, f) ∈ extra → previousPath OutDir f ≠ (OutDir, filename)) →
        LogWarnChanged (OutDir, filename) ∈ extra)).
Proof.
  intros Hmode. split_and!.
  - intros Hout.
    destruct (persistVector_none_warns g h group item fs v Hmode Hout)
      as (fs' & log & filename & ? & ? & ? & _ & ? & ?).
    exists fs', log, filename. done.
  - change (∃ extra, logOf (Group g st group vectors) = st_log st ++ extra ∧
                     keptOrTwin (st_fs st) (filesOf (Group g st group vectors)) extra).
    assert (Hk0 : ∀ extra, keptOrTwin (st_fs st) (st_fs st) extra)
      by (intros extra name old ?; by left).
    unfold Group.
    destruct (validate g (st_heap st) group vectors [] []) as [log [generate|]];
      [|exists log; split; [done | apply Hk0]].
    cbn zeta.
    destruct (Nat.eqb (length generate) 0).
    { exists (log ++ [LogNoVectors group]). simpl. rewrite app_assoc. split; [done | apply Hk0]. }
    destruct (String.eqb (OutputPath g) "").
    { apply (runItems_none g group (st_fs st) (st_log st) (addLog st log) log);
        [done|done|apply Hk0]. }
    destruct (fails OpTempDir (TmpDir, group)).
    { exists (log ++ [LogTempDirFailed]). simpl. rewrite app_assoc. split; [done | apply Hk0]. }
    match goal with
    | |- context [runItems g group ?s generate] =>
        destruct (runItems_none g group (st_fs st) (st_log st) s log generate Hmode)
          as (extra' & Hlog & Hk); [done| |]
    end.
    { intros name old Hold. left. simpl. by rewrite (outAgree_dropTmp (st_fs st) name). }
    destruct (runItems _ _ _ _) as [st1|fs1 log1|fs1 log1]; simpl in Hlog, Hk;
      [|by exists extra'..].
    destruct (removeTmp_spec group (st_fs st1) (st_log st1)) as (more & Hmore & Hag & _).
    destruct (removeTmp _ _ _) as [fsR logR]. simpl in *. subst logR.
    exists (extra' ++ more). split; [by rewrite Hlog, app_assoc|].
    by eapply keptOrTwin_more.
  - intros st' log generate item' h' variants v' filename
           HG Hval Hout Htmp Hin Hg Hv Hood Hf Hopen Hstat Hr1 Hr2.
    unfold Group in HG. rewrite Hval in HG. cbn zeta in HG.
    destruct (Nat.eqb (length generate) 0) eqn:Hlen.
    { apply Nat.eqb_eq, nil_length_inv in Hlen. subst. by apply elem_of_nil in Hin. }
    apply String.eqb_neq in Hout. rewrite Hout, Htmp in HG.
    destruct (runItems _ _ _ _) as [sA| |] eqn:HrunA in HG; [|done..].
    pose proof (runItems_Ok _ _ (st_heap st) _ _ _ HrunA (stampedOnly_refl _)) as HallOk.
    match type of HrunA with
    | runItems _ _ ?s _ = _ =>
        destruct (runItems_persistAll g group (st_heap st) s generate Hout
                    (stampedOnly_refl _) HallOk) as (hA & _ & Heq)
    end.
    rewrite HrunA in Heq. simpl in Heq.
    destruct (persistAll _ _ _ _ _ _) as [[fsA logA] []] eqn:HpA in Heq; [done|].
    injection Heq as ->.
    destruct (persistAll_log _ _ _ _ _ _ _ _ _ HpA) as [extraA ->].
    simpl in HG.
    destruct (removeTmp_spec group fsA ((st_log st ++ log) ++ extraA))
      as (more & Hmore & _ & _).
    destruct (removeTmp _ _ _) as [fsR logR]. simpl in Hmore. subst logR.
    injection HG as <-. simpl.
    exists (log ++ extraA ++ more). split; [by rewrite <- !app_assoc|].
    intros Htwin. apply elem_of_app. right. apply elem_of_app. left.
    apply (persistAll_warns _ _ _ _ _ _ _ _ item' v' filename Hmode HpA); try done.
    + by eapply elem_of_turns.
    + eapply outOfDate_outAgree; [apply outAgree_dropTmp | done].
    + intros f Hw. apply Htwin. apply elem_of_app. right. apply elem_of_app. by left.
Qed.


End Persistence.

Section Twin.
Context `{Ext : Externals} `{Sys : System}.

(** The name of the file of a vector, by the hint of its definition. *)
Lemma vectorFilename_hinted h group item vector meta first rest :
  h !! Metadata_ item = Some meta →
  Variants (Pre vector) = first :: rest →
  let base := group +:+ "--" +:+ ID meta +:+ "--" +:+ VariantID first +:+ ".json" in
  vectorFilename h group item vector =
    Some (if bool_decide (HintIncorrect ∈ Hints item)
          then brokenVectorPrefix +:+ base else base).
Proof.
  intros Hm Hv base. rewrite (vectorFilename_prefixBroken _ _ _ _ _ _ _ Hm Hv).
  rewrite prefixBroken_spec.
  by rewrite (bool_decide_ext _ (HintIncorrect ∈ Hints item)) by apply Exists_singleton_hint.
Qed.

(** C5, as the code has it.  Take a vector with its plain name
    [<group>--<caseID>--<tag>.json] and its marked name, the plain one
    after the broken marker; its file name is the marked one when the
    definition carries the hint and the plain one otherwise, and the other
    of the two is its twin.  After a turn of the loop that moved the new
    file into place and whose removal of the other file reported no error,
    the new file is at its final path and the twin does not exist, so that
    the plain and the marked file are not both present; provided the
    definition carries the hint, or its plain name does not itself start
    with the marker. *)
Theorem persistVector_removes_other_state g h group item fs v fs' log meta first rest :
  h !! Metadata_ item = Some meta →
  Variants (Pre v) = first :: rest →
  let base := group +:+ "--" +:+ ID meta +:+ "--" +:+ VariantID first +:+ ".json" in
  let marked := brokenVectorPrefix +:+ base in
  let hinted := bool_decide (HintIncorrect ∈ Hints item) in
  let filename := if hinted then marked else base in
  let twin := if hinted then base else marked in
  persistVector g h group item fs v = Some (fs', log) →
  LogWrote (OutDir, filename) ∈ log →
  LogRenameFailed ∉ log →
  LogRemovePreviousFailed ∉ log →
  hinted = true ∨ String.prefix brokenVectorPrefix base = false →
  vectorFilename h group item v = Some filename ∧
  fs' !! (OutDir, filename) = json_Encode v ∧
  fs' !! (OutDir, twin) = None ∧
  ¬ (is_Some (fs' !! (OutDir, base)) ∧ is_Some (fs' !! (OutDir, marked))).
Proof.
  intros Hmeta Hvs base marked hinted filename twin Hp Hw Hren Hrem Hok.
  pose proof (vectorFilename_hinted h group item v meta first rest Hmeta Hvs) as Hf.
  cbn zeta in Hf. fold base marked hinted filename in Hf.
  apply (persistVector_wrote_iff _ _ _ _ _ _ _ _ _ Hf Hp) in Hw.
  destruct (persistVector_moves _ _ _ _ _ _ _ Hf Hw)
    as (enc & fs2 & log2 & Henc & Hp2 & _ & _ & Hmv & Hrm).
  rewrite Hp in Hp2. injection Hp2 as <- <-.
  destruct (fails OpRename (OutDir, filename)); [by destruct Hmv as [_ ?]|].
  destruct Hmv as [Hnew _].
  destruct (fails OpRemove (previousPath OutDir filename)); [by destruct Hrm as [_ ?]|].
  assert (Htwin : previousPath OutDir filename = (OutDir, twin)).
  { unfold previousPath, filename, twin. destruct hinted.
    - unfold marked. by rewrite prefix_marker_app, replaceFirst_marker.
    - destruct Hok as [? | ->]; done. }
  rewrite Htwin in Hrm.
  split_and!; [done|by rewrite Henc|done|].
  intros [[? Hplain] [? Hmarked]]. unfold twin in Hrm. destruct hinted; congruence.
Qed.

End Twin.

(** * The theorems at work on the small instance *)

Section Runs.
Import Sample.

Lemma sample_collisionFree result : collisionFree result.
Proof. intros v1 v2 _ _ H. exact H. Qed.

Lemma sample_constant_run :
  generateVariants heap0 (constantDef []) = Ok (heap1, [merged]).
Proof. vm_compute. reflexivity. Qed.

(** [versionedDef] yields two vectors out of three: the versions after the
    first one agree. *)
Lemma generateVariants_merges_equal_bodies_run :
  ∃ h' ret result,
    generateVariants heap0 versionedDef = Ok (h', ret) ∧
    producedVariants heap0 versionedDef = Ok result ∧
    length result = 3 ∧ length ret = 2 ∧
    bodyBytes <$> ret ≡ₚ remove_dups (bodyBytes <$> result).
Proof.
  eexists _, _, _. split; [vm_compute; reflexivity|].
  split; [vm_compute; reflexivity|].
  split; [reflexivity|]. split; [reflexivity|].
  eapply (generateVariants_merges_equal_bodies heap0 versionedDef).
  - vm_compute. reflexivity.
  - vm_compute. reflexivity.
  - apply sample_collisionFree.
Defined.

Lemma generateVariants_variants_nonempty_run :
  ∃ h' ret,
    generateVariants heap0 versionedDef = Ok (h', ret) ∧
    ∀ w, w ∈ ret →
      Variants (Pre w) ≠ [] ∧ is_Some (head (Variants (Pre w))) ∧
      is_Some (vectorFilename h' "grp" versionedDef w).
Proof.
  eexists _, _. split; [vm_compute; reflexivity|].
  eapply (generateVariants_variants_nonempty heap0 versionedDef).
  - vm_compute. reflexivity.
  - vm_compute. reflexivity.
  - intros v Hv.
    repeat (apply elem_of_cons in Hv as [->|Hv]; [discriminate|]).
    by apply elem_of_nil in Hv.
Defined.

(** [relabelDef] changes the body the builder made, the same way for the
    three versions: one vector comes out, with the three tags. *)
Lemma generateVariants_all_known_versions_run :
  ∃ h' w,
    producedVariants heap0 relabelDef
      = Ok (relabelled (setGen metadata0 genData) <$> versions) ∧
    generateVariants heap0 relabelDef = Ok (h', [w]) ∧
    ∀ pv, pv ∈ KnownProtocolVersions →
      ∃ t, t ∈ Variants (Pre w) ∧ VariantID t = PVID pv.
Proof.
  apply (generateVariants_all_known_versions heap0 relabelDef metadata0
           (relabelled (setGen metadata0 genData) <$> versions)).
  - reflexivity.
  - reflexivity.
  - discriminate.
  - repeat constructor; (eexists; split; reflexivity).
  - intros v1 v2 H1 H2.
    repeat (apply elem_of_cons in H1 as [->|H1]);
      repeat (apply elem_of_cons in H2 as [->|H2]);
      first [reflexivity | by apply elem_of_nil in H1 | by apply elem_of_nil in H2].
  - repeat constructor; (eexists; split; [left | reflexivity]).
Defined.

Lemma vectorFilename_convention_run :
  vectorFilename heap1 "grp" (constantDef ["negate"; "incorrect"]) merged
    = Some "x--grp--ok--genesis.json" ∧
  vectorFilename heap1 "grp" (constantDef ["negate"]) merged
    = Some "grp--ok--genesis.json".
Proof.
  split.
  - exact (vectorFilename_convention heap1 "grp" (constantDef ["negate"; "incorrect"]) merged
             _ _ _ eq_refl eq_refl).
  - exact (vectorFilename_convention heap1 "grp" (constantDef ["negate"]) merged
             _ _ _ eq_refl eq_refl).
Defined.

(** Two committed files that differ in their metadata only, and two that
    differ in their body. *)
Lemma vectorsEqual_ignores_meta_run :
  vectorsEqual (<[(TmpDir, "grp--ok--genesis.json") := "ok#send"]> committed)
               (TmpDir, "grp--ok--genesis.json") (OutDir, "grp--ok--genesis.json")
    = Some true ∧
  vectorsEqual (<[(TmpDir, "grp--ok--genesis.json") := "ok#send"]> changed)
               (TmpDir, "grp--ok--genesis.json") (OutDir, "grp--ok--genesis.json")
    = Some false.
Proof.
  split.
  - eapply (vectorsEqual_ignores_meta (Ext:=externals) (Sys:=calm));
      [vm_compute; reflexivity..|reflexivity|reflexivity|by eexists].
  - eapply (vectorsEqual_ignores_meta (Ext:=externals) (Sys:=calm));
      [vm_compute; reflexivity..|].
    exists "#send", "#receive". split_and!; [reflexivity..|discriminate].
Defined.

(** C4 as stated fails: with a serialization that leaves out what is
    empty, two files parse into vectors of different bodies, with the same
    metadata, and compare equal. *)
Lemma vectorsEqual_equates_different_vectors :
  let fs : gmap (Dir * string) string :=
    {[ (TmpDir, "grp--ok--genesis.json") := "ok#[]";
       (OutDir, "grp--ok--genesis.json") := "ok#" ]} in
  let va := @parseVectorFile omitting calm fs (TmpDir, "grp--ok--genesis.json") in
  let vb := @parseVectorFile omitting calm fs (OutDir, "grp--ok--genesis.json") in
  Body <$> va = Some "[]" ∧ Body <$> vb = Some "" ∧
  Meta <$> va = Meta <$> vb ∧ Pre <$> va = Pre <$> vb ∧
  @vectorsEqual omitting calm fs (TmpDir, "grp--ok--genesis.json")
                (OutDir, "grp--ok--genesis.json") = Some true.
Proof. intros fs va vb. split_and!; vm_compute; reflexivity. Qed.


Lemma persisted_result r : logAfter r ≠ [] → r = Some (filesAfter r, logAfter r).
Proof. by destruct r as [[fs log]|]. Qed.

Lemma returned_result o : hasReturned o = true → o = Returned (stateAfter o).
Proof. by destruct o. Qed.





Lemma sample_outOfDate h :
  h !! 1%positive = Some (setGen metadata0 genData) ∨ h !! 1%positive = Some metadata0 →
  outOfDate h "grp" (constantDef []) changed merged.
Proof.
  intros Hh.
  exists "grp--ok--genesis.json", "ok#send", "older#receive", "#send", "#receive".
  split_and!; try reflexivity; [|discriminate].
  unfold vectorFilename. change (Metadata_ (constantDef [])) with 1%positive.
  by destruct Hh as [-> | ->].
Qed.

(** The vector of [constantDef] differs from the committed file: its turn
    warns and leaves the file alone, and so does the run. *)
Lemma Group_none_keeps_existing_run :
  (∃ fs' log,
     persistVector (generatorWith OverwriteNone) heap1 "grp" (constantDef []) changed merged
       = Some (fs', log) ∧
     outAgree changed fs' ∧
     log = [LogWarnChanged (OutDir, "grp--ok--genesis.json")]) ∧
  let run := Group (generatorWith OverwriteNone) (stateOf changed) "grp" [constantDef []] in
  filesOf run !! (OutDir, "grp--ok--genesis.json") = Some "older#receive" ∧
  LogWarnChanged (OutDir, "grp--ok--genesis.json") ∈ logOf run.
Proof.
  destruct (Group_none_keeps_existing (Ext:=externals) (Sys:=calm)
              (generatorWith OverwriteNone) (stateOf changed) "grp" [constantDef []]
              heap1 (constantDef []) changed merged eq_refl) as (Hturn & Hkeep & Hwarn).
  split; [|intros run; split].
  - destruct (Hturn (sample_outOfDate heap1 (or_introl eq_refl)))
      as (fs' & log & filename & Hf & Hp & Hag & _ & Hlog).
    vm_compute in Hf. injection Hf as <-.
    exists fs', log. split_and!; [done|done|]. by apply Hlog.
  - destruct Hkeep as (extra & Hlog & Hk).
    fold run in Hlog, Hk.
    assert (Hrun : logOf run = [LogWarnChanged (OutDir, "grp--ok--genesis.json")])
      by (vm_compute; reflexivity).
    rewrite Hrun in Hlog. simpl in Hlog. subst extra.
    destruct (Hk "grp--ok--genesis.json" "older#receive") as [?|(f & Hin & _)];
      [vm_compute; reflexivity|done|].
    by apply list_elem_of_singleton in Hin.
  - assert (Hret : hasReturned run = true) by (vm_compute; reflexivity).
    assert (Hrun : logOf run = [LogWarnChanged (OutDir, "grp--ok--genesis.json")])
      by (vm_compute; reflexivity).
    destruct (Hwarn (stateAfter run) [] [constantDef []] (constantDef []) heap1 [merged]
                merged "grp--ok--genesis.json") as (extra & Hlog & Hin).
    + exact (returned_result run Hret).
    + reflexivity.
    + discriminate.
    + reflexivity.
    + left.
    + exact sample_constant_run.
    + left.
    + exact (sample_outOfDate heap0 (or_intror eq_refl)).
    + reflexivity.
    + reflexivity.
    + reflexivity.
    + reflexivity.
    + reflexivity.
    + rewrite (returned_result run Hret) in Hrun. simpl in Hrun, Hlog.
      rewrite Hrun in Hlog. subst extra.
      rewrite (returned_result run Hret). simpl. rewrite Hrun. apply Hin.
      intros f Hw. by apply list_elem_of_singleton in Hw.
Defined.

(** C3 as stated fails.  A definition and the same definition marked as
    incorrect, under [OverwriteNone], over a committed file that differs:
    the run warns about the file and then removes it, as the other state of
    the vector it writes under the marked name.  With the definitions in
    the other order the file is removed first and then written anew, with
    other bytes. *)
Lemma none_run_loses_existing_file :
  let g := generatorWith OverwriteNone in
  let run := Group g (stateOf changed) "grp" [constantDef []; constantDef ["incorrect"]] in
  let run' := Group g (stateOf changed) "grp" [constantDef ["incorrect"]; constantDef []] in
  changed !! (OutDir, "grp--ok--genesis.json") = Some "older#receive" ∧
  hasReturned run = true ∧
  logOf run = [LogWarnChanged (OutDir, "grp--ok--genesis.json");
               LogWrote (OutDir, "x--grp--ok--genesis.json")] ∧
  filesOf run !! (OutDir, "grp--ok--genesis.json") = None ∧
  hasReturned run' = true ∧
  logOf run' = [LogWrote (OutDir, "x--grp--ok--genesis.json");
                LogWrote (OutDir, "grp--ok--genesis.json")] ∧
  filesOf run' !! (OutDir, "grp--ok--genesis.json") = Some "ok#send".
Proof. intros g run run'. split_and!; vm_compute; reflexivity. Qed.

(** The definition stopped being broken: its vector is written under the
    plain name and the file with the marked name goes.  The definition
    became broken: its vector is written under the marked name and the
    file with the plain name goes. *)
Lemma persistVector_removes_other_state_run :
  let r := persistVector (generatorWith OverwriteNone) heap1 "grp" (constantDef [])
                         flipped merged in
  let r' := persistVector (generatorWith OverwriteNone) heap1 "grp" (constantDef ["incorrect"])
                          committed merged in
  (filesAfter r !! (OutDir, "grp--ok--genesis.json") = Some "ok#send" ∧
   filesAfter r !! (OutDir, "x--grp--ok--genesis.json") = None) ∧
  (filesAfter r' !! (OutDir, "x--grp--ok--genesis.json") = Some "ok#send" ∧
   filesAfter r' !! (OutDir, "grp--ok--genesis.json") = None).
Proof.
  intros r r'. split.
  - assert (Hlog : logAfter r = [LogWrote (OutDir, "grp--ok--genesis.json")])
      by (vm_compute; reflexivity).
    destruct (persistVector_removes_other_state (Ext:=externals) (Sys:=calm)
                (generatorWith OverwriteNone) heap1 "grp" (constantDef []) flipped merged
                (filesAfter r) (logAfter r) _ _ _ eq_refl eq_refl) as (_ & H1 & H2 & _).
    + apply persisted_result. by rewrite Hlog.
    + rewrite Hlog. left.
    + rewrite Hlog. by intros ?%list_elem_of_singleton.
    + rewrite Hlog. by intros ?%list_elem_of_singleton.
    + right. reflexivity.
    + split; [exact H1 | exact H2].
  - assert (Hlog : logAfter r' = [LogWrote (OutDir, "x--grp--ok--genesis.json")])
      by (vm_compute; reflexivity).
    destruct (persistVector_removes_other_state (Ext:=externals) (Sys:=calm)
                (generatorWith OverwriteNone) heap1 "grp" (constantDef ["incorrect"])
                committed merged
                (filesAfter r') (logAfter r') _ _ _ eq_refl eq_refl) as (_ & H1 & H2 & _).
    + apply persisted_result. by rewrite Hlog.
    + rewrite Hlog. left.
    + rewrite Hlog. by intros ?%list_elem_of_singleton.
    + rewrite Hlog. by intros ?%list_elem_of_singleton.
    + left. reflexivity.
    + split; [exact H1 | exact H2].
Defined.

(** C5 as stated fails, in two ways.  The removal of the file with the
    marked name fails: the failure is only logged, the new file is moved
    into place, and the two files are both in the output directory.  And
    for a group whose name starts with the marker, [removePrevious] takes
    the plain name of the vector for a marked one: it removes the file of
    another group and leaves the file with the marked name in place, next
    to the new one. *)
Lemma twin_survives_write :
  let r := @persistVector _ removalFails (generatorWith OverwriteNone) heap1 "grp"
                          (constantDef []) flipped merged in
  let fs : gmap (Dir * string) string :=
    {[ (OutDir, "x--x--grp--ok--genesis.json") := "older#send";
       (OutDir, "grp--ok--genesis.json") := "other#send" ]} in
  let r' := persistVector (generatorWith OverwriteNone) heap1 "x--grp" (constantDef [])
                          fs merged in
  (logAfter r = [LogRemovePreviousFailed; LogWrote (OutDir, "grp--ok--genesis.json")] ∧
   filesAfter r !! (OutDir, "grp--ok--genesis.json") = Some "ok#send" ∧
   filesAfter r !! (OutDir, "x--grp--ok--genesis.json") = Some "older#send") ∧
  (logAfter r' = [LogWrote (OutDir, "x--grp--ok--genesis.json")] ∧
   filesAfter r' !! (OutDir, "x--grp--ok--genesis.json") = Some "ok#send" ∧
   filesAfter r' !! (OutDir, "x--x--grp--ok--genesis.json") = Some "older#send" ∧
   filesAfter r' !! (OutDir, "grp--ok--genesis.json") = None).
Proof. intros r fs r'. split_and!; vm_compute; reflexivity. Qed.

Lemma Group_aborts_on_misconfigured_definition_run :
  (validate (generatorWith OverwriteForce) heap0 "grp" [constantDef []; doubleDef] [] []).2
    = None ∧
  ∃ ids, Group (generatorWith OverwriteForce) (stateOf changed) "grp"
               [constantDef []; doubleDef]
         = Panicked changed ([] ++ (LogSkipFilter <$> ids)).
Proof.
  apply (Group_aborts_on_misconfigured_definition
           (generatorWith OverwriteForce) (stateOf changed) "grp"
           [constantDef []; doubleDef] doubleDef).
  - right. left.
  - left. split; reflexivity.
Defined.

(** C9 as stated fails: the metadata of the definition is not the same
    after [generateVariants]. *)
Lemma generateVariants_writes_metadata :
  ∃ h' ret,
    generateVariants heap0 (constantDef []) = Ok (h', ret) ∧
    Gen <$> heap0 !! Metadata_ (constantDef []) = Some [] ∧
    Gen <$> h' !! Metadata_ (constantDef []) = Some genData ∧
    h' !! Metadata_ (constantDef []) ≠ heap0 !! Metadata_ (constantDef []).
Proof.
  exists heap1, [merged]. split; [apply sample_constant_run|].
  split_and!; [reflexivity..|discriminate].
Qed.

Lemma generation_writes_only_Gen_run :
  let o := Group (generatorWith OverwriteUpdate) (stateOf committed) "grp" [constantDef []] in
  hasReturned o = true ∧
  heap1 !! 1%positive = Some (setGen metadata0 genData) ∧
  stampedOnly heap0 (st_heap (stateAfter o)).
Proof.
  intros o.
  assert (Hret : hasReturned o = true) by (vm_compute; reflexivity).
  destruct (generation_writes_only_Gen
              (generatorWith OverwriteUpdate) (stateOf committed) "grp" [constantDef []]
              (stateAfter o) heap0 (constantDef []) heap1 [merged]
              sample_constant_run (returned_result o Hret))
    as [(meta & Hm & Hm' & _) Hst].
  vm_compute in Hm. injection Hm as <-.
  split; [exact Hret|]. split; [reflexivity | exact Hst].
Defined.

(** A failed assertion ends the process where it is: the definition
    before it has been handled, and the scratch directory of the group is
    left behind, no deferred removal having run. *)
Example Group_exit_leaves_scratch :
  let run := Group (generatorWith OverwriteUpdate) (stateOf committed) "grp"
                   [constantDef []; assertingDef] in
  match run with Exited _ _ => True | _ => False end ∧
  logOf run = [LogNoChanges (OutDir, "grp--ok--genesis.json")] ∧
  filesOf run !! (TmpDir, "grp--ok--genesis.json") = Some "ok#send" ∧
  filesOf run !! (OutDir, "grp--ok--genesis.json") = Some "older#send".
Proof. intros run. split_and!; vm_compute; done. Qed.

End Runs.

(** * More of the generator

    Properties of the code around the ones above: what the merge of
    [generateVariants] keeps, when it panics, the build information, the
    names of the files, the comparison of files, the remaining branches of
    the persistence loop, and [Group] without an output directory. *)

Section MergeInvariants.
Context `{Ext : Externals}.

(** The variant tags held by the map [uniq]. *)
Definition tagsOfMap (uniq : gmap string TestVector) : list Variant :=
  variantsOfAll (map_to_list uniq).*2.

Lemma concat_Permutation {A} (ls ls' : list (list A)) :
  ls ≡ₚ ls' → concat ls ≡ₚ concat ls'.
Proof.
  induction 1 as [|l ls ls' _ IH|l l' ls|ls1 ls2 ls3 _ IH1 _ IH2]; simpl.
  - done.
  - by rewrite IH.
  - rewrite !app_assoc. by rewrite (Permutation_app_comm l' l).
  - by rewrite IH1.
Qed.

Lemma variantsOfAll_Permutation (l l' : list TestVector) :
  l ≡ₚ l' → variantsOfAll l ≡ₚ variantsOfAll l'.
Proof. intros Hp. unfold variantsOfAll. apply concat_Permutation. by rewrite Hp. Qed.

Lemma variantsOfAll_app (l l' : list TestVector) :
  variantsOfAll (l ++ l') = variantsOfAll l ++ variantsOfAll l'.
Proof. unfold variantsOfAll. by rewrite fmap_app, concat_app. Qed.

Lemma tagsOfMap_insert_fresh (uniq : gmap string TestVector) k w :
  uniq !! k = None →
  tagsOfMap (<[k := w]> uniq) ≡ₚ Variants (Pre w) ++ tagsOfMap uniq.
Proof.
  intros Hk. unfold tagsOfMap.
  rewrite (variantsOfAll_Permutation _ (w :: (map_to_list uniq).*2)).
  - unfold variantsOfAll. done.
  - by rewrite map_to_list_insert.
Qed.

Lemma dedupStep_tags uniq v :
  tagsOfMap (dedupStep uniq v) ≡ₚ tagsOfMap uniq ++ Variants (Pre v).
Proof.
  unfold dedupStep. fold (bodyBytes v). fold (contentHash v).
  set (k := contentHash v).
  destruct (uniq !! k) as [merged|] eqn:Hk.
  - rewrite <- insert_delete_eq.
    rewrite tagsOfMap_insert_fresh by apply lookup_delete_eq.
    rewrite Variants_setVariants.
    assert (Hm : tagsOfMap uniq ≡ₚ Variants (Pre merged) ++ tagsOfMap (delete k uniq)).
    { rewrite <- (tagsOfMap_insert_fresh (delete k uniq) k merged) by apply lookup_delete_eq.
      by rewrite insert_delete_eq, insert_id. }
    rewrite Hm. rewrite <- !app_assoc. apply Permutation_app_head, Permutation_app_comm.
  - rewrite tagsOfMap_insert_fresh by done.
    rewrite Variants_setVariants. apply Permutation_app_comm.
Qed.

Lemma foldl_dedupStep_tags l uniq :
  tagsOfMap (foldl dedupStep uniq l) ≡ₚ tagsOfMap uniq ++ variantsOfAll l.
Proof.
  revert uniq. induction l as [|v l IH]; intros uniq; simpl.
  - unfold variantsOfAll. simpl. by rewrite app_nil_r.
  - rewrite IH, dedupStep_tags. rewrite <- app_assoc. done.
Qed.

(** The merge loses no variant tag and invents none: the tags of the
    vectors [generateVariants] returns are those of the vectors it
    produced, each as many times, whatever the hash does. *)
Theorem generateVariants_keeps_every_tag h b h' ret result :
  generateVariants h b = Ok (h', ret) →
  producedVariants h b = Ok result →
  variantsOfAll ret ≡ₚ variantsOfAll result.
Proof.
  intros Hg Hp. destruct (generateVariants_Ok _ _ _ _ _ Hg Hp) as [-> _].
  rewrite (variantsOfAll_Permutation _ (map_to_list (dedup result)).*2)
    by (by rewrite (rangeMap_perm (dedup result))).
  change (tagsOfMap (dedup result) ≡ₚ variantsOfAll result).
  unfold dedup. rewrite foldl_dedupStep_tags.
  unfold tagsOfMap. by rewrite map_to_list_empty.
Qed.

(** Every vector [generateVariants] returns is one of the vectors it
    produced, unchanged but for variants appended to its list, and the
    vectors returned are at most as many as the versions run. *)
Theorem generateVariants_returns_produced_vectors h b h' ret result :
  generateVariants h b = Ok (h', ret) →
  producedVariants h b = Ok result →
  (∀ w, w ∈ ret →
     ∃ v more, v ∈ result ∧ w = setVariants v (Variants (Pre v) ++ more)) ∧
  (length ret ≤ length result)%nat ∧
  length result = length (versionsOf b).
Proof.
  intros Hg Hp. destruct (generateVariants_Ok _ _ _ _ _ Hg Hp) as [-> (meta & Hm & _)].
  split_and!.
  - intros w (k & Hk)%elem_of_ranged.
    apply representative_Some in Hk as (v & rest & _ & Hv & _ & ->).
    exists v, (concat ((λ u, Variants (Pre u)) <$> rest)). done.
  - rewrite <- (length_fmap bodyBytes), <- (length_fmap bodyBytes result).
    apply submseteq_length, NoDup_submseteq; [apply ranged_NoDup_bodyBytes|].
    intros x (w & -> & (k & Hk)%elem_of_ranged)%list_elem_of_fmap.
    apply representative_Some in Hk as (v & rest & _ & Hv & _ & ->).
    rewrite bodyBytes_setVariants. apply list_elem_of_fmap. eauto.
  - unfold producedVariants in Hp. rewrite Hm in Hp. simpl in Hp.
    apply length_mapM_Ok in Hp. done.
Qed.

(** [generateVariants] panics in two cases only: the [Metadata] pointer is
    nil, or there is a version to run and the definition has neither
    function.  Without any version to run it returns no vector, functions
    or not. *)
Theorem generateVariants_panics_iff h b :
  generateVariants h b = Panic ↔
  h !! Metadata_ b = None ∨
  (versionsOf b ≠ [] ∧ isSet (MessageFunc b) = false ∧ isSet (TipsetFunc b) = false).
Proof.
  unfold generateVariants, producedVariants.
  destruct (h !! Metadata_ b) as [meta|] eqn:Hm; simpl; [|by split; [left|]].
  destruct (mapM _ (versionsOf b)) as [result| |] eqn:Hr; simpl.
  - split; [done|]. intros [?|(Hne & HM & HT)]; [done|].
    apply mapM_Ok in Hr.
    destruct (versionsOf b) as [|pv pvs]; [done|].
    apply Forall2_cons_inv_l in Hr as (v & ? & Hv & _).
    unfold runVersion in Hv. destruct (MessageFunc b), (TipsetFunc b); done.
  - split; [|done]. intros _. right.
    destruct (isSet (MessageFunc b) || isSet (TipsetFunc b)) eqn:Hset.
    + exfalso. revert Hr. apply mapM_no_Panic, Forall_forall.
      intros pv _. by apply runVersion_no_Panic.
    + apply orb_false_iff in Hset as [? ?]. split_and!; [|done|done].
      intros Hnil. rewrite Hnil in Hr. done.
  - split; [done|]. intros [?|(Hne & HM & HT)]; [done|].
    destruct (versionsOf b) as [|pv pvs]; [done|].
    simpl in Hr. unfold runVersion in Hr.
    destruct (MessageFunc b), (TipsetFunc b); done.
Qed.

(** [generateVariants] is cut short by [os.Exit] exactly when the
    metadata is there and the generation of some version, the function of
    the definition or [Finish], fails an assertion after the versions
    before it have been generated: the versions are run in order and none
    is run after the one that fails. *)
Theorem generateVariants_exits_iff h b :
  generateVariants h b = Exit ↔
  ∃ meta before pv after,
    h !! Metadata_ b = Some meta ∧
    versionsOf b = before ++ pv :: after ∧
    runVersion b (setGen meta genData) pv = Exit ∧
    Forall (λ pv', ∃ v, runVersion b (setGen meta genData) pv' = Ok v) before.
Proof.
  unfold generateVariants, producedVariants.
  destruct (h !! Metadata_ b) as [meta|] eqn:Hm; simpl.
  2:{ split; [done|]. by intros (? & ? & ? & ? & ? & _). }
  pose proof (mapM_Exit (runVersion b (setGen meta genData)) (versionsOf b)) as Hex.
  destruct (mapM _ (versionsOf b)) as [result| |]; simpl.
  - split; [done|]. intros (? & l1 & pv & l2 & [= <-] & Hl).
    assert (@Ok (list TestVector) result = Exit); [|done]. apply Hex. by exists l1, pv, l2.
  - split; [done|]. intros (? & l1 & pv & l2 & [= <-] & Hl).
    assert (@Panic (list TestVector) = Exit); [|done]. apply Hex. by exists l1, pv, l2.
  - split; [|done]. intros _. destruct (proj1 Hex eq_refl) as (l1 & pv & l2 & ?).
    exists meta, l1, pv, l2. done.
Qed.

End MergeInvariants.

Section BuildInfo.
Context `{Ext : Externals}.

(** A dependency the generator reports: its path starts with the path of
    lotus or of specs-actors. *)
Definition reported (path : string) : bool :=
  String.prefix "github.com/chenjianmei111/lotus" path ||
  String.prefix "github.com/chenjianmei111/specs-actors" path.

Lemma prefix_split s p : String.prefix s p = true → ∃ r, p = s +:+ r.
Proof.
  revert p. induction s as [|a s IH]; intros p Hp; [by exists p|].
  destruct p as [|c p]; [done|]. simpl in Hp.
  destruct (ascii_dec a c) as [->|]; [|done].
  destruct (IH p Hp) as [r ->]. by exists r.
Qed.

Lemma lotus_specs_exclusive path :
  String.prefix "github.com/chenjianmei111/lotus" path = true →
  String.prefix "github.com/chenjianmei111/specs-actors" path = true → False.
Proof.
  intros [r1 ->]%prefix_split [r2 E]%prefix_split.
  apply (f_equal (String.get 26)) in E. simpl in E. done.
Qed.

Lemma flat_map_step {A B} (f : A → list B) x l : flat_map f (x :: l) = f x ++ flat_map f l.
Proof. reflexivity. Qed.

Lemma flat_map_reported (deps : list (string * string)) :
  flat_map (λ v : string * string,
    flat_map (λ dep : string,
      if String.prefix dep v.1 then [{| Source := v.1; Version := v.2 |}] else [])
      ["github.com/chenjianmei111/lotus"; "github.com/chenjianmei111/specs-actors"]) deps =
  (λ v : string * string, {| Source := v.1; Version := v.2 |})
    <$> filter (λ v : string * string, reported v.1 = true) deps.
Proof.
  induction deps as [|[path version] deps IH]; [done|].
  rewrite flat_map_step, IH, filter_cons. cbn [fst snd flat_map].
  assert (Hrep : reported path =
                 String.prefix "github.com/chenjianmei111/lotus" path ||
                 String.prefix "github.com/chenjianmei111/specs-actors" path) by done.
  destruct (String.prefix "github.com/chenjianmei111/lotus" path) eqn:Hl;
    destruct (String.prefix "github.com/chenjianmei111/specs-actors" path) eqn:Hs;
    simpl in Hrep; [destruct (lotus_specs_exclusive path Hl Hs)|..];
    destruct (decide (reported path = true)); try congruence; done.
Qed.

(** [getBuildInfo] lists the dependencies whose path starts with the path
    of lotus or of specs-actors, in the order of the build information and
    each of them once: the two prefixes of the inner loop never both match.
    The generation data is that list after the entry of the script. *)
Theorem getBuildInfo_lists_reported_dependencies :
  getBuildInfo =
    (λ v : string * string, {| Source := v.1; Version := v.2 |})
      <$> filter (λ v : string * string, reported v.1 = true) buildDeps ∧
  (length genData ≤ S (length buildDeps))%nat ∧
  head genData = Some {| Source := "genscript"; Version := GenscriptCommit |}.
Proof.
  assert (E : getBuildInfo =
    (λ v : string * string, {| Source := v.1; Version := v.2 |})
      <$> filter (λ v : string * string, reported v.1 = true) buildDeps)
    by apply flat_map_reported.
  split_and!; [done| |done].
  unfold genData. rewrite E. simpl. rewrite length_fmap.
  apply le_n_S, length_filter.
Qed.

End BuildInfo.

Section Names.
Context `{Ext : Externals}.

Lemma append_inv_head s a b : s +:+ a = s +:+ b → a = b.
Proof. induction s as [|c s IH]; simpl; [done|]. intros [= ?]. by apply IH. Qed.

Lemma length_append a b : String.length (a +:+ b) = String.length a + String.length b.
Proof. induction a as [|c a IH]; simpl; [done | by rewrite IH]. Qed.

Lemma append_inv_tail a b t : a +:+ t = b +:+ t → a = b.
Proof.
  intros E. assert (Hlen : String.length a = String.length b).
  { apply (f_equal String.length) in E. rewrite !length_append in E. lia. }
  revert b E Hlen. induction a as [|c a IH]; intros [|d b] E Hlen; try done.
  simpl in E, Hlen. injection E as -> E. f_equal. apply IH; [done | lia].
Qed.

(** [strings.Replace] with count 1 takes a leading [old] away, and leaves
    alone a string in which [old] does not occur. *)
Theorem replaceFirst_leading_and_absent old new s :
  replaceFirst old new (old +:+ s) = new +:+ s ∧
  ((∀ i, String.prefix old (String.substring i (String.length s - i) s) = false) →
   replaceFirst old new s = s).
Proof.
  split.
  - assert (Hp : String.prefix old (old +:+ s) = true).
    { apply String.prefix_correct.
      induction old as [|c old IH]; [by destruct s|].
      change (String c old +:+ s) with (String c (old +:+ s)).
      cbn [String.length String.substring]. by rewrite IH. }
    assert (Hsub : String.substring (String.length old) (String.length s) (old +:+ s) = s).
    { clear. induction old as [|c old IH]; [apply substring_whole|].
      change (String c old +:+ s) with (String c (old +:+ s)). done. }
    destruct (old +:+ s) as [|c r] eqn:E.
    + destruct old; [|done]. change (s = "") in E. subst. reflexivity.
    + cbn [replaceFirst]. rewrite Hp, <- E. f_equal.
      rewrite length_append.
      replace (String.length old + String.length s - String.length old)
        with (String.length s) by lia.
      by rewrite E.
  - induction s as [|c s IH]; intros Habs.
    + specialize (Habs 0). change (String.prefix old "" = false) in Habs.
      cbn [replaceFirst]. by rewrite Habs.
    + pose proof (Habs 0) as H0.
      change (String.length (String c s) - 0) with (S (String.length s)) in H0.
      cbn [String.substring] in H0. rewrite substring_whole in H0.
      cbn [replaceFirst]. rewrite H0. f_equal. apply IH.
      intros i. specialize (Habs (S i)). done.
Qed.

(** The path [removePrevious] removes and the path of the vector are each
    other's, unless the name starts with the marker twice. *)
Theorem previousPath_involutive dir filename :
  String.prefix (brokenVectorPrefix +:+ brokenVectorPrefix) filename = false →
  previousPath dir (previousPath dir filename).2 = (dir, filename).
Proof.
  intros Htwice. unfold previousPath at 2.
  destruct (String.prefix brokenVectorPrefix filename) eqn:Hp; cbn [snd].
  - apply prefix_marker_inv in Hp as [s ->]. rewrite replaceFirst_marker.
    unfold previousPath.
    destruct (String.prefix brokenVectorPrefix s) eqn:Hs; [|done].
    apply prefix_marker_inv in Hs as [s' ->].
    change (brokenVectorPrefix +:+ brokenVectorPrefix +:+ s')
      with ((brokenVectorPrefix +:+ brokenVectorPrefix) +:+ s') in Htwice.
    exfalso. revert Htwice. apply not_false_iff_true.
    apply String.prefix_correct. by destruct s'.
  - unfold previousPath. by rewrite prefix_marker_app, replaceFirst_marker.
Qed.

(** Two vectors of one definition get the same file name only if their
    first variant tags have the same identifier. *)
Theorem vectorFilename_tells_tags_apart h group item v1 v2 filename :
  vectorFilename h group item v1 = Some filename →
  vectorFilename h group item v2 = Some filename →
  VariantID <$> head (Variants (Pre v1)) = VariantID <$> head (Variants (Pre v2)).
Proof.
  unfold vectorFilename.
  destruct (h !! Metadata_ item) as [meta|]; [|done]. simpl.
  destruct (Variants (Pre v1)) as [|t1 ?]; [done|].
  destruct (Variants (Pre v2)) as [|t2 ?]; [done|]. simpl.
  rewrite !prefixBroken_spec. intros [= <-] [= E]. f_equal.
  assert (E' : group +:+ "--" +:+ ID meta +:+ "--" +:+ VariantID t2 +:+ ".json"
             = group +:+ "--" +:+ ID meta +:+ "--" +:+ VariantID t1 +:+ ".json").
  { destruct (bool_decide _); [by apply append_inv_head in E | done]. }
  do 4 apply append_inv_head in E'. by apply append_inv_tail in E'.
Qed.

End Names.

Section EqualityRelation.
Context `{Ext : Externals} `{Sys : System}.

(** [vectorsEqual] is symmetric, errors included; it relates a file to
    itself exactly when the file can be read, parsed and serialized; and it
    is transitive. *)
Theorem vectorsEqual_is_an_equivalence fs a b c :
  vectorsEqual fs a b = vectorsEqual fs b a ∧
  (vectorsEqual fs a a = Some true ↔ is_Some (vectorBytesNoMeta fs a)) ∧
  (vectorsEqual fs a b = Some true → vectorsEqual fs b c = Some true →
   vectorsEqual fs a c = Some true).
Proof.
  split_and!.
  - unfold vectorsEqual.
    destruct (vectorBytesNoMeta fs a) as [x|], (vectorBytesNoMeta fs b) as [y|];
      simpl; try done.
    f_equal. apply bool_decide_ext. split; congruence.
  - rewrite vectorsEqual_true. split; [intros (x & -> & _); eauto|].
    intros [x Hx]. eauto.
  - rewrite !vectorsEqual_true. intros (x & Ha & Hb) (y & Hb' & Hc).
    exists x. split; [done|]. congruence.
Qed.

End EqualityRelation.

Section Moves.
Context `{Ext : Externals} `{Sys : System}.

(** A vector is reported as written exactly when its scratch file could be
    opened and encoded, the final path could be examined, and the path is
    free, or the mode is [OverwriteForce], or the mode is [OverwriteUpdate]
    and the two files compare different. *)
Theorem persistVector_writes_iff g h group item fs v fs' log filename :
  vectorFilename h group item v = Some filename →
  persistVector g h group item fs v = Some (fs', log) →
  LogWrote (OutDir, filename) ∈ log ↔
  fails OpOpen (TmpDir, filename) = false ∧
  ∃ enc, json_Encode v = Some enc ∧ goesOn g fs filename enc.
Proof.
  intros Hf Hp. rewrite (persistVector_unfold _ _ _ _ _ _ _ Hf) in Hp. cbn zeta in Hp.
  destruct (fails OpOpen (TmpDir, filename)).
  { injection Hp as <- <-. split; [by intros ?%list_elem_of_singleton | by intros [? _]]. }
  destruct (json_Encode v) as [enc|].
  2:{ injection Hp as <- <-.
      split; [by intros ?%list_elem_of_singleton | by intros [_ (? & ? & _)]]. }
  fold (scratchWritten fs filename enc) in Hp.
  pose proof (checkExisting_goesOn g fs filename enc) as Hgo.
  destruct (checkExisting _ _ _ _) as [[] log0] eqn:Hc; simpl in Hgo.
  - destruct (moveAndClean_result h (scratchWritten fs filename enc) group item v filename enc
                Hf (scratchWritten_tmp _ _ _)) as (fs2 & log1 & Hm & Hlast & _).
    rewrite Hm in Hp. simpl in Hp. injection Hp as <- <-.
    split; [intros _; split; [done|]; exists enc; split; [done|]; by apply Hgo|].
    intros _. apply elem_of_app. right.
    apply last_Some in Hlast as [l' ->]. apply elem_of_app. right. left.
  - injection Hp as <- <-. split.
    + intros Hw. by apply (checkExisting_skip_log _ _ _ _ _ _ Hc) in Hw.
    + intros [_ (enc' & [= <-] & Hgo')]. apply Hgo in Hgo'. done.
Qed.

(** What a turn that goes on to the move leaves, when the rename succeeds:
    the new vector at its final path, whatever was there, no scratch file,
    "wrote" as the last line; and no file of the other state unless its
    removal failed. *)
Lemma persistVector_moved g h group item fs v filename enc :
  vectorFilename h group item v = Some filename →
  fails OpOpen (TmpDir, filename) = false →
  json_Encode v = Some enc →
  goesOn g fs filename enc →
  fails OpRename (OutDir, filename) = false →
  ∃ fs' log,
    persistVector g h group item fs v = Some (fs', log) ∧
    fs' !! (OutDir, filename) = Some enc ∧
    fs' !! (TmpDir, filename) = None ∧
    last log = Some (LogWrote (OutDir, filename)) ∧
    (LogRenameFailed ∉ log) ∧
    (fails OpRemove (previousPath OutDir filename) = false →
     fs' !! previousPath OutDir filename = None ∧ LogRemovePreviousFailed ∉ log).
Proof.
  intros Hf Hopen Henc Hgo Hren.
  rewrite (persistVector_unfold _ _ _ _ _ _ _ Hf). cbn zeta.
  rewrite Hopen, Henc. fold (scratchWritten fs filename enc).
  pose proof Hgo as Hgo'. apply checkExisting_goesOn in Hgo'.
  destruct (checkExisting _ _ _ _) as [[] log0] eqn:Hc; [|done].
  destruct (moveAndClean_result h (scratchWritten fs filename enc) group item v filename enc
              Hf (scratchWritten_tmp _ _ _)) as (fs2 & log1 & Hm & Hlast & _ & Hmv & Hrm).
  rewrite Hm, Hren in *. simpl. destruct Hmv as (Hnew & Htmp & Hnf).
  assert (Hlog0 : ∀ l, l ∈ log0 → l = LogOverwriting (OutDir, filename)).
  { unfold checkExisting in Hc. intros l Hl.
    repeat match type of Hc with
           | context [match ?x with _ => _ end] => destruct x
           end; simplify_eq;
      first [by apply elem_of_nil in Hl | by apply list_elem_of_singleton in Hl]. }
  exists fs2, (log0 ++ log1). split_and!; try done.
  - apply last_Some in Hlast as [l' ->]. by rewrite app_assoc, last_snoc.
  - intros [Hin%Hlog0|Hin]%elem_of_app; done.
  - intros Hrmok. rewrite Hrmok in Hrm. destruct Hrm as [? Hnr]. split; [done|].
    intros [Hin%Hlog0|Hin]%elem_of_app; done.
Qed.

(** Under [OverwriteForce] a vector is written whatever the final path
    holds, and whether or not the file there can be read: once the scratch
    file is written and the final path examined and renamed over, the new
    vector is at its final path, the scratch file is gone and the turn ends
    on "wrote". *)
Theorem persistVector_force_overwrites g h group item fs v filename enc :
  Mode g = OverwriteForce →
  vectorFilename h group item v = Some filename →
  json_Encode v = Some enc →
  fails OpOpen (TmpDir, filename) = false →
  fails OpStat (OutDir, filename) = false →
  fails OpRename (OutDir, filename) = false →
  ∃ fs' log,
    persistVector g h group item fs v = Some (fs', log) ∧
    fs' !! (OutDir, filename) = Some enc ∧
    fs' !! (TmpDir, filename) = None ∧
    last log = Some (LogWrote (OutDir, filename)) ∧
    (fails OpRemove (previousPath OutDir filename) = false →
     fs' !! previousPath OutDir filename = None ∧ LogRemovePreviousFailed ∉ log).
Proof.
  intros Hmode Hf Henc Hopen Hstat Hren.
  destruct (persistVector_moved g h group item fs v filename enc Hf Hopen Henc)
    as (fs' & log & Hp & Hnew & Htmp & Hlast & _ & Hrm); [|done|].
  { split; [done|]. right. by left. }
  exists fs', log. done.
Qed.

(** Under [OverwriteUpdate] a vector that differs from the committed file,
    metadata apart, replaces it: the turn logs that it overwrites, then
    moves the new vector into place. *)
Theorem persistVector_update_overwrites_changed g h group item fs v filename enc :
  Mode g = OverwriteUpdate →
  outOfDate h group item fs v →
  vectorFilename h group item v = Some filename →
  json_Encode v = Some enc →
  fails OpOpen (TmpDir, filename) = false →
  fails OpStat (OutDir, filename) = false →
  fails OpRead (TmpDir, filename) = false →
  fails OpRead (OutDir, filename) = false →
  fails OpRename (OutDir, filename) = false →
  ∃ fs' log,
    persistVector g h group item fs v = Some (fs', log) ∧
    fs' !! (OutDir, filename) = Some enc ∧
    fs' !! (TmpDir, filename) = None ∧
    head log = Some (LogOverwriting (OutDir, filename)) ∧
    last log = Some (LogWrote (OutDir, filename)).
Proof.
  intros Hmode (f & enc' & old & a & b & Hf' & Henc' & Hold & Ha & Hb & Hne)
         Hf Henc Hopen Hstat Hr1 Hr2 Hren.
  assert (f = filename) as -> by congruence.
  assert (enc' = enc) as -> by congruence.
  assert (Hcmp : vectorsEqual (scratchWritten fs filename enc)
                              (TmpDir, filename) (OutDir, filename) = Some false).
  { unfold scratchWritten. rewrite (vectorsEqual_after_write _ _ _ _ Hold).
    rewrite Hr1, Hr2, Ha, Hb. simpl. by rewrite bool_decide_eq_false_2. }
  destruct (persistVector_moved g h group item fs v filename enc Hf Hopen Henc)
    as (fs' & log & Hp & Hnew & Htmp & Hlast & _ & _); [|done|].
  { split; [done|]. right. right. done. }
  exists fs', log. split_and!; try done.
  rewrite (persistVector_unfold _ _ _ _ _ _ _ Hf) in Hp. cbn zeta in Hp.
  rewrite Hopen, Henc in Hp. fold (scratchWritten fs filename enc) in Hp.
  unfold checkExisting in Hp.
  rewrite Hstat, scratchWritten_out, Hold, Hmode, Hcmp in Hp.
  destruct (moveAndClean _ _ _ _ _ _ _) as [[fs2 log1]|]; [|done].
  simpl in Hp. by injection Hp as <- <-.
Qed.

(** A vector whose final path is free is written in every mode. *)
Theorem persistVector_writes_new_file g h group item fs v filename enc :
  fs !! (OutDir, filename) = None →
  vectorFilename h group item v = Some filename →
  json_Encode v = Some enc →
  fails OpOpen (TmpDir, filename) = false →
  fails OpStat (OutDir, filename) = false →
  fails OpRename (OutDir, filename) = false →
  ∃ fs' log,
    persistVector g h group item fs v = Some (fs', log) ∧
    fs' !! (OutDir, filename) = Some enc ∧
    fs' !! (TmpDir, filename) = None ∧
    last log = Some (LogWrote (OutDir, filename)) ∧
    ∀ p, LogOverwriting p ∉ log.
Proof.
  intros Hfree Hf Henc Hopen Hstat Hren.
  destruct (persistVector_moved g h group item fs v filename enc Hf Hopen Henc)
    as (fs' & log & Hp & Hnew & Htmp & Hlast & _ & _); [|done|].
  { split; [done|]. by left. }
  exists fs', log. split_and!; try done.
  rewrite (persistVector_unfold _ _ _ _ _ _ _ Hf) in Hp. cbn zeta in Hp.
  rewrite Hopen, Henc in Hp. fold (scratchWritten fs filename enc) in Hp.
  unfold checkExisting in Hp. rewrite Hstat, scratchWritten_out, Hfree in Hp.
  unfold moveAndClean in Hp.
  destruct (os_Rename _ _ _); destruct (removePrevious _ _ _ _ _ _) as [[fs2 []]|];
    simpl in Hp; simplify_eq; intros p Hin;
    repeat (apply elem_of_cons in Hin as [Hin|Hin]; [done|]);
    by apply elem_of_nil in Hin.
Qed.

(** A failed rename is logged and the turn goes on: the final path keeps
    what it held and the new vector stays in the scratch directory, yet the
    file of the other state is removed and the vector is reported as
    written. *)
Theorem persistVector_failed_move_still_cleans g h group item fs v filename enc :
  vectorFilename h group item v = Some filename →
  fails OpOpen (TmpDir, filename) = false →
  json_Encode v = Some enc →
  goesOn g fs filename enc →
  fails OpRename (OutDir, filename) = true →
  ∃ fs' log,
    persistVector g h group item fs v = Some (fs', log) ∧
    fs' !! (OutDir, filename) = fs !! (OutDir, filename) ∧
    fs' !! (TmpDir, filename) = Some enc ∧
    LogRenameFailed ∈ log ∧
    last log = Some (LogWrote (OutDir, filename)) ∧
    (fails OpRemove (previousPath OutDir filename) = false →
     fs' !! previousPath OutDir filename = None).
Proof.
  intros Hf Hopen Henc Hgo Hren.
  rewrite (persistVector_unfold _ _ _ _ _ _ _ Hf). cbn zeta.
  rewrite Hopen, Henc. fold (scratchWritten fs filename enc).
  pose proof Hgo as Hgo'. apply checkExisting_goesOn in Hgo'.
  destruct (checkExisting _ _ _ _) as [[] log0] eqn:Hc; [|done].
  destruct (moveAndClean_result h (scratchWritten fs filename enc) group item v filename enc
              Hf (scratchWritten_tmp _ _ _)) as (fs2 & log1 & Hm & Hlast & _ & Hmv & Hrm).
  rewrite Hm, Hren in *. simpl. destruct Hmv as (Hold & Htmp & Hin).
  exists fs2, (log0 ++ log1). split_and!; try done.
  - by rewrite Hold, scratchWritten_out.
  - apply elem_of_app. by right.
  - apply last_Some in Hlast as [l' ->]. by rewrite app_assoc, last_snoc.
  - intros Hrmok. rewrite Hrmok in Hrm. by destruct Hrm.
Qed.

(** A turn of the loop panics exactly when the name of the file cannot be
    formed, and otherwise touches three paths at most: the scratch file, the
    final path and the path of the other state. *)
Theorem persistVector_frame g h group item fs v :
  (is_Some (persistVector g h group item fs v) ↔
   is_Some (vectorFilename h group item v)) ∧
  ∀ fs' log filename p,
    persistVector g h group item fs v = Some (fs', log) →
    vectorFilename h group item v = Some filename →
    p ≠ (TmpDir, filename) → p ≠ (OutDir, filename) →
    p ≠ previousPath OutDir filename →
    fs' !! p = fs !! p.
Proof.
  assert (Hcases : ∀ filename, vectorFilename h group item v = Some filename →
            ∃ fs' log, persistVector g h group item fs v = Some (fs', log) ∧
              ∀ p, p ≠ (TmpDir, filename) → p ≠ (OutDir, filename) →
                   p ≠ previousPath OutDir filename → fs' !! p = fs !! p).
  { intros filename Hf. rewrite (persistVector_unfold _ _ _ _ _ _ _ Hf). cbn zeta.
    destruct (fails OpOpen (TmpDir, filename)); [by eexists _, _|].
    destruct (json_Encode v) as [enc|].
    2:{ eexists _, _. split; [done|]. intros p ? _ _. by rewrite lookup_insert_ne. }
    fold (scratchWritten fs filename enc).
    destruct (checkExisting _ _ _ _) as [[] log0].
    - destruct (moveAndClean_result h (scratchWritten fs filename enc) group item v
                  filename enc Hf (scratchWritten_tmp _ _ _))
        as (fs2 & log1 & -> & _ & Hfr & _).
      simpl. eexists _, _. split; [done|]. intros p ? ? ?.
      rewrite Hfr by done. by apply scratchWritten_other.
    - eexists _, _. split; [done|]. intros p ? _ _. by apply scratchWritten_other. }
  split.
  - split.
    + intros [r Hr]. unfold persistVector, vectorPath in Hr.
      destruct (vectorFilename h group item v); [eauto|done].
    + intros [filename Hf]. destruct (Hcases filename Hf) as (fs' & log & -> & _). eauto.
  - intros fs' log filename p Hp Hf.
    destruct (Hcases filename Hf) as (fs2 & log2 & Hp2 & Hfr).
    rewrite Hp in Hp2. injection Hp2 as -> ->. apply Hfr.
Qed.

(** Under [OverwriteNone] a turn never rewrites a file of the output
    directory: a file that was there keeps its bytes or, when it is the
    file of the other state, is removed. *)
Theorem persistVector_none_never_rewrites g h group item fs v fs' log filename name old :
  Mode g = OverwriteNone →
  vectorFilename h group item v = Some filename →
  persistVector g h group item fs v = Some (fs', log) →
  fs !! (OutDir, name) = Some old →
  fs' !! (OutDir, name) = Some old ∨
  ((OutDir, name) = previousPath OutDir filename ∧ fs' !! (OutDir, name) = None).
Proof.
  intros Hmode Hf Hp Hold.
  rewrite (persistVector_unfold _ _ _ _ _ _ _ Hf) in Hp. cbn zeta in Hp.
  destruct (fails OpOpen (TmpDir, filename)); [injection Hp as <- <-; by left|].
  destruct (json_Encode v) as [enc|].
  2:{ injection Hp as <- <-. left. by rewrite lookup_insert_ne. }
  fold (scratchWritten fs filename enc) in Hp.
  pose proof (checkExisting_goesOn g fs filename enc) as Hgo.
  destruct (checkExisting _ _ _ _) as [[] log0]; simpl in Hgo.
  2:{ injection Hp as <- <-. left. by rewrite scratchWritten_out. }
  destruct Hgo as [[_ Hfree] _]; [done|].
  destruct Hfree as [Hfree|[?|[? _]]]; [|congruence..].
  destruct (moveAndClean_result h (scratchWritten fs filename enc) group item v
              filename enc Hf (scratchWritten_tmp _ _ _))
    as (fs2 & log1 & Hm & _ & Hfr & _ & Hrm).
  rewrite Hm in Hp. simpl in Hp. injection Hp as <- <-.
  assert (Hne : (OutDir, name) ≠ (OutDir, filename)) by congruence.
  destruct (decide ((OutDir, name) = previousPath OutDir filename)) as [Htwin|Htwin].
  - rewrite <- Htwin in Hrm.
    destruct (fails OpRemove (OutDir, name)); destruct Hrm as [Hrm _].
    + left. by rewrite Hrm, scratchWritten_out.
    + by right.
  - left. rewrite Hfr by done. by rewrite scratchWritten_out.
Qed.

(** In every mode, [OverwriteForce] included, a turn whose scratch file
    cannot be opened or encoded, or whose final path cannot be examined,
    writes nothing to the output directory. *)
Theorem persistVector_early_failure_skips g h group item fs v fs' log filename :
  vectorFilename h group item v = Some filename →
  persistVector g h group item fs v = Some (fs', log) →
  fails OpOpen (TmpDir, filename) = true ∨ json_Encode v = None ∨
    fails OpStat (OutDir, filename) = true →
  outAgree fs fs' ∧ (∀ p, LogWrote p ∉ log) ∧ length log = 1.
Proof.
  intros Hf Hp Hfail.
  rewrite (persistVector_unfold _ _ _ _ _ _ _ Hf) in Hp. cbn zeta in Hp.
  destruct (fails OpOpen (TmpDir, filename)).
  { injection Hp as <- <-. split_and!; [apply outAgree_refl| |done].
    intros p. by intros ?%list_elem_of_singleton. }
  destruct (json_Encode v) as [enc|].
  2:{ injection Hp as <- <-. split_and!; [apply outAgree_insert_tmp| |done].
      intros p. by intros ?%list_elem_of_singleton. }
  destruct Hfail as [?|[?|Hstat]]; [done..|].
  unfold checkExisting in Hp. rewrite Hstat in Hp. injection Hp as <- <-.
  split_and!; [|by intros p ?%list_elem_of_singleton|done].
  eapply outAgree_trans; apply outAgree_insert_tmp.
Qed.

(** When the committed file cannot be parsed as a vector, a generator that
    does not force leaves it alone: the comparison fails, the failure is
    logged and nothing is written. *)
Theorem persistVector_unreadable_existing_skips g h group item fs v filename enc old :
  Mode g ≠ OverwriteForce →
  vectorFilename h group item v = Some filename →
  json_Encode v = Some enc →
  fs !! (OutDir, filename) = Some old →
  strippedBytes old = None →
  fails OpOpen (TmpDir, filename) = false →
  fails OpStat (OutDir, filename) = false →
  ∃ fs',
    persistVector g h group item fs v = Some (fs', [LogEqualityFailed]) ∧
    outAgree fs fs'.
Proof.
  intros Hmode Hf Henc Hold Hbad Hopen Hstat.
  rewrite (persistVector_unfold _ _ _ _ _ _ _ Hf). cbn zeta.
  rewrite Hopen, Henc. unfold checkExisting.
  rewrite Hstat, !lookup_insert_ne, Hold by done.
  rewrite (vectorsEqual_after_write _ _ _ _ Hold), Hbad.
  assert (Hag : outAgree fs (<[(TmpDir, filename) := enc]> (<[(TmpDir, filename) := ""]> fs)))
    by (eapply outAgree_trans; apply outAgree_insert_tmp).
  destruct (Mode g); [| |done];
    (destruct (fails OpRead (TmpDir, filename)); [by eexists|]);
    (destruct (strippedBytes enc); simpl; [|by eexists]);
    destruct (fails OpRead (OutDir, filename)); by eexists.
Qed.

End Moves.

Section Groups.
Context `{Ext : Externals} `{Sys : System}.

(** The identifier [Group] reads through the [Metadata] pointer. *)
Definition idOf (h : gmap positive Metadata) (v : VectorDef) : string :=
  match h !! Metadata_ v with Some meta => ID meta | None => "" end.

(** A definition passes the filter: there is none, or it matches the
    identifier, or it matches the name of the group. *)
Definition kept (g : Generator) (h : gmap positive Metadata) (group : string)
    (v : VectorDef) : bool :=
  match IncludeFilter g with
  | None => true
  | Some matchString => matchString (idOf h v) || matchString group
  end.

(** A definition [Group] cannot validate: both functions, none, or a nil
    [Metadata]. *)
Definition unusable (h : gmap positive Metadata) (v : VectorDef) : Prop :=
  misconfigured v ∨ h !! Metadata_ v = None.

Lemma misconfigured_tests v :
  isSet (MessageFunc v) && isSet (TipsetFunc v) = false →
  negb (isSet (MessageFunc v)) && negb (isSet (TipsetFunc v)) = false →
  ¬ misconfigured v.
Proof.
  intros H1 H2 [[E1 E2]|[E1 E2]]; rewrite E1, E2 in *; done.
Qed.

Lemma validate_usable g h group vectors generate log :
  Forall (λ v, ¬ unusable h v) vectors →
  validate g h group vectors generate log =
    (log ++ (LogSkipFilter <$> (idOf h <$> filter (λ v, kept g h group v = false) vectors)),
     Some (generate ++ filter (λ v, kept g h group v = true) vectors)).
Proof.
  intros Hall. revert generate log.
  induction Hall as [|v vectors Hv _ IH]; intros generate log.
  { simpl. by rewrite !app_nil_r. }
  cbn [validate]. rewrite !filter_cons.
  destruct (isSet (MessageFunc v) && isSet (TipsetFunc v)) eqn:H1.
  { exfalso. apply Hv. left. left. by apply andb_true_iff in H1. }
  destruct (negb (isSet (MessageFunc v)) && negb (isSet (TipsetFunc v))) eqn:H2.
  { exfalso. apply Hv. left. right. apply andb_true_iff in H2 as [?%negb_true_iff ?%negb_true_iff].
    done. }
  destruct (h !! Metadata_ v) as [meta|] eqn:Hm; [|exfalso; apply Hv; by right].
  assert (Hk : kept g h group v =
               match IncludeFilter g with
               | Some matchString =>
                   negb (negb (matchString (ID meta)) && negb (matchString group))
               | None => true
               end).
  { unfold kept, idOf. rewrite Hm. destruct (IncludeFilter g) as [m|]; [|done].
    by destruct (m (ID meta)), (m group). }
  assert (Hid : idOf h v = ID meta) by (unfold idOf; by rewrite Hm).
  destruct (IncludeFilter g) as [matchString|].
  - destruct (negb (matchString (ID meta)) && negb (matchString group));
      simpl in Hk; rewrite IH, Hk.
    + rewrite decide_True, decide_False by done.
      rewrite !fmap_cons, Hid. by rewrite <- app_assoc.
    + rewrite decide_False, decide_True by done. by rewrite <- app_assoc.
  - rewrite IH, Hk. rewrite decide_False, decide_True by done. by rewrite <- app_assoc.
Qed.

Lemma validate_unusable g h group vectors generate log :
  Exists (unusable h) vectors → (validate g h group vectors generate log).2 = None.
Proof.
  intros Hex. revert generate log.
  induction Hex as [v vectors Hv|v vectors _ IH]; intros generate log; cbn [validate].
  - destruct (isSet (MessageFunc v) && isSet (TipsetFunc v)) eqn:H1; [done|].
    destruct (negb (isSet (MessageFunc v)) && negb (isSet (TipsetFunc v))) eqn:H2; [done|].
    destruct Hv as [Hv|Hv]; [by destruct (misconfigured_tests v H1 H2)|].
    by rewrite Hv.
  - destruct (isSet (MessageFunc v) && isSet (TipsetFunc v)); [done|].
    destruct (negb (isSet (MessageFunc v)) && negb (isSet (TipsetFunc v))); [done|].
    destruct (h !! Metadata_ v) as [meta|]; [|done].
    destruct (IncludeFilter g) as [matchString|]; [|apply IH].
    destruct (negb (matchString (ID meta)) && negb (matchString group)); apply IH.
Qed.

#[local] Instance unusable_dec h v : Decision (unusable h v).
Proof. unfold unusable, misconfigured. apply _. Defined.

(** The validation of [Group] panics exactly when one of the definitions
    has both functions, none, or no metadata; whether the filter would have
    skipped that definition makes no difference. *)
Theorem validate_panics_iff g h group vectors :
  (validate g h group vectors [] []).2 = None ↔ Exists (unusable h) vectors.
Proof.
  split; [|apply validate_unusable].
  intros Hnone. destruct (decide (Exists (unusable h) vectors)) as [|Hno]; [done|].
  apply not_Exists_Forall in Hno; [|apply _].
  rewrite (validate_usable g h group vectors [] [] Hno) in Hnone. done.
Qed.

(** When the validation passes, the definitions handed to the goroutines
    are those the filter keeps, in the order of the call, and one line is
    logged for each of the others, with its identifier. *)
Theorem validate_keeps_matching g h group vectors :
  Forall (λ v, ¬ unusable h v) vectors →
  validate g h group vectors [] [] =
    (LogSkipFilter <$> (idOf h <$> filter (λ v, kept g h group v = false) vectors),
     Some (filter (λ v, kept g h group v = true) vectors)).
Proof. intros Hall. by rewrite (validate_usable g h group vectors [] [] Hall). Qed.

Lemma runItems_stdout g group st generate :
  OutputPath g = "" →
  match runItems g group st generate with
  | Returned st' =>
      st_fs st' = st_fs st ∧ st_log st' = st_log st ∧
      ∃ out, st_stdout st' = st_stdout st ++ out
  | Panicked fs log | Exited fs log => fs = st_fs st ∧ log = st_log st
  end.
Proof.
  intros Hout. revert st. induction generate as [|item generate IH]; intros st; simpl.
  - split_and!; [done|done|]. exists []. by rewrite app_nil_r.
  - unfold runItem.
    destruct (generateVariants (st_heap st) item) as [[h' variants]| |]; [|done..].
    rewrite Hout. simpl.
    match goal with |- context [runItems g group ?s generate] => specialize (IH s) end.
    destruct (runItems _ _ _ _); simpl in IH; [|done..].
    destruct IH as (? & ? & out & ->). split_and!; [done|done|].
    exists ((MustMarshalJSON <$> variants) ++ out). by rewrite app_assoc.
Qed.

(** Without an output directory [Group] leaves the files exactly as they
    are, scratch directory included: the vectors go to the standard output,
    after what was printed before, one line per vector of a definition; the
    log gets filter lines and at most the line "no vectors". *)
Theorem Group_without_output_directory g st group vectors :
  OutputPath g = "" →
  (∀ item h' variants,
     generateVariants (st_heap st) item = Ok (h', variants) →
     ∃ st', runItem g group st item = Returned st' ∧
            st_stdout st' = st_stdout st ++ (MustMarshalJSON <$> variants) ∧
            st_fs st' = st_fs st) ∧
  match Group g st group vectors with
  | Returned st' =>
      st_fs st' = st_fs st ∧
      (∃ out, st_stdout st' = st_stdout st ++ out) ∧
      ∃ ids, st_log st' = st_log st ++ (LogSkipFilter <$> ids) ∨
             st_log st' = st_log st ++ (LogSkipFilter <$> ids) ++ [LogNoVectors group]
  | Panicked fs log | Exited fs log => fs = st_fs st
  end.
Proof.
  intros Hout. split.
  { intros item h' variants Hg. unfold runItem. rewrite Hg, Hout. simpl. eauto. }
  unfold Group.
  destruct (validate_log g (st_heap st) group vectors [] []) as [ids Hids].
  destruct (validate g (st_heap st) group vectors [] []) as [log [generate|]];
    simpl in Hids; subst log; [|done].
  cbn zeta. destruct (Nat.eqb (length generate) 0).
  { simpl. split_and!; [done|exists []; by rewrite app_nil_r|].
    exists ids. right. by rewrite app_assoc. }
  rewrite Hout. simpl.
  pose proof (runItems_stdout g group (addLog st (LogSkipFilter <$> ids)) generate Hout) as H.
  destruct (runItems _ _ _ _); simpl in H; [|by destruct H..].
  destruct H as (? & ? & ?). split_and!; [done|done|]. exists ids. by left.
Qed.

(** When the filter keeps none of the definitions, [Group] starts nothing:
    no scratch directory, no generation, no stamp on the metadata; it logs
    the definitions skipped and that there is nothing to generate. *)
Theorem Group_nothing_to_generate g st group vectors :
  Forall (λ v, ¬ unusable (st_heap st) v) vectors →
  Forall (λ v, kept g (st_heap st) group v = false) vectors →
  Group g st group vectors =
    Returned (addLog st ((LogSkipFilter <$> (idOf (st_heap st) <$> vectors))
                         ++ [LogNoVectors group])).
Proof.
  intros Hok Hskip. unfold Group.
  rewrite (validate_usable _ _ _ _ [] [] Hok). cbn [app].
  rewrite (filter_all (λ v, kept g (st_heap st) group v = false)) by (by apply Forall_forall).
  rewrite (filter_none (λ v, kept g (st_heap st) group v = true)).
  2:{ intros v Hv. rewrite Forall_forall in Hskip. rewrite (Hskip v Hv). done. }
  simpl. unfold addLog. simpl. by rewrite app_assoc.
Qed.

(** When the scratch directory cannot be created, [Group] gives up before
    any generation: files, metadata and standard output stay as they are. *)
Theorem Group_without_scratch_directory g st group vectors log generate :
  validate g (st_heap st) group vectors [] [] = (log, Some generate) →
  generate ≠ [] →
  OutputPath g ≠ "" →
  fails OpTempDir (TmpDir, group) = true →
  Group g st group vectors = Returned (addLog st (log ++ [LogTempDirFailed])).
Proof.
  intros Hv Hne Hout Htmp. unfold Group. rewrite Hv. cbn zeta.
  destruct generate; [done|]. simpl.
  apply String.eqb_neq in Hout. rewrite Hout, Htmp.
  unfold addLog. simpl. by rewrite app_assoc.
Qed.

Lemma dropTmp_tmp fs name : dropTmp fs !! (TmpDir, name) = None.
Proof. unfold dropTmp. apply map_lookup_filter_None. right. by intros ? _. Qed.

(** The scratch directory does not outlive a call of [Group] that returns:
    if there is none when [Group] is called and its removal does not fail,
    there is none when [Group] returns. *)
Theorem Group_removes_scratch_directory g st group vectors st' :
  Group g st group vectors = Returned st' →
  (∀ name, st_fs st !! (TmpDir, name) = None) →
  fails OpRemoveAll (TmpDir, group) = false →
  ∀ name, st_fs st' !! (TmpDir, name) = None.
Proof.
  intros HG Hnone Hrm name. unfold Group in HG.
  destruct (validate g (st_heap st) group vectors [] []) as [log [generate|]]; [|done].
  cbn zeta in HG. destruct (Nat.eqb (length generate) 0).
  { injection HG as <-. apply Hnone. }
  destruct (String.eqb (OutputPath g) "") eqn:Hout.
  { apply String.eqb_eq in Hout.
    pose proof (runItems_stdout g group (addLog st log) generate Hout) as H.
    rewrite HG in H. destruct H as (-> & _). apply Hnone. }
  destruct (fails OpTempDir (TmpDir, group)).
  { injection HG as <-. apply Hnone. }
  unfold removeTmp in HG. rewrite Hrm in HG.
  destruct (runItems _ _ _ _); [|done..].
  injection HG as <-. apply dropTmp_tmp.
Qed.

Lemma generateVariants_usable h b :
  ¬ misconfigured b → is_Some (h !! Metadata_ b) → generateVariants h b ≠ Panic.
Proof.
  intros Hok [meta Hm]. unfold generateVariants, producedVariants. rewrite Hm. simpl.
  assert (Hset : isSet (MessageFunc b) || isSet (TipsetFunc b) = true).
  { destruct (isSet (MessageFunc b)) eqn:HM, (isSet (TipsetFunc b)) eqn:HT; try done.
    destruct Hok. by right. }
  assert (Hno : mapM (runVersion b (setGen meta genData)) (versionsOf b) ≠ Panic).
  { apply mapM_no_Panic, Forall_forall. intros pv _. by apply runVersion_no_Panic. }
  by destruct (mapM _ _).
Qed.

Lemma generateVariants_named h b h' ret group :
  (∀ meta pv v, runVersion b meta pv = Ok v → Variants (Pre v) ≠ []) →
  generateVariants h b = Ok (h', ret) →
  ∀ w, w ∈ ret → is_Some (vectorFilename h' group b w).
Proof.
  intros Htag Hg w Hw.
  destruct (generateVariants_produced _ _ _ _ Hg) as [result Hp].
  destruct (generateVariants_Ok _ _ _ _ _ Hg Hp) as [-> (meta & Hm & ->)].
  apply elem_of_ranged in Hw as [k Hk].
  apply representative_Some in Hk as (v & rest & _ & Hv & _ & ->).
  unfold producedVariants in Hp. rewrite Hm in Hp. simpl in Hp.
  apply mapM_Ok in Hp. apply list_elem_of_lookup in Hv as [i Hi].
  destruct (Forall2_lookup_r _ _ _ _ _ Hp Hi) as (pv & _ & Hrun).
  specialize (Htag _ _ _ Hrun).
  unfold vectorFilename. rewrite lookup_insert_eq, Variants_setVariants, fmap_cons. simpl.
  destruct (Variants (Pre v)); [done|]. simpl. eauto.
Qed.

Lemma persistVariants_named g h group item fs log variants :
  (∀ w, w ∈ variants → is_Some (vectorFilename h group item w)) →
  ∃ fs' log', persistVariants g h group item fs log variants = (fs', log', false).
Proof.
  revert fs log. induction variants as [|w variants IH]; intros fs log Hall; simpl; [eauto|].
  assert (is_Some (persistVector g h group item fs w)) as [[fs1 log1] ->].
  { apply persistVector_named, Hall. left. }
  apply IH. intros w' Hw'. apply Hall. by right.
Qed.

Lemma stampedOnly_is_Some h h' l : stampedOnly h h' → is_Some (h !! l) → is_Some (h' !! l).
Proof. intros Hst [m Hm]. specialize (Hst l). rewrite Hm in Hst. destruct (h' !! l); [eauto|done]. Qed.

Lemma runItems_no_panic g group h0 st generate fs log :
  (∀ item, item ∈ generate → ¬ unusable h0 item ∧
     ∀ meta pv v, runVersion item meta pv = Ok v → Variants (Pre v) ≠ []) →
  stampedOnly h0 (st_heap st) →
  runItems g group st generate ≠ Panicked fs log.
Proof.
  revert st. induction generate as [|item generate IH]; intros st Hall Hst; simpl; [done|].
  destruct (Hall item) as [Hok Htag]; [left|].
  unfold runItem.
  pose proof (generateVariants_usable (st_heap st) item) as Hg.
  destruct (generateVariants (st_heap st) item) as [[h' variants]| |] eqn:Hgen; [| |done].
  2:{ destruct Hg; [| |done].
      - intros ?. apply Hok. by left.
      - apply (stampedOnly_is_Some h0); [done|].
        destruct (h0 !! Metadata_ item) eqn:Hm; [eauto|]. destruct Hok. by right. }
  assert (Hst' : stampedOnly h0 h').
  { eapply stampedOnly_trans; [done|]. by eapply generateVariants_stampedOnly. }
  destruct (String.eqb (OutputPath g) "").
  - apply IH; [|done]. intros item' Hin. apply Hall. by right.
  - destruct (persistVariants_named g h' group item (st_fs st) (st_log st) variants)
      as (fs' & log' & ->).
    { by eapply generateVariants_named. }
    apply IH; [|done]. intros item' Hin. apply Hall. by right.
Qed.

(** With builders that tag every vector they finish, [Group] panics in its
    validation loop or not at all: it panics exactly when a definition has
    both functions, none, or no metadata.  Otherwise it returns, unless a
    failed assertion ends the process. *)
Theorem Group_panics_only_in_validation g st group vectors :
  (∀ item meta pv v, item ∈ vectors →
     runVersion item meta pv = Ok v → Variants (Pre v) ≠ []) →
  (∃ fs log, Group g st group vectors = Panicked fs log) ↔
  Exists (unusable (st_heap st)) vectors.
Proof.
  intros Htag. split.
  - intros (fs & log & HG).
    destruct (decide (Exists (unusable (st_heap st)) vectors)) as [|Hno]; [done|].
    exfalso. apply not_Exists_Forall in Hno; [|apply _].
    unfold Group in HG.
    rewrite (validate_usable _ _ _ _ [] [] Hno) in HG. cbn [app] in HG. cbn zeta in HG.
    set (generate := filter _ vectors) in HG.
    assert (Hgen : ∀ item, item ∈ generate → ¬ unusable (st_heap st) item ∧
              ∀ meta pv v, runVersion item meta pv = Ok v → Variants (Pre v) ≠ []).
    { intros item [_ Hin]%list_elem_of_filter. split; [|eauto].
      rewrite Forall_forall in Hno. by apply Hno. }
    destruct (Nat.eqb (length generate) 0); [done|].
    destruct (String.eqb (OutputPath g) "").
    { revert HG. apply (runItems_no_panic g group (st_heap st)); [done|apply stampedOnly_refl]. }
    destruct (fails OpTempDir (TmpDir, group)); [done|].
    destruct (runItems _ _ _ _) as [st1|fs1 log1|fs1 log1] eqn:Hrun in HG.
    + by destruct (removeTmp _ _ _).
    + revert Hrun. apply (runItems_no_panic g group (st_heap st)); [done|apply stampedOnly_refl].
    + done.
  - intros Hex.
    pose proof (validate_unusable g (st_heap st) group vectors [] [] Hex) as Hv.
    unfold Group.
    destruct (validate g (st_heap st) group vectors [] []) as [log o].
    simpl in Hv. subst. eauto.
Qed.

End Groups.

(** * [NewGenerator] and [ensureDirectory] *)

(** What [os.Stat] tells of a path that exists. *)
Inductive Kind := RegularFile | Directory.

(** The part of the operating system [ensureDirectory] relies on:
    [os.MkdirAll], which returns the tree it leaves and whether it failed,
    and leaves a directory at the path when it succeeds; the calls to
    [os.Stat] that fail with an error other than "not exist"; and
    [regexp.Compile], with the compiled expression as its [MatchString]. *)
Class Directories := {
  os_MkdirAll : gmap string Kind → string → gmap string Kind * bool;
  os_MkdirAll_creates : ∀ tree path tree',
    os_MkdirAll tree path = (tree', false) → tree' !! path = Some Directory;
  statFails : string → bool;
  regexp_Compile : string → option (string → bool)
}.

Section Setup.
Context `{Ext : Externals} `{Dirs : Directories}.

(** The errors of [ensureDirectory]. *)
Inductive DirectoryError := FailedToCreate | NotADirectory | FailedToStat.

(** [ensureDirectory]: the tree afterwards and the error, if any.  The
    [switch] looks at "not exist" first, then at a path that is not a
    directory, then at any other error. *)
Definition ensureDirectory (tree : gmap string Kind) (path : string)
  : gmap string Kind * option DirectoryError :=
  if statFails path then (tree, Some FailedToStat)
  else match tree !! path with
       | None =>
           match os_MkdirAll tree path with
           | (tree', true) => (tree', Some FailedToCreate)
           | (tree', false) => (tree', None)
           end
       | Some RegularFile => (tree, Some NotADirectory)
       | Some Directory => (tree, None)
       end.

(** [NewGenerator], from the values of the flags once parsed: [-o], [-u],
    [-f] and [-i].  [None] is [log.Fatal]. *)
Definition NewGenerator (outputDir : string) (update force : bool) (includeFilter : string)
    (tree : gmap string Kind) : gmap string Kind * option Generator :=
  let mode :=
    if force then OverwriteForce
    else if update then OverwriteUpdate
    else OverwriteNone in
  let '(tree', outputPath) :=
    if String.eqb outputDir "" then (tree, Some "")
    else match ensureDirectory tree outputDir with
         | (tree', Some _) => (tree', None)
         | (tree', None) => (tree', Some outputDir)
         end in
  match outputPath with
  | None => (tree', None)
  | Some outputPath =>
      if String.eqb includeFilter ""
      then (tree', Some {| OutputPath := outputPath; Mode := mode; IncludeFilter := None |})
      else match regexp_Compile includeFilter with
           | None => (tree', None)
           | Some exp =>
               (tree', Some {| OutputPath := outputPath; Mode := mode;
                               IncludeFilter := Some exp |})
           end
  end.

Lemma ensureDirectory_dir tree path tree' :
  ensureDirectory tree path = (tree', None) → tree' !! path = Some Directory.
Proof.
  unfold ensureDirectory. destruct (statFails path); [done|].
  destruct (tree !! path) as [[]|] eqn:Hp; [done|by intros [= <-]|].
  destruct (os_MkdirAll tree path) as [t []] eqn:Hmk; [done|].
  intros [= <-]. by apply os_MkdirAll_creates in Hmk.
Qed.

(** When [ensureDirectory] returns no error the path is a directory, and a
    second call finds it and changes nothing. *)
Theorem ensureDirectory_makes_directory tree path tree' :
  ensureDirectory tree path = (tree', None) →
  tree' !! path = Some Directory ∧ ensureDirectory tree' path = (tree', None).
Proof.
  unfold ensureDirectory. destruct (statFails path) eqn:Hstat; [done|].
  assert (Hdir : ∀ t, t !! path = Some Directory →
            (match t !! path with
             | None => match os_MkdirAll t path with
                       | (t', true) => (t', Some FailedToCreate)
                       | (t', false) => (t', None)
                       end
             | Some RegularFile => (t, Some NotADirectory)
             | Some Directory => (t, None)
             end) = (t, None)) by (by intros t ->).
  destruct (tree !! path) as [[]|] eqn:Hp.
  - done.
  - intros [= <-]. split; [done|]. by apply Hdir.
  - destruct (os_MkdirAll tree path) as [t []] eqn:Hmk; [done|].
    intros [= <-]. apply os_MkdirAll_creates in Hmk. split; [done|]. by apply Hdir.
Qed.

(** A path that is not a directory is an error, and so is a failing
    [os.Stat]; in both cases nothing is created.  A directory that exists is
    left alone. *)
Theorem ensureDirectory_leaves_existing tree path kind :
  tree !! path = Some kind →
  (ensureDirectory tree path).1 = tree ∧
  ((ensureDirectory tree path).2 = None ↔ kind = Directory ∧ statFails path = false).
Proof.
  intros Hp. unfold ensureDirectory. rewrite Hp.
  destruct (statFails path); [by split; [|split; [|intros [_ ?]]]|].
  destruct kind; simpl; split; try done; split; try done. by intros [? _].
Qed.

(** A generator comes with the mode the flags ask for, [-f] before [-u];
    with the output path given, which is then a directory; and with a
    filter exactly when an expression was given. *)
Theorem NewGenerator_configuration outputDir update force includeFilter tree tree' g :
  NewGenerator outputDir update force includeFilter tree = (tree', Some g) →
  Mode g = (if force then OverwriteForce
            else if update then OverwriteUpdate else OverwriteNone) ∧
  OutputPath g = outputDir ∧
  (outputDir ≠ "" → tree' !! outputDir = Some Directory) ∧
  (outputDir = "" → tree' = tree) ∧
  (IncludeFilter g = None ↔ includeFilter = "").
Proof.
  unfold NewGenerator.
  destruct (String.eqb outputDir "") eqn:Hout.
  - apply String.eqb_eq in Hout. subst outputDir.
    destruct (String.eqb includeFilter "") eqn:Hi.
    + apply String.eqb_eq in Hi. intros [= <- <-]. simpl. by split_and!.
    + apply String.eqb_neq in Hi. destruct (regexp_Compile includeFilter); [|done].
      intros [= <- <-]. simpl. split_and!; try done; by split.
  - apply String.eqb_neq in Hout.
    destruct (ensureDirectory tree outputDir) as [t [e|]] eqn:He; [done|].
    apply ensureDirectory_dir in He.
    destruct (String.eqb includeFilter "") eqn:Hi.
    + apply String.eqb_eq in Hi. intros [= <- <-]. simpl. by split_and!.
    + apply String.eqb_neq in Hi. destruct (regexp_Compile includeFilter); [|done].
      intros [= <- <-]. simpl. split_and!; try done; by split.
Qed.

End Setup.

(** * More runs of the small instance *)

Module Trials.
Import Sample.

(** A system in which one kind of call fails. *)
Definition failingOn (op : Op) : System :=
  {| fails op' _ :=
       match op, op' with
       | OpOpen, OpOpen | OpStat, OpStat | OpRead, OpRead | OpRename, OpRename
       | OpRemove, OpRemove | OpTempDir, OpTempDir | OpRemoveAll, OpRemoveAll => true
       | _, _ => false
       end |}.

(** Directories that can always be created, and expressions that match
    the strings they are a prefix of; ["("] does not compile. *)
#[export] Instance directories : Directories := {|
  os_MkdirAll tree path := (<[path := Directory]> tree, false);
  os_MkdirAll_creates tree path tree' H :=
    eq_ind _ (λ t, t !! path = Some Directory) (lookup_insert_eq tree path Directory) _
           (f_equal fst H);
  statFails _ := false;
  regexp_Compile s := if String.eqb s "(" then None else Some (String.prefix s)
|}.

Definition filtering (matchString : string → bool) : Generator :=
  {| OutputPath := "out"; Mode := OverwriteUpdate; IncludeFilter := Some matchString |}.

Definition printing : Generator :=
  {| OutputPath := ""; Mode := OverwriteNone; IncludeFilter := None |}.

(** An output directory whose file is not a vector. *)
Definition garbled : gmap (Dir * string) string :=
  {[ (OutDir, "grp--ok--genesis.json") := "garbage" ]}.

Definition name0 : string := "grp--ok--genesis.json".

(** The same vector twice, stamped by two generations. *)
Definition copies : gmap (Dir * string) string :=
  {[ (OutDir, "grp--ok--genesis.json") := "older#send";
     (TmpDir, "grp--ok--genesis.json") := "newer#send" ]}.

End Trials.

Section MoreRuns.
Import Sample Trials.

Lemma trial_name : vectorFilename heap1 "grp" (constantDef []) merged = Some name0.
Proof. reflexivity. Qed.

Lemma trial_usable hints : ¬ unusable heap0 (constantDef hints).
Proof. intros [[[? ?]|[? ?]]|?]; done. Qed.

Lemma trial_tagged item meta pv v :
  item ∈ [constantDef []] → runVersion item meta pv = Ok v → Variants (Pre v) ≠ [].
Proof. intros ->%list_elem_of_singleton [= <-]. done. Qed.

Lemma generateVariants_keeps_every_tag_run :
  ∃ h' ret result,
    generateVariants heap0 versionedDef = Ok (h', ret) ∧
    producedVariants heap0 versionedDef = Ok result ∧
    variantsOfAll ret ≡ₚ variantsOfAll result.
Proof.
  eexists _, _, _. split; [vm_compute; reflexivity|].
  split; [vm_compute; reflexivity|].
  eapply (generateVariants_keeps_every_tag heap0 versionedDef); vm_compute; reflexivity.
Defined.

Lemma generateVariants_returns_produced_vectors_run :
  ∃ h' ret result,
    generateVariants heap0 versionedDef = Ok (h', ret) ∧
    producedVariants heap0 versionedDef = Ok result ∧
    (length ret ≤ length result)%nat ∧ length result = 3.
Proof.
  eexists _, _, _. split; [vm_compute; reflexivity|].
  split; [vm_compute; reflexivity|].
  eapply (generateVariants_returns_produced_vectors heap0 versionedDef);
    vm_compute; reflexivity.
Defined.

Lemma previousPath_involutive_run :
  previousPath OutDir (previousPath OutDir "x--grp--ok--genesis.json").2
    = (OutDir, "x--grp--ok--genesis.json").
Proof. exact (previousPath_involutive OutDir "x--grp--ok--genesis.json" eq_refl). Defined.

Lemma vectorFilename_tells_tags_apart_run :
  VariantID <$> head (Variants (Pre merged))
    = VariantID <$> head (Variants (Pre (setMeta merged None))).
Proof.
  exact (vectorFilename_tells_tags_apart heap1 "grp" (constantDef []) merged
           (setMeta merged None) name0 eq_refl eq_refl).
Defined.

Lemma vectorsEqual_is_an_equivalence_run :
  vectorsEqual copies (TmpDir, name0) (TmpDir, name0) = Some true.
Proof.
  apply (proj2 (proj2 (vectorsEqual_is_an_equivalence (Ext:=externals) copies
                         (TmpDir, name0) (OutDir, name0) (TmpDir, name0))));
    vm_compute; reflexivity.
Defined.

Lemma persistVector_frame_run :
  let r := persistVector (generatorWith OverwriteForce) heap1 "grp" (constantDef [])
                         changed merged in
  filesAfter r !! (OutDir, "other.json") = changed !! (OutDir, "other.json").
Proof.
  intros r.
  assert (Hlog : logAfter r = [LogWrote (OutDir, name0)]) by (vm_compute; reflexivity).
  apply (proj2 (persistVector_frame (Ext:=externals) (Sys:=calm)
                  (generatorWith OverwriteForce) heap1 "grp" (constantDef [])
                  changed merged)
           (filesAfter r) (logAfter r) name0 (OutDir, "other.json")).
  - apply persisted_result. by rewrite Hlog.
  - exact trial_name.
  - discriminate.
  - intros H. vm_compute in H. discriminate.
  - intros H. vm_compute in H. discriminate.
Defined.

Lemma persistVector_writes_iff_run :
  let r := persistVector (generatorWith OverwriteForce) heap1 "grp" (constantDef [])
                         changed merged in
  LogWrote (OutDir, name0) ∈ logAfter r ↔
  fails OpOpen (TmpDir, name0) = false ∧
  ∃ enc, json_Encode merged = Some enc ∧
         goesOn (generatorWith OverwriteForce) changed name0 enc.
Proof.
  intros r.
  assert (Hlog : logAfter r = [LogWrote (OutDir, name0)]) by (vm_compute; reflexivity).
  apply (persistVector_writes_iff (Ext:=externals) (Sys:=calm)
           (generatorWith OverwriteForce) heap1 "grp" (constantDef []) changed merged
           (filesAfter r) (logAfter r) name0 trial_name).
  apply persisted_result. by rewrite Hlog.
Defined.

Lemma persistVector_force_overwrites_run :
  ∃ fs' log,
    persistVector (generatorWith OverwriteForce) heap1 "grp" (constantDef []) changed merged
      = Some (fs', log) ∧
    fs' !! (OutDir, name0) = Some "ok#send" ∧ fs' !! (TmpDir, name0) = None.
Proof.
  destruct (persistVector_force_overwrites (Ext:=externals) (Sys:=calm)
              (generatorWith OverwriteForce) heap1 "grp" (constantDef []) changed merged
              name0 "ok#send" eq_refl trial_name eq_refl eq_refl eq_refl eq_refl)
    as (fs' & log & Hp & Hnew & Htmp & _).
  exists fs', log. exact (conj Hp (conj Hnew Htmp)).
Defined.

Lemma persistVector_update_overwrites_changed_run :
  ∃ fs' log,
    persistVector (generatorWith OverwriteUpdate) heap1 "grp" (constantDef []) changed merged
      = Some (fs', log) ∧
    fs' !! (OutDir, name0) = Some "ok#send" ∧
    head log = Some (LogOverwriting (OutDir, name0)).
Proof.
  destruct (persistVector_update_overwrites_changed (Ext:=externals) (Sys:=calm)
              (generatorWith OverwriteUpdate) heap1 "grp" (constantDef []) changed merged
              name0 "ok#send" eq_refl (sample_outOfDate heap1 (or_introl eq_refl)) trial_name
              eq_refl eq_refl eq_refl eq_refl eq_refl eq_refl)
    as (fs' & log & Hp & Hnew & _ & Hhead & _).
  exists fs', log. exact (conj Hp (conj Hnew Hhead)).
Defined.

Lemma trial_free : flipped !! (OutDir, name0) = None.
Proof. vm_compute. reflexivity. Qed.

Lemma persistVector_writes_new_file_run :
  ∃ fs' log,
    persistVector (generatorWith OverwriteNone) heap1 "grp" (constantDef []) flipped merged
      = Some (fs', log) ∧
    fs' !! (OutDir, name0) = Some "ok#send" ∧
    last log = Some (LogWrote (OutDir, name0)).
Proof.
  destruct (persistVector_writes_new_file (Ext:=externals) (Sys:=calm)
              (generatorWith OverwriteNone) heap1 "grp" (constantDef []) flipped merged
              name0 "ok#send" trial_free trial_name eq_refl eq_refl eq_refl eq_refl)
    as (fs' & log & Hp & Hnew & _ & Hlast & _).
  exists fs', log. exact (conj Hp (conj Hnew Hlast)).
Defined.

Lemma persistVector_failed_move_still_cleans_run :
  ∃ fs' log,
    @persistVector externals (failingOn OpRename) (generatorWith OverwriteNone) heap1 "grp"
                   (constantDef []) flipped merged = Some (fs', log) ∧
    fs' !! (OutDir, name0) = flipped !! (OutDir, name0) ∧
    LogRenameFailed ∈ log ∧
    last log = Some (LogWrote (OutDir, name0)) ∧
    fs' !! (OutDir, "x--grp--ok--genesis.json") = None.
Proof.
  destruct (persistVector_failed_move_still_cleans (Ext:=externals) (Sys:=failingOn OpRename)
              (generatorWith OverwriteNone) heap1 "grp" (constantDef []) flipped merged
              name0 "ok#send" trial_name eq_refl eq_refl)
    as (fs' & log & Hp & Hold & _ & Hin & Hlast & Hrm); [|reflexivity|].
  { split; [reflexivity|]. left. exact trial_free. }
  exists fs', log.
  exact (conj Hp (conj Hold (conj Hin (conj Hlast (Hrm eq_refl))))).
Defined.

Lemma persistVector_none_never_rewrites_run :
  let r := persistVector (generatorWith OverwriteNone) heap1 "grp" (constantDef [])
                         changed merged in
  filesAfter r !! (OutDir, name0) = Some "older#receive" ∨
  ((OutDir, name0) = previousPath OutDir name0 ∧ filesAfter r !! (OutDir, name0) = None).
Proof.
  intros r.
  assert (Hlog : logAfter r = [LogWarnChanged (OutDir, name0)]) by (vm_compute; reflexivity).
  apply (persistVector_none_never_rewrites (Ext:=externals) (Sys:=calm)
           (generatorWith OverwriteNone) heap1 "grp" (constantDef []) changed merged
           (filesAfter r) (logAfter r) name0 name0 "older#receive" eq_refl trial_name).
  - apply persisted_result. by rewrite Hlog.
  - vm_compute. reflexivity.
Defined.

Lemma persistVector_early_failure_skips_run :
  let r := @persistVector externals (failingOn OpStat) (generatorWith OverwriteForce) heap1
                          "grp" (constantDef []) changed merged in
  outAgree changed (filesAfter r) ∧ (∀ p, LogWrote p ∉ logAfter r) ∧
  length (logAfter r) = 1.
Proof.
  intros r.
  assert (Hlog : logAfter r = [LogStatFailed (OutDir, name0)]) by (vm_compute; reflexivity).
  apply (persistVector_early_failure_skips (Ext:=externals) (Sys:=failingOn OpStat)
           (generatorWith OverwriteForce) heap1 "grp" (constantDef []) changed merged
           (filesAfter r) (logAfter r) name0 trial_name).
  - apply persisted_result. by rewrite Hlog.
  - right. right. reflexivity.
Defined.

Lemma trial_garbled : garbled !! (OutDir, name0) = Some "garbage".
Proof. vm_compute. reflexivity. Qed.

Lemma persistVector_unreadable_existing_skips_run :
  ∃ fs',
    persistVector (generatorWith OverwriteUpdate) heap1 "grp" (constantDef []) garbled merged
      = Some (fs', [LogEqualityFailed]) ∧
    outAgree garbled fs'.
Proof.
  apply (persistVector_unreadable_existing_skips (Ext:=externals) (Sys:=calm)
           (generatorWith OverwriteUpdate) heap1 "grp" (constantDef []) garbled merged
           name0 "ok#send" "garbage").
  - discriminate.
  - exact trial_name.
  - reflexivity.
  - exact trial_garbled.
  - reflexivity.
  - reflexivity.
  - reflexivity.
Defined.

Lemma trial_all_usable (hints : list (list string)) :
  Forall (λ v, ¬ unusable heap0 v) (constantDef <$> hints).
Proof. induction hints; constructor; [apply trial_usable | done]. Qed.

Lemma validate_keeps_matching_run :
  validate (filtering (String.prefix "gr")) heap0 "grp"
           [constantDef []; constantDef ["incorrect"]] [] []
    = ([], Some [constantDef []; constantDef ["incorrect"]]).
Proof.
  exact (validate_keeps_matching (Ext:=externals) (filtering (String.prefix "gr")) heap0 "grp"
           [constantDef []; constantDef ["incorrect"]]
           (trial_all_usable [[]; ["incorrect"]])).
Defined.

Lemma Group_nothing_to_generate_run :
  Group (filtering (λ _, false)) (stateOf committed) "grp" [constantDef []]
    = Returned (addLog (stateOf committed) [LogSkipFilter "ok"; LogNoVectors "grp"]).
Proof.
  apply (Group_nothing_to_generate (Ext:=externals) (Sys:=calm)
           (filtering (λ _, false)) (stateOf committed) "grp" [constantDef []]
           (trial_all_usable [[]])).
  constructor; [reflexivity | constructor].
Defined.

Lemma Group_without_scratch_directory_run :
  @Group externals (failingOn OpTempDir) (generatorWith OverwriteForce) (stateOf committed)
         "grp" [constantDef []]
    = Returned (addLog (stateOf committed) [LogTempDirFailed]).
Proof.
  apply (Group_without_scratch_directory (Ext:=externals) (Sys:=failingOn OpTempDir)
           (generatorWith OverwriteForce) (stateOf committed) "grp" [constantDef []]
           [] [constantDef []]); [reflexivity|discriminate|discriminate|reflexivity].
Defined.

Lemma trial_no_scratch name : committed !! (TmpDir, name) = None.
Proof. by apply lookup_singleton_ne. Qed.

Lemma Group_removes_scratch_directory_run :
  let run := Group (generatorWith OverwriteUpdate) (stateOf committed) "grp" [constantDef []] in
  hasReturned run = true ∧ st_fs (stateAfter run) !! (TmpDir, name0) = None.
Proof.
  intros run.
  assert (Hret : hasReturned run = true) by (vm_compute; reflexivity).
  split; [exact Hret|].
  exact (Group_removes_scratch_directory (Ext:=externals) (Sys:=calm)
           (generatorWith OverwriteUpdate) (stateOf committed) "grp" [constantDef []]
           (stateAfter run) (returned_result run Hret) trial_no_scratch eq_refl name0).
Defined.

Lemma Group_without_output_directory_run :
  match Group printing (stateOf committed) "grp" [constantDef []] with
  | Returned st' => st_fs st' = committed
  | Panicked fs log | Exited fs log => fs = committed
  end.
Proof.
  destruct (Group_without_output_directory (Ext:=externals) (Sys:=calm)
              printing (stateOf committed) "grp" [constantDef []] eq_refl) as [_ H].
  revert H. generalize (Group printing (stateOf committed) "grp" [constantDef []]).
  intros [st'|fs log|fs log] H; [exact (proj1 H) | exact H | exact H].
Defined.

Lemma Group_panics_only_in_validation_run :
  (∃ fs log, Group (generatorWith OverwriteUpdate) (stateOf committed) "grp" [constantDef []]
             = Panicked fs log) ↔
  Exists (unusable heap0) [constantDef []].
Proof.
  exact (Group_panics_only_in_validation (Ext:=externals) (Sys:=calm)
           (generatorWith OverwriteUpdate) (stateOf committed) "grp" [constantDef []]
           (λ item meta pv v Hin, trial_tagged item meta pv v Hin)).
Defined.

Lemma ensureDirectory_makes_directory_run :
  (<["out" := Directory]> ∅ : gmap string Kind) !! "out" = Some Directory ∧
  ensureDirectory (<["out" := Directory]> ∅) "out" = (<["out" := Directory]> ∅, None).
Proof.
  exact (ensureDirectory_makes_directory (Dirs:=directories) ∅ "out"
           (<["out" := Directory]> ∅) eq_refl).
Defined.

Lemma ensureDirectory_leaves_existing_run :
  (ensureDirectory (<["out" := RegularFile]> ∅) "out").1 = <["out" := RegularFile]> ∅ ∧
  ((ensureDirectory (<["out" := RegularFile]> ∅) "out").2 = None ↔
   RegularFile = Directory ∧ statFails "out" = false).
Proof.
  exact (ensureDirectory_leaves_existing (Dirs:=directories) (<["out" := RegularFile]> ∅)
           "out" RegularFile (lookup_insert_eq _ _ _)).
Defined.

Lemma NewGenerator_configuration_run :
  ∃ tree' g,
    NewGenerator "out" true true "gr" ∅ = (tree', Some g) ∧
    Mode g = OverwriteForce ∧ OutputPath g = "out" ∧
    tree' !! "out" = Some Directory.
Proof.
  exists (<["out" := Directory]> ∅), {| OutputPath := "out"; Mode := OverwriteForce;
                                         IncludeFilter := Some (String.prefix "gr") |}.
  assert (H : NewGenerator "out" true true "gr" ∅
              = (<["out" := Directory]> ∅,
                 Some {| OutputPath := "out"; Mode := OverwriteForce;
                         IncludeFilter := Some (String.prefix "gr") |})) by reflexivity.
  split; [exact H|].
  destruct (NewGenerator_configuration (Dirs:=directories)
              "out" true true "gr" ∅ _ _ H) as (Hm & Ho & Hd & _).
  split_and!; [exact Hm | exact Ho | by apply Hd].
Defined.

End MoreRuns.
